(** * file-manager-cm: hierarchy store and archive job engine

    A shallow embedding of the parts of the repository that carry its
    systems-level behaviour:

    - [src/lib/supabase-api.ts] together with [supabase-setup.sql] and
      [supabase-storage-policy.sql]: the folder tree with materialized
      paths, cascade deletion, breadcrumbs and file upload;
    - [src/lib/database.ts]: the [zip_jobs] and [files] tables of the
      SQLite variant and [DatabaseOps.updateZipJobStatus];
    - [src/lib/zip.ts]: [processZipFiles];
    - [src/lib/queue.ts]: [InMemoryQueue].

    Asynchronous code is modelled by explicit state passing: every value the
    code obtains from its environment (generated uuids, clock readings, the
    events emitted by the archiver and the output stream, the outcome of an
    awaited promise) is an explicit argument. *)

From Stdlib Require Import String Ascii List Bool Arith NArith Lia DecimalString Sorted.
Import ListNotations.
Local Open Scope string_scope.
Local Open Scope list_scope.

(** String concatenation, as in a template literal. *)
Infix "+++" := String.append (right associativity, at level 60).

(** ** JavaScript and PostgREST idioms *)

Inductive Error : Type :=
| NotAuthenticated            (* new Error('User not authenticated') *)
| PostgrestError (msg : string)
| StorageError (msg : string).

Inductive result (A : Type) : Type :=
| Ok (a : A)
| Err (e : Error).
Arguments Ok {A} a.
Arguments Err {A} e.

(** Truthiness of a [string | undefined] value: [undefined] and the empty
    string are falsy. *)
Definition truthy (o : option string) : bool :=
  match o with
  | Some s => negb (s =? "")
  | None => false
  end.

(** [x || null] for a [string | undefined] value. *)
Definition or_null (o : option string) : option string :=
  if truthy o then o else None.

Definition mem (x : string) (l : list string) : bool :=
  existsb (String.eqb x) l.

(** [s.split(sep)] for a one-character separator. *)
Fixpoint split (sep : ascii) (s : string) : list string :=
  match s with
  | EmptyString => [EmptyString]
  | String c rest =>
      if Ascii.eqb c sep then EmptyString :: split sep rest
      else match split sep rest with
           | [] => [String c EmptyString]
           | seg :: segs => String c seg :: segs
           end
  end.

Definition slash : ascii := "/"%char.

(** [`${n}`] for a non-negative integer. *)
Definition string_of_N (n : N) : string :=
  NilEmpty.string_of_uint (N.to_uint n).

(** [.single()]: exactly one row, otherwise an error. *)
Definition single {A : Type} (rows : list A) : result A :=
  match rows with
  | [r] => Ok r
  | _ => Err (PostgrestError "JSON object requested, multiple (or no) rows returned")
  end.

(** ** The Supabase tables ([supabase-setup.sql]) *)

Module Folder.
Record t : Type := mk {
  id : string;
  name : string;
  parent_id : option string;
  user_id : string;
  path : string;
  created_at : N
}.
End Folder.

Module File.
Record t : Type := mk {
  id : string;
  name : string;
  size : N;
  checksum : string;
  folder_id : string;
  user_id : string;
  storage_path : string;
  mime_type : string;
  created_at : N;
  updated_at : N
}.
End File.

(** A browser [File]: its size is the length of its content. *)
Module Upload.
Record t : Type := mk {
  name : string;
  type : string;
  bytes : string
}.
Definition size (f : t) : N := N.of_nat (String.length (bytes f)).
End Upload.

(** The backend as the client sees it: the keys of [auth.users], the
    session of [supabase.auth], the two tables in insertion order and the
    objects of the storage bucket ['files'] (object name and content). *)
Record Supabase : Type := mkSupabase {
  auth_users : list string;
  session : option string;
  fm_folders : list Folder.t;
  fm_files : list File.t;
  bucket : list (string * string)
}.

Definition empty_backend : Supabase := mkSupabase [] None [] [] [].

Definition set_session (u : option string) (s : Supabase) : Supabase :=
  mkSupabase (auth_users s) u (fm_folders s) (fm_files s) (bucket s).

Definition set_folders (rows : list Folder.t) (s : Supabase) : Supabase :=
  mkSupabase (auth_users s) (session s) rows (fm_files s) (bucket s).

Definition set_files (rows : list File.t) (s : Supabase) : Supabase :=
  mkSupabase (auth_users s) (session s) (fm_folders s) rows (bucket s).

Definition set_bucket (objs : list (string * string)) (s : Supabase) : Supabase :=
  mkSupabase (auth_users s) (session s) (fm_folders s) (fm_files s) objs.

(** [auth.uid() = user_id], the USING clause of every policy on the two
    tables. *)
Definition owns_folder (s : Supabase) (f : Folder.t) : bool :=
  match session s with
  | Some u => Folder.user_id f =? u
  | None => false
  end.

Definition owns_file (s : Supabase) (f : File.t) : bool :=
  match session s with
  | Some u => File.user_id f =? u
  | None => false
  end.

(** [(storage.foldername(name))[1]]: the first segment of an object name. *)
Definition storage_foldername1 (name : string) : string :=
  hd EmptyString (split slash name).

Definition owns_object (s : Supabase) (name : string) : bool :=
  match session s with
  | Some u => u =? storage_foldername1 name
  | None => false
  end.

Definition folder_ids (rows : list Folder.t) : list string := map Folder.id rows.
Definition file_ids (rows : list File.t) : list string := map File.id rows.

(** *** ON DELETE CASCADE *)

(** A folder row whose [parent_id] references a deleted key. *)
Definition references (dead : list string) (f : Folder.t) : bool :=
  match Folder.parent_id f with
  | Some p => mem p dead
  | None => false
  end.

(** The referential action of [parent_id ... ON DELETE CASCADE]: rows that
    reference a deleted key are deleted in turn, until no row does.  The
    result is the list of deleted keys and the surviving rows. *)
Fixpoint cascade (fuel : nat) (dead : list string) (rows : list Folder.t)
  : list string * list Folder.t :=
  match fuel with
  | O => (dead, rows)
  | S n =>
      match filter (references dead) rows with
      | [] => (dead, rows)
      | hit =>
          cascade n (folder_ids hit ++ dead)
                  (filter (fun f => negb (references dead f)) rows)
      end
  end.

(** The rows [DELETE FROM fm_folders WHERE id = $1] names, under the USING
    clause of the delete policy. *)
Definition delete_target (s : Supabase) (id : string) (f : Folder.t) : bool :=
  (Folder.id f =? id) && owns_folder s f.

(** [DELETE FROM fm_folders WHERE id = $1] with the cascades of both
    foreign keys.  Storage objects are not rows: no constraint reaches
    them. *)
Definition delete_folder_rows (s : Supabase) (id : string) : Supabase :=
  let hit := filter (delete_target s id) (fm_folders s) in
  let rest := filter (fun f => negb (delete_target s id f)) (fm_folders s) in
  let '(dead, survivors) := cascade (length rest) (folder_ids hit) rest in
  set_files (filter (fun f => negb (mem (File.folder_id f) dead)) (fm_files s))
            (set_folders survivors s).

(** [INSERT INTO fm_folders]: primary key, foreign key on [parent_id] and
    the WITH CHECK clause of the insert policy. *)
Definition insert_folder (s : Supabase) (row : Folder.t) : result Supabase :=
  if negb (owns_folder s row) then
    Err (PostgrestError "new row violates row-level security policy")
  else if mem (Folder.id row) (folder_ids (fm_folders s)) then
    Err (PostgrestError "duplicate key value violates unique constraint")
  else if match Folder.parent_id row with
          | Some p => negb (mem p (folder_ids (fm_folders s)))
          | None => false
          end then
    Err (PostgrestError "violates foreign key constraint")
  else Ok (set_folders (fm_folders s ++ [row]) s).

Definition insert_file (s : Supabase) (row : File.t) : result Supabase :=
  if negb (owns_file s row) then
    Err (PostgrestError "new row violates row-level security policy")
  else if mem (File.id row) (file_ids (fm_files s)) then
    Err (PostgrestError "duplicate key value violates unique constraint")
  else if negb (mem (File.folder_id row) (folder_ids (fm_folders s))) then
    Err (PostgrestError "violates foreign key constraint")
  else Ok (set_files (fm_files s ++ [row]) s).

(** The trigger [on_auth_user_created]: [create_user_root_folder] inserts
    the row [('Root', NULL, NEW.id, '/')].  It runs SECURITY DEFINER, so no
    policy applies; [rootId] is the value of [gen_random_uuid()]. *)
Definition create_user_root_folder (newUser rootId : string) (now : N)
  (s : Supabase) : result Supabase :=
  if mem rootId (folder_ids (fm_folders s)) then
    Err (PostgrestError "duplicate key value violates unique constraint")
  else Ok (set_folders (fm_folders s ++ [Folder.mk rootId "Root" None newUser "/" now]) s).

(** [INSERT INTO auth.users], the effect of a successful sign-up: the row
    and the trigger's insert are one transaction. *)
Definition insert_auth_user (newUser rootId : string) (now : N)
  (s : Supabase) : result Supabase :=
  if mem newUser (auth_users s) then
    Err (PostgrestError "User already registered")
  else
    create_user_root_folder newUser rootId now
      (mkSupabase (auth_users s ++ [newUser]) (session s) (fm_folders s)
                  (fm_files s) (bucket s)).

(** ** [supabaseApi] ([src/lib/supabase-api.ts]) *)

Definition getUser (s : Supabase) : option string := session s.

(** [createFolder(name, parentId?)].  [newId] is the uuid the table default
    generates and [now] the value of [NOW()]. *)
Definition createFolder (name : string) (parentId : option string)
  (newId : string) (now : N) (s : Supabase) : result (Folder.t * Supabase) :=
  match getUser s with
  | None => Err NotAuthenticated
  | Some user =>
      let path :=
        if truthy parentId then
          match single (filter (fun f => owns_folder s f &&
                                  match parentId with
                                  | Some p => Folder.id f =? p
                                  | None => false
                                  end) (fm_folders s)) with
          | Err e => Err e
          | Ok parentFolder =>
              Ok (Folder.path parentFolder +++ Folder.name parentFolder +++ "/")
          end
        else Ok "/" in
      match path with
      | Err e => Err e
      | Ok path =>
          let row := Folder.mk newId name (or_null parentId) user path now in
          match insert_folder s row with
          | Err e => Err e
          | Ok s' => Ok (row, s')
          end
      end
  end.

(** [deleteFolder(id)]: one DELETE; the backend reports no error when no
    row matches. *)
Definition deleteFolder (id : string) (s : Supabase) : result Supabase :=
  Ok (delete_folder_rows s id).

(** [uploadFile(file, folderId)].  [fileId] is the value of [uuidv4()] and
    [now] the value of [Date.now()] (and of the column defaults).  The
    object is stored before the row is inserted, so the backend is returned
    beside the result: an error of the insert leaves the object behind. *)
Definition uploadFile (file : Upload.t) (folderId : string)
  (fileId : string) (now : N) (s : Supabase) : result File.t * Supabase :=
  match getUser s with
  | None => (Err NotAuthenticated, s)
  | Some user =>
      let storagePath := user +++ "/" +++ fileId +++ "_" +++ Upload.name file in
      if negb (owns_object s storagePath) then
        (Err (StorageError "new row violates row-level security policy"), s)
      else if mem storagePath (map fst (bucket s)) then
        (Err (StorageError "The resource already exists"), s)
      else
        let s1 := set_bucket (bucket s ++ [(storagePath, Upload.bytes file)]) s in
        let checksum :=
          string_of_N (Upload.size file) +++ "_" +++ Upload.name file +++ "_"
            +++ string_of_N now in
        let row := File.mk fileId (Upload.name file) (Upload.size file) checksum
                     folderId user storagePath (Upload.type file) now now in
        match insert_file s1 row with
        | Err e => (Err e, s1)
        | Ok s2 => (Ok row, s2)
        end
  end.

(** The point lookup [from('fm_files').select('*').eq('id', id).single()]
    that [moveFile], [deleteFile] and [downloadFiles] start with. *)
Definition selectFileById (id : string) (s : Supabase) : result File.t :=
  single (filter (fun f => owns_file s f && (File.id f =? id)) (fm_files s)).

(** [deleteFile(id)]: the object is removed from storage first (a storage
    error is only logged), then the row is deleted. *)
Definition deleteFile (id : string) (s : Supabase) : result Supabase :=
  match selectFileById id s with
  | Err e => Err e
  | Ok file =>
      let keep (o : string * string) :=
        negb ((fst o =? File.storage_path file) && owns_object s (fst o)) in
      Ok (set_files
            (filter (fun f => negb (owns_file s f && (File.id f =? id))) (fm_files s))
            (set_bucket (filter keep (bucket s)) s))
  end.

(** One element of a breadcrumb trail. *)
Record Crumb : Type := mkCrumb {
  crumb_id : string;
  crumb_name : string;
  crumb_path : string
}.

Definition crumb_of (f : Folder.t) : Crumb :=
  mkCrumb (Folder.id f) (Folder.name f) (Folder.path f).

(** [.order('path')]: a stable sort on the byte order of the column. *)
Fixpoint insert_by_path (f : Folder.t) (l : list Folder.t) : list Folder.t :=
  match l with
  | [] => [f]
  | g :: l' =>
      if String.leb (Folder.path f) (Folder.path g) then f :: l
      else g :: insert_by_path f l'
  end.

Definition order_by_path (l : list Folder.t) : list Folder.t :=
  fold_right insert_by_path [] l.

(** [getFolderBreadcrumbs(folderId)]. *)
Definition getFolderBreadcrumbs (folderId : string) (s : Supabase)
  : result (list Crumb) :=
  match single (filter (fun f => owns_folder s f && (Folder.id f =? folderId))
                       (fm_folders s)) with
  | Err e => Err e
  | Ok folder =>
      let pathParts :=
        filter (fun part => negb (part =? "")) (split slash (Folder.path folder)) in
      let breadcrumbs :=
        match pathParts with
        | [] => []
        | _ =>
            let pathFolders :=
              order_by_path
                (filter (fun f => owns_folder s f && mem (Folder.name f) pathParts)
                        (fm_folders s)) in
            map crumb_of pathFolders
        end in
      Ok (breadcrumbs ++ [mkCrumb folderId (Folder.name folder) (Folder.path folder)])
  end.

(** [getFolderParents(folderId)]: the walk along [parent_id], nearest
    ancestor last.  The loop ends when a row is missing or has no parent;
    [fuel] bounds the number of rounds. *)
Fixpoint getFolderParents_loop (fuel : nat) (s : Supabase) (currentId : string)
  (parents : list string) : list string :=
  match fuel with
  | O => parents
  | S n =>
      match single (filter (fun f => owns_folder s f && (Folder.id f =? currentId))
                           (fm_folders s)) with
      | Err _ => parents
      | Ok folder =>
          match Folder.parent_id folder with
          | Some p =>
              if p =? "" then parents
              else getFolderParents_loop n s p (p :: parents)
          | None => parents
          end
      end
  end.

Definition getFolderParents (folderId : string) (s : Supabase) : list string :=
  if folderId =? "" then []
  else getFolderParents_loop (length (fm_folders s)) s folderId [].

(** The delete control of [FolderTree.tsx] is rendered only when
    [folder.name !== 'Root']. *)
Definition rendersDeleteButton (f : Folder.t) : bool :=
  negb (Folder.name f =? "Root").

(** *** Runs of the hierarchy store *)

Inductive Op : Type :=
| SignUp (user rootId : string) (now : N)
| SignIn (user : string)
| SignOut
| CreateFolder (name : string) (parentId : option string) (newId : string) (now : N)
| DeleteFolder (id : string)
| UploadFile (file : Upload.t) (folderId fileId : string) (now : N)
| DeleteFile (id : string).

(** An operation that throws leaves the backend as it was; an upload
    leaves what it had stored. *)
Definition run_op (s : Supabase) (o : Op) : Supabase :=
  match o with
  | SignUp user rootId now =>
      match insert_auth_user user rootId now s with
      | Ok s' => set_session (Some user) s'
      | Err _ => s
      end
  | SignIn user => if mem user (auth_users s) then set_session (Some user) s else s
  | SignOut => set_session None s
  | CreateFolder name parentId newId now =>
      match createFolder name parentId newId now s with
      | Ok (_, s') => s'
      | Err _ => s
      end
  | DeleteFolder id =>
      match deleteFolder id s with
      | Ok s' => s'
      | Err _ => s
      end
  | UploadFile file folderId fileId now =>
      snd (uploadFile file folderId fileId now s)
  | DeleteFile id =>
      match deleteFile id s with
      | Ok s' => s'
      | Err _ => s
      end
  end.

Definition run_ops (ops : list Op) (s : Supabase) : Supabase :=
  fold_left run_op ops s.

(** The path a folder has along its live parent chain: ["/"] at a folder
    without parent, otherwise the chain path of the parent row followed by
    the parent's name and ["/"]. *)
Fixpoint chain_path (fuel : nat) (rows : list Folder.t) (f : Folder.t)
  : option string :=
  match fuel with
  | O => None
  | S n =>
      match Folder.parent_id f with
      | None => Some "/"
      | Some p =>
          match find (fun g => Folder.id g =? p) rows with
          | None => None
          | Some g =>
              match chain_path n rows g with
              | Some s => Some (s +++ Folder.name g +++ "/")
              | None => None
              end
          end
      end
  end.

(** [a] is an ancestor of [f] in [rows]. *)
Inductive ancestor (rows : list Folder.t) : Folder.t -> Folder.t -> Prop :=
| anc_parent a f :
    In a rows -> Folder.parent_id f = Some (Folder.id a) -> ancestor rows a f
| anc_step a g f :
    ancestor rows a g -> In g rows -> Folder.parent_id f = Some (Folder.id g) ->
    ancestor rows a f.

(** ** The SQLite tables and [DatabaseOps] ([src/lib/database.ts]) *)

Inductive Status : Type := pending | processing | completed | failed.

Definition Status_eqb (a b : Status) : bool :=
  match a, b with
  | pending, pending | processing, processing
  | completed, completed | failed, failed => true
  | _, _ => false
  end.

Definition terminal (st : Status) : bool :=
  match st with
  | completed | failed => true
  | pending | processing => false
  end.

Module DbFile.
Record t : Type := mk {
  id : string;
  name : string;
  size : N;
  checksum : string;
  folder_id : string;
  user_id : string;
  path : string;
  mime_type : string;
  created_at : N;
  updated_at : N
}.
End DbFile.

Module ZipJob.
Record t : Type := mk {
  id : string;
  user_id : string;
  file_ids : string;
  status : Status;
  download_url : option string;
  created_at : N;
  completed_at : option N
}.
End ZipJob.

Record Database : Type := mkDatabase {
  files : list DbFile.t;
  zip_jobs : list ZipJob.t
}.

Module DatabaseOps.

(** [SELECT * FROM files WHERE id = ?]; [row as File || null]. *)
Definition getFileById (id : string) (db : Database) : option DbFile.t :=
  find (fun f => DbFile.id f =? id) (files db).

Definition getZipJobById (id : string) (db : Database) : option ZipJob.t :=
  find (fun j => ZipJob.id j =? id) (zip_jobs db).

(** [INSERT INTO zip_jobs (id, user_id, file_ids, status, download_url)];
    [created_at] takes its default and [completed_at] stays NULL. *)
Definition createZipJob (id user_id file_ids : string) (status : Status)
  (download_url : option string) (now : N) (db : Database)
  : result (ZipJob.t * Database) :=
  if existsb (fun j => ZipJob.id j =? id) (zip_jobs db) then
    Err (PostgrestError "UNIQUE constraint failed: zip_jobs.id")
  else
    let row := ZipJob.mk id user_id file_ids status download_url now None in
    Ok (row, mkDatabase (files db) (zip_jobs db ++ [row])).

(** [updateZipJobStatus(id, status, downloadUrl?)]: with a download url
    the statement also stores the url and [completed_at]; without one it
    is [UPDATE zip_jobs SET status = ? WHERE id = ?].  [now] is
    CURRENT_TIMESTAMP. *)
Definition updateZipJobStatus (id : string) (status : Status)
  (downloadUrl : option string) (now : N) (db : Database) : Database :=
  let update (j : ZipJob.t) :=
    if ZipJob.id j =? id then
      if truthy downloadUrl then
        ZipJob.mk (ZipJob.id j) (ZipJob.user_id j) (ZipJob.file_ids j)
                  status downloadUrl (ZipJob.created_at j) (Some now)
      else
        ZipJob.mk (ZipJob.id j) (ZipJob.user_id j) (ZipJob.file_ids j)
                  status (ZipJob.download_url j) (ZipJob.created_at j)
                  (ZipJob.completed_at j)
    else j in
  mkDatabase (files db) (map update (zip_jobs db)).

End DatabaseOps.

(** ** [processZipFiles] ([src/lib/zip.ts]) *)

(** What the promise returned by an asynchronous call settles to. *)
Inductive Settled : Type :=
| Resolved (value : string)
| Rejected.

(** The events a run of [processZipFiles] reacts to: ['close'] of the
    output stream, ['error'] of the archive, and an exception reaching the
    [catch] block. *)
Inductive ZipEvent : Type := OutputClose | ArchiveError | Thrown.

(** An archive entry: the file it is read from and its name in the
    archive, as in [archive.file(file.path, { name: file.name })]. *)
Record Entry : Type := mkEntry {
  entry_source : string;
  entry_name : string
}.

Record ZipRun : Type := mkZipRun {
  run_db : Database;
  run_promise : option Settled;
  run_zipPath : string;
  run_entries : list Entry
}.

(** One round of [for (const fileId of fileIds)]; [existsSync] is the
    state of the file system. *)
Definition add_file (db : Database) (existsSync : string -> bool)
  (userId : string) (archive : list Entry) (fileId : string) : list Entry :=
  match DatabaseOps.getFileById fileId db with
  | Some file =>
      if (DbFile.user_id file =? userId) && existsSync (DbFile.path file)
      then archive ++ [mkEntry (DbFile.path file) (DbFile.name file)]
      else archive
  | None => archive
  end.

(** [resolve] and [reject] of a promise that may already be settled. *)
Definition settle_with (o : Settled) (p : option Settled) : option Settled :=
  match p with
  | Some _ => p
  | None => Some o
  end.

(** The three handlers.  Each event carries the clock reading of its
    database update. *)
Definition on_event (jobId : string) (r : ZipRun) (ev : ZipEvent * N) : ZipRun :=
  match fst ev with
  | OutputClose =>
      let downloadUrl := "/api/zip/" +++ jobId in
      mkZipRun
        (DatabaseOps.updateZipJobStatus jobId completed (Some downloadUrl)
                                        (snd ev) (run_db r))
        (settle_with (Resolved downloadUrl) (run_promise r))
        (run_zipPath r) (run_entries r)
  | ArchiveError | Thrown =>
      mkZipRun
        (DatabaseOps.updateZipJobStatus jobId failed None (snd ev) (run_db r))
        (settle_with Rejected (run_promise r))
        (run_zipPath r) (run_entries r)
  end.

(** [processZipFiles(fileIds, userId, jobId)] under the events the
    archiver and the output stream deliver. *)
Definition processZipFiles (fileIds : list string) (userId jobId : string)
  (existsSync : string -> bool) (events : list (ZipEvent * N)) (db : Database)
  : ZipRun :=
  let zipPath := "zips/" +++ jobId +++ ".zip" in
  let archive := fold_left (add_file db existsSync userId) fileIds [] in
  fold_left (on_event jobId) events (mkZipRun db None zipPath archive).

(** The status of a job row, if the row exists. *)
Definition zip_status (jobId : string) (db : Database) : option Status :=
  option_map ZipJob.status (DatabaseOps.getZipJobById jobId db).

(** ** [InMemoryQueue] ([src/lib/queue.ts]) *)

Inductive JobType : Type := zip.

Record JobData : Type := mkJobData {
  fileIds : list string;
  userId : string
}.

Module QueueJob.
Record t : Type := mk {
  id : string;
  type : JobType;
  data : JobData;
  status : Status;
  createdAt : N;
  processedAt : option N
}.
End QueueJob.

(** A [Map<string, QueueJob>]: keys in insertion order; [set] on an
    existing key keeps its position. *)
Definition JobMap : Type := list (string * QueueJob.t).

Fixpoint map_get (id : string) (m : JobMap) : option QueueJob.t :=
  match m with
  | [] => None
  | (k, v) :: m' => if k =? id then Some v else map_get id m'
  end.

Fixpoint map_set (id : string) (job : QueueJob.t) (m : JobMap) : JobMap :=
  match m with
  | [] => [(id, job)]
  | (k, v) :: m' => if k =? id then (k, job) :: m' else (k, v) :: map_set id job m'
  end.

Definition map_values (m : JobMap) : list QueueJob.t := map snd m.

(** The queue object.  [loops] holds the activations of [processQueue]
    that are suspended at [await this.processJob(pendingJob)], each with
    the job it waits for. *)
Record InMemoryQueue : Type := mkQueue {
  jobs : JobMap;
  processing_flag : bool;
  loops : list QueueJob.t
}.

Definition new_InMemoryQueue : InMemoryQueue := mkQueue [] false [].

Definition getJob (id : string) (q : InMemoryQueue) : option QueueJob.t :=
  map_get id (jobs q).

(** The two assignments of [updateJobStatus] to the job object. *)
Definition with_status (status : Status) (processedAt : option N)
  (job : QueueJob.t) : QueueJob.t :=
  QueueJob.mk (QueueJob.id job) (QueueJob.type job) (QueueJob.data job)
    status (QueueJob.createdAt job)
    (match processedAt with
     | Some d => Some d
     | None => QueueJob.processedAt job
     end).

Definition updateJobStatus (id : string) (status : Status)
  (processedAt : option N) (q : InMemoryQueue) : InMemoryQueue :=
  match map_get id (jobs q) with
  | Some job =>
      mkQueue (map_set id (with_status status processedAt job) (jobs q))
              (processing_flag q) (loops q)
  | None => q
  end.

Definition is_pending (job : QueueJob.t) : bool :=
  Status_eqb (QueueJob.status job) pending.

(** One round of [while (true)] in [processQueue], run by an activation up
    to its next suspension ([before] and [after] are the other suspended
    activations): without a pending job the loop is left and the flag
    reset; otherwise [processJob] marks the job and waits for
    [processZipJob].  The activation keeps the job object it found, which
    is the object the map holds and so carries the new status; it reads
    only [id], [type] and [data] through it. *)
Definition loop_round (before after : list QueueJob.t) (q : InMemoryQueue)
  : InMemoryQueue :=
  match find is_pending (map_values (jobs q)) with
  | None => mkQueue (jobs q) false (before ++ after)
  | Some pendingJob =>
      let q1 := updateJobStatus (QueueJob.id pendingJob) processing None q in
      mkQueue (jobs q1) (processing_flag q1)
              (before ++ with_status processing None pendingJob :: after)
  end.

Definition processQueue (q : InMemoryQueue) : InMemoryQueue :=
  if processing_flag q then q
  else loop_round (loops q) [] (mkQueue (jobs q) true (loops q)).

Definition addJob (id : string) (type : JobType) (data : JobData) (now : N)
  (q : InMemoryQueue) : InMemoryQueue :=
  let job := QueueJob.mk id type data pending now None in
  processQueue (mkQueue (map_set id job (jobs q)) (processing_flag q) (loops q)).

(** The activation at position [i] resumes when the promise of
    [processZipJob] settles: [processJob] records the outcome and the loop
    goes into its next round. *)
Definition outcome_status (outcome : Settled) : Status :=
  match outcome with
  | Resolved _ => completed      (* after the [await] in the [try] block *)
  | Rejected => failed           (* in the [catch] block *)
  end.

Definition resume (i : nat) (outcome : Settled) (now : N) (q : InMemoryQueue)
  : InMemoryQueue :=
  match nth_error (loops q) i with
  | None => q
  | Some job =>
      loop_round (firstn i (loops q)) (skipn (S i) (loops q))
                 (updateJobStatus (QueueJob.id job) (outcome_status outcome)
                                  (Some now) q)
  end.

(** The steps of the queue: a submission under an id not in use (ids are
    random uuids), and the settling of an awaited job body. *)
Inductive step : InMemoryQueue -> InMemoryQueue -> Prop :=
| step_submit id data now q :
    map_get id (jobs q) = None ->
    step q (addJob id zip data now q)
| step_resume i outcome now q :
    i < length (loops q) ->
    step q (resume i outcome now q).

Inductive reachable : InMemoryQueue -> Prop :=
| reach_new : reachable new_InMemoryQueue
| reach_step q q' : reachable q -> step q q' -> reachable q'.

Definition status_of (id : string) (q : InMemoryQueue) : option Status :=
  option_map QueueJob.status (getJob id q).

Definition statuses (q : InMemoryQueue) : list Status :=
  map QueueJob.status (map_values (jobs q)).

Definition count_status (st : Status) (q : InMemoryQueue) : nat :=
  length (filter (Status_eqb st) (statuses q)).

(** The drain loop run to the end: the awaited job bodies settle one
    after the other with the given outcomes. *)
Fixpoint drain (outcomes : list (Settled * N)) (q : InMemoryQueue) : InMemoryQueue :=
  match outcomes with
  | [] => q
  | (o, now) :: rest => drain rest (resume 0 o now q)
  end.

(** ** The engine: queue and database together *)

(** [processZipJob(job)] for the activation at position [i]: the body runs
    on the database under the given file system and events, and the queue
    resumes with what the promise settled to.  A body whose promise never
    settles leaves the activation suspended. *)
Definition run_job_body (i : nat) (existsSync : string -> bool)
  (events : list (ZipEvent * N)) (now : N) (e : InMemoryQueue * Database)
  : InMemoryQueue * Database :=
  match nth_error (loops (fst e)) i with
  | None => e
  | Some job =>
      let r := processZipFiles (fileIds (QueueJob.data job))
                 (userId (QueueJob.data job)) (QueueJob.id job)
                 existsSync events (snd e) in
      match run_promise r with
      | Some outcome => (resume i outcome now (fst e), run_db r)
      | None => (fst e, run_db r)
      end
  end.

(** * Properties *)

(** ** The invariant of the folder table *)

(** The row [f] agrees with its parent row, found among the rows [before]
    it: a row without parent has path ["/"], any other row has the path
    and name of its parent followed by ["/"]. *)
Definition parent_ok (before : list Folder.t) (f : Folder.t) : Prop :=
  match Folder.parent_id f with
  | None => Folder.path f = "/"
  | Some p =>
      exists g, In g before /\ Folder.id g = p /\
                Folder.path f = Folder.path g +++ Folder.name g +++ "/"
  end.

(** Keys are unique and every row agrees with a parent row inserted before
    it. *)
Definition tree_ok (rows : list Folder.t) : Prop :=
  NoDup (folder_ids rows) /\
  forall l1 f l2, rows = l1 ++ f :: l2 -> parent_ok l1 f.

(** Every file row lies in a folder of the table. *)
Definition files_ok (s : Supabase) : Prop :=
  forall x, In x (fm_files s) -> In (File.folder_id x) (folder_ids (fm_folders s)).

(** ** Concrete runs

    A user with a root, "Docs" under the root and "Reports" under
    "Docs". *)
Definition scenario_ops : list Op :=
  [ SignUp "u1" "root" 1;
    CreateFolder "Docs" (Some "root") "docs" 2;
    CreateFolder "Reports" (Some "docs") "reports" 3 ].

Definition reports_row : Folder.t :=
  Folder.mk "reports" "Reports" (Some "docs") "u1" "/Root/Docs/" 3.

Definition scenario_backend : Supabase := run_ops scenario_ops empty_backend.

Definition root_row : Folder.t := Folder.mk "root" "Root" None "u1" "/" 1.

(** The same user with two folders named "A": one under the root, holding
    "C", and one under "B". *)
Definition collision_ops : list Op :=
  [ SignUp "u1" "r" 1;
    CreateFolder "A" (Some "r") "a" 2;
    CreateFolder "B" (Some "r") "b" 3;
    CreateFolder "A" (Some "b") "a2" 4;
    CreateFolder "C" (Some "a") "c" 5 ].

Definition collision_backend : Supabase := run_ops collision_ops empty_backend.

Definition row_r : Folder.t := Folder.mk "r" "Root" None "u1" "/" 1.
Definition row_a : Folder.t := Folder.mk "a" "A" (Some "r") "u1" "/Root/" 2.
Definition row_b : Folder.t := Folder.mk "b" "B" (Some "r") "u1" "/Root/" 3.
Definition row_a2 : Folder.t := Folder.mk "a2" "A" (Some "b") "u1" "/Root/B/" 4.
Definition row_c : Folder.t := Folder.mk "c" "C" (Some "a") "u1" "/Root/A/" 5.

(** A file of four bytes, and the scenario with that file uploaded into
    "Reports". *)
Definition a_pdf : Upload.t := Upload.mk "a.pdf" "application/pdf" "%PDF".

Definition upload_ops : list Op :=
  scenario_ops ++ [UploadFile a_pdf "reports" "f1" 1000].

Definition upload_backend : Supabase := run_ops upload_ops empty_backend.

(** ** Statements that the code is compared with *)

(** A root: a folder without parent whose path is ["/"]. *)
Definition is_root (f : Folder.t) : bool :=
  match Folder.parent_id f with
  | None => Folder.path f =? "/"
  | Some _ => false
  end.

(** "Deleting a user's root folder is rejected with an error." *)
Definition root_delete_rejected : Prop :=
  forall ops r,
    In r (fm_folders (run_ops ops empty_backend)) ->
    is_root r = true ->
    owns_folder (run_ops ops empty_backend) r = true ->
    exists e, deleteFolder (Folder.id r) (run_ops ops empty_backend) = Err e.

(** ** The invariant of the queue *)

(** Every key of the map is the id of the job stored under it, and no key
    occurs twice. *)
Definition keys_ok (m : JobMap) : Prop :=
  NoDup (map fst m) /\ Forall (fun kv => QueueJob.id (snd kv) = fst kv) m.

Definition all_status (p : Status -> bool) (m : JobMap) : Prop :=
  Forall (fun kv => p (QueueJob.status (snd kv)) = true) m.

(** The two shapes of a queue: idle, with finished jobs only, no
    activation and the flag down; or busy, with the finished jobs first,
    then the one job in work, awaited by the one activation, then the
    pending jobs. *)
Inductive shape : InMemoryQueue -> Prop :=
| shape_idle done :
    keys_ok done -> all_status terminal done ->
    shape (mkQueue done false [])
| shape_busy done j pend :
    keys_ok (done ++ (QueueJob.id j, j) :: pend) ->
    all_status terminal done ->
    QueueJob.status j = processing ->
    all_status (Status_eqb pending) pend ->
    shape (mkQueue (done ++ (QueueJob.id j, j) :: pend) true [j]).

(** Jobs not yet finished. *)
Definition active (q : InMemoryQueue) : nat :=
  count_status pending q + count_status processing q.

(** The transitions of the status machine. *)
Definition Status_next (a b : Status) : bool :=
  match a, b with
  | pending, processing | processing, completed | processing, failed => true
  | _, _ => false
  end.

Inductive steps : InMemoryQueue -> InMemoryQueue -> Prop :=
| steps_refl q : steps q q
| steps_step q q' q'' : step q q' -> steps q' q'' -> steps q q''.

(** The order of the status machine: [pending] before [processing] before
    the two final statuses. *)
Definition Status_le (a b : Status) : bool :=
  Status_eqb a b ||
  match a, b with
  | pending, _ => true
  | processing, (completed | failed) => true
  | _, _ => false
  end.

(** ** Archive jobs: statements and a concrete database *)

(** The requested files that pass the three checks of the loop, in the
    order of the request: the row exists, it belongs to the job's owner,
    and its file is on disk. *)
Definition included (db : Database) (existsSync : string -> bool)
  (userId : string) (fileIds : list string) : list DbFile.t :=
  flat_map
    (fun fileId =>
       match DatabaseOps.getFileById fileId db with
       | Some file =>
           if (DbFile.user_id file =? userId) && existsSync (DbFile.path file)
           then [file] else []
       | None => []
       end)
    fileIds.

Definition entry_of (file : DbFile.t) : Entry :=
  mkEntry (DbFile.path file) (DbFile.name file).

(** "Once a job's status is completed or failed, no later update changes
    it", for the updates of [processZipFiles] to the job's row. *)
Definition zip_status_final : Prop :=
  forall fileIds userId jobId existsSync events1 events2 db st,
    zip_status jobId
      (run_db (processZipFiles fileIds userId jobId existsSync events1 db))
      = Some st ->
    terminal st = true ->
    zip_status jobId
      (run_db (processZipFiles fileIds userId jobId existsSync
                               (events1 ++ events2) db))
      = Some st.

(** "A job that meets an error ends with status failed, with completed_at
    set, and with no download handle." *)
Definition failed_job_has_completed_at : Prop :=
  forall fileIds userId jobId existsSync ev now db j,
    ev = ArchiveError \/ ev = Thrown ->
    DatabaseOps.getZipJobById jobId db = Some j ->
    ZipJob.download_url j = None ->
    exists j',
      DatabaseOps.getZipJobById jobId
        (run_db (processZipFiles fileIds userId jobId existsSync [(ev, now)] db))
        = Some j' /\
      ZipJob.status j' = failed /\
      ZipJob.completed_at j' <> None /\
      ZipJob.download_url j' = None.

(** Three files, the second of another user, and a job of user "u1" that
    asks for all three. *)
Definition file_a : DbFile.t :=
  DbFile.mk "a" "a.pdf" 10 "ca" "docs" "u1" "uploads/a.pdf" "application/pdf" 1 1.
Definition file_b : DbFile.t :=
  DbFile.mk "b" "b.pdf" 20 "cb" "other" "u2" "uploads/b.pdf" "application/pdf" 2 2.
Definition file_c : DbFile.t :=
  DbFile.mk "c" "c.pdf" 30 "cc" "docs" "u1" "uploads/c.pdf" "application/pdf" 3 3.

Definition job1 : ZipJob.t :=
  ZipJob.mk "job1" "u1" "[a,b,c]" pending None 4 None.

Definition zip_db : Database := mkDatabase [file_a; file_b; file_c] [job1].

Definition all_on_disk (path : string) : bool := true.

(** The queue with the job of [zip_db] submitted, beside the database. *)
Definition engine1 : InMemoryQueue * Database :=
  (addJob "job1" zip (mkJobData ["a"; "b"; "c"] "u1") 5 new_InMemoryQueue, zip_db).

(** A queue with two jobs submitted one after the other. *)
Definition two_jobs : InMemoryQueue :=
  addJob "j2" zip (mkJobData ["c"] "u1") 2
    (addJob "j1" zip (mkJobData ["a"; "b"] "u1") 1 new_InMemoryQueue).

(** * Further operations of the code *)

(** ** Listings of [supabaseApi] *)

(** [.order(column)]: a stable sort, by insertion, on the order [le] of the
    column. *)
Fixpoint insert_sorted {A : Type} (le : A -> A -> bool) (x : A) (l : list A)
  : list A :=
  match l with
  | [] => [x]
  | y :: l' => if le x y then x :: l else y :: insert_sorted le x l'
  end.

Definition order_by {A : Type} (le : A -> A -> bool) (l : list A) : list A :=
  fold_right (insert_sorted le) [] l.

(** [.range(offset, offset + limit - 1)]: an offset and a limit. *)
Definition range {A : Type} (offset limit : nat) (rows : list A) : list A :=
  firstn limit (skipn offset rows).

Definition folder_name_le (a b : Folder.t) : bool :=
  String.leb (Folder.name a) (Folder.name b).

Definition file_name_le (a b : File.t) : bool :=
  String.leb (File.name a) (File.name b).

(** [created_at], newest first. *)
Definition file_newer (a b : File.t) : bool :=
  N.leb (File.created_at b) (File.created_at a).

(** The filter of [getFolders]: [.eq('parent_id', parentId)] for a truthy
    [parentId], [.is('parent_id', null)] otherwise. *)
Definition child_of (parentId : option string) (f : Folder.t) : bool :=
  if truthy parentId then
    match Folder.parent_id f, parentId with
    | Some p, Some q => p =? q
    | _, _ => false
    end
  else
    match Folder.parent_id f with
    | None => true
    | Some _ => false
    end.

(** [getFolders(parentId?, limit, offset)]. *)
Definition getFolders (parentId : option string) (limit offset : nat)
  (s : Supabase) : list Folder.t :=
  range offset limit
    (order_by folder_name_le
       (filter (fun f => owns_folder s f && child_of parentId f) (fm_folders s))).

(** The filter of [getFiles]: [.eq('folder_id', folderId)] for a truthy
    [folderId], no filter otherwise. *)
Definition in_folder (folderId : option string) (f : File.t) : bool :=
  if truthy folderId then
    match folderId with
    | Some q => File.folder_id f =? q
    | None => false
    end
  else true.

(** [getFiles(folderId?, limit, offset)]. *)
Definition getFiles (folderId : option string) (limit offset : nat)
  (s : Supabase) : list File.t :=
  range offset limit
    (order_by file_name_le
       (filter (fun f => owns_file s f && in_folder folderId f) (fm_files s))).

(** [getRecentFiles(limit)]. *)
Definition getRecentFiles (limit : nat) (s : Supabase) : list File.t :=
  firstn limit (order_by file_newer (filter (owns_file s) (fm_files s))).

(** ** Moving files and batches ([supabase-api.ts], [FileManager.tsx]) *)

(** The trigger [update_fm_files_updated_at]: before an UPDATE of a file
    row, [updated_at] becomes [NOW()]. *)
Definition update_updated_at_column (now : N) (row : File.t) : File.t :=
  File.mk (File.id row) (File.name row) (File.size row) (File.checksum row)
          (File.folder_id row) (File.user_id row) (File.storage_path row)
          (File.mime_type row) (File.created_at row) now.

(** [.upsert(row)] on [fm_files]: an INSERT that, on a conflict of the
    primary key, updates the row in place.  The insert policy checks the
    new row, the update policy the row in place, the foreign key the
    folder. *)
Definition upsert_file (s : Supabase) (row : File.t) (now : N) : result Supabase :=
  if negb (owns_file s row) then
    Err (PostgrestError "new row violates row-level security policy")
  else if negb (mem (File.folder_id row) (folder_ids (fm_folders s))) then
    Err (PostgrestError "violates foreign key constraint")
  else if mem (File.id row) (file_ids (fm_files s)) then
    if existsb (fun f => (File.id f =? File.id row) && negb (owns_file s f))
               (fm_files s) then
      Err (PostgrestError "new row violates row-level security policy")
    else
      Ok (set_files
            (map (fun f => if File.id f =? File.id row
                           then update_updated_at_column now row else f)
                 (fm_files s)) s)
  else Ok (set_files (fm_files s ++ [row]) s).

(** [moveFile(fileId, newFolderId)].  [clientNow] is the value of
    [new Date().toISOString()], [now] the value of [NOW()] in the
    trigger. *)
Definition moveFile (fileId newFolderId : string) (clientNow now : N)
  (s : Supabase) : result (File.t * Supabase) :=
  match selectFileById fileId s with
  | Err e => Err e
  | Ok currentFile =>
      let row :=
        File.mk (File.id currentFile) (File.name currentFile)
                (File.size currentFile) (File.checksum currentFile)
                newFolderId (File.user_id currentFile)
                (File.storage_path currentFile) (File.mime_type currentFile)
                (File.created_at currentFile) clientNow in
      match upsert_file s row now with
      | Err e => Err e
      | Ok s' =>
          match selectFileById fileId s' with
          | Err e => Err e
          | Ok data => Ok (data, s')
          end
      end
  end.

(** The mutation function of [deleteFilesMutation]: [deleteFile] for each
    selected id in turn; the first error ends the loop and what was deleted
    stays deleted. *)
Fixpoint deleteFiles (fileIds : list string) (s : Supabase)
  : result unit * Supabase :=
  match fileIds with
  | [] => (Ok tt, s)
  | fileId :: rest =>
      match deleteFile fileId s with
      | Err e => (Err e, s)
      | Ok s' => deleteFiles rest s'
      end
  end.

(** The mutation function of [moveFilesMutation]: [moveFile] for each
    selected id in turn, collecting the rows; the first error is thrown
    again.  Each move reads the two clocks. *)
Fixpoint moveFiles (fileIds : list string) (targetFolderId : string)
  (clock : list (N * N)) (results : list File.t) (s : Supabase)
  : result (list File.t) * Supabase :=
  match fileIds with
  | [] => (Ok results, s)
  | fileId :: rest =>
      let '(clientNow, now) := hd (0%N, 0%N) clock in
      match moveFile fileId targetFolderId clientNow now s with
      | Err e => (Err e, s)
      | Ok (result, s') =>
          moveFiles rest targetFolderId (tl clock) (results ++ [result]) s'
      end
  end.

(** Runs that include the moves and the batches. *)
Inductive Action : Type :=
| Basic (o : Op)
| MoveFile (fileId newFolderId : string) (clientNow now : N)
| DeleteFiles (fileIds : list string)
| MoveFiles (fileIds : list string) (targetFolderId : string) (clock : list (N * N)).

Definition run_action (s : Supabase) (a : Action) : Supabase :=
  match a with
  | Basic o => run_op s o
  | MoveFile fileId newFolderId clientNow now =>
      match moveFile fileId newFolderId clientNow now s with
      | Ok (_, s') => s'
      | Err _ => s
      end
  | DeleteFiles fileIds => snd (deleteFiles fileIds s)
  | MoveFiles fileIds targetFolderId clock =>
      snd (moveFiles fileIds targetFolderId clock [] s)
  end.

Definition run_actions (actions : list Action) (s : Supabase) : Supabase :=
  fold_left run_action actions s.

(** What every run keeps, beside [tree_ok]: file keys are unique; a file
    row lies in a folder of the table; its object is in the bucket, under
    a name that starts with the row's owner and that no other row has;
    object names are unique; a folder and its parent have one owner. *)
Record backend_ok (s : Supabase) : Prop := mk_backend_ok {
  ok_tree : tree_ok (fm_folders s);
  ok_files : files_ok s;
  ok_file_ids : NoDup (file_ids (fm_files s));
  ok_objects : forall x, In x (fm_files s) ->
                 In (File.storage_path x) (map fst (bucket s));
  ok_object_owner : forall x, In x (fm_files s) ->
                 storage_foldername1 (File.storage_path x) = File.user_id x;
  ok_paths : NoDup (map File.storage_path (fm_files s));
  ok_bucket : NoDup (map fst (bucket s));
  ok_owner : forall f g, In f (fm_folders s) -> In g (fm_folders s) ->
               Folder.parent_id f = Some (Folder.id g) ->
               Folder.user_id f = Folder.user_id g
}.

(** A file row after a move: the new folder and the trigger's clock, all
    else as it was. *)
Definition moved (newFolderId : string) (now : N) (old : File.t) : File.t :=
  File.mk (File.id old) (File.name old) (File.size old) (File.checksum old)
          newFolderId (File.user_id old) (File.storage_path old)
          (File.mime_type old) (File.created_at old) now.

(** The row of "a.pdf" in [upload_backend], and the backend after the file
    is moved into "Docs". *)
Definition f1_row : File.t :=
  File.mk "f1" "a.pdf" 4 "4_a.pdf_1000" "reports" "u1" "u1/f1_a.pdf"
          "application/pdf" 1000 1000.

Definition moved_backend : Supabase :=
  run_action upload_backend (MoveFile "f1" "docs" 1999 2000).

(** ** Ancestors *)

(** The rows above [f] along [parent_id], the root first. *)
Fixpoint chain_above (fuel : nat) (rows : list Folder.t) (f : Folder.t)
  : list Folder.t :=
  match fuel with
  | O => []
  | S n =>
      match Folder.parent_id f with
      | None => []
      | Some p =>
          match find (fun g => Folder.id g =? p) rows with
          | None => []
          | Some g => chain_above n rows g ++ [g]
          end
      end
  end.

(** The path that a list of folder names spells: each name followed by
    ["/"], after the leading ["/"]. *)
Definition path_of_names (names : list string) : string :=
  fold_left (fun acc n => acc +++ n +++ "/") names "/".

(** The name stored under a folder key. *)
Definition folder_name_of (rows : list Folder.t) (id : string) : string :=
  match find (fun g => Folder.id g =? id) rows with
  | Some g => Folder.name g
  | None => EmptyString
  end.

(** Two users; the second is signed in and the first has a folder
    "Docs". *)
Definition two_user_ops : list Op :=
  [ SignUp "u1" "r1" 1;
    CreateFolder "Docs" (Some "r1") "d1" 2;
    SignUp "u2" "r2" 3 ].

Definition two_user_backend : Supabase := run_ops two_user_ops empty_backend.

(** A name without the separator of paths. *)
Fixpoint no_slash (s : string) : bool :=
  match s with
  | EmptyString => true
  | String c rest => negb (Ascii.eqb c slash) && no_slash rest
  end.

(** Folder names that can be read back from a path: not empty, and
    without ["/"]. *)
Definition plain_names (rows : list Folder.t) : Prop :=
  forall g, In g rows -> Folder.name g <> EmptyString /\ no_slash (Folder.name g) = true.

(** ** Tokens ([src/lib/auth.ts], [src/lib/middleware.ts], [src/lib/api.ts]) *)

Record AuthTokenPayload : Type := mkPayload {
  payload_userId : string;
  payload_email : string
}.

(** [extractTokenFromRequest(authHeader)]: [null] for a missing or empty
    header and for one that does not start with ['Bearer '], otherwise
    [authHeader.substring(7)]. *)
Definition extractTokenFromRequest (authHeader : option string) : option string :=
  match authHeader with
  | None => None
  | Some h =>
      if negb (truthy authHeader) || negb (String.prefix "Bearer " h) then None
      else Some (String.substring 7 (String.length h - 7) h)
  end.

Inductive AuthError : Type :=
| NoTokenProvided        (* new Error('No token provided') *)
| InvalidToken.          (* new Error('Invalid token') *)

(** [authenticateRequest(request)], on the value of the request's
    [authorization] header.  [verifyToken] is [jwt.verify] under the
    server's secret: the payload of a token it accepts, nothing for a token
    it throws on. *)
Definition authenticateRequest (verifyToken : string -> option AuthTokenPayload)
  (authorization : option string) : AuthTokenPayload + AuthError :=
  let token := extractTokenFromRequest authorization in
  if negb (truthy token) then inr NoTokenProvided
  else
    match token with
    | Some t =>
        match verifyToken t with
        | Some payload => inl payload
        | None => inr InvalidToken
        end
    | None => inr NoTokenProvided
    end.

(** The token store of [ApiClient]: the field [token], whether the code
    runs in a browser ([typeof window !== 'undefined']), and the item
    ['auth_token'] of [localStorage]. *)
Module ApiClient.
Record t : Type := mk {
  token : option string;
  window : bool;
  localStorage : option string
}.

Definition setToken (tok : string) (c : t) : t :=
  mk (Some tok) (window c) (if window c then Some tok else localStorage c).

(** [getToken()]: the value returned and the client afterwards. *)
Definition getToken (c : t) : option string * t :=
  if truthy (token c) then (token c, c)
  else if window c then
    (localStorage c, mk (localStorage c) (window c) (localStorage c))
  else (token c, c).

Definition clearToken (c : t) : t :=
  mk None (window c) (if window c then None else localStorage c).

(** The [Authorization] header that [request] and [uploadRequest] send. *)
Definition authorization (c : t) : option string * t :=
  let '(tok, c') := getToken c in
  (match tok with
   | Some v => if truthy tok then Some ("Bearer " +++ v) else None
   | None => None
   end, c').

(** A page load: [new ApiClient()] over the storage the browser kept. *)
Definition reload (c : t) : t := mk None (window c) (localStorage c).
End ApiClient.

(** The calls a program makes on the client between two requests. *)
Inductive TokenCall : Type :=
| CallSet (tok : string)
| CallClear
| CallGet
| CallReload.

Definition run_call (c : ApiClient.t) (call : TokenCall) : ApiClient.t :=
  match call with
  | CallSet tok => ApiClient.setToken tok c
  | CallClear => ApiClient.clearToken c
  | CallGet => snd (ApiClient.getToken c)
  | CallReload => ApiClient.reload c
  end.

(** The token last set and not cleared since, if any. *)
Fixpoint last_token (calls : list TokenCall) (start : option string)
  : option string :=
  match calls with
  | [] => start
  | CallSet tok :: rest => last_token rest (Some tok)
  | CallClear :: rest => last_token rest None
  | (CallGet | CallReload) :: rest => last_token rest start
  end.

(** ** The job records of the queue *)

(** The jobs not yet finished, in the order of the map. *)
Definition unfinished (q : InMemoryQueue) : list QueueJob.t :=
  filter (fun job => negb (terminal (QueueJob.status job))) (map_values (jobs q)).

(** [processedAt] is set on the finished jobs and on no other. *)
Definition stamp_ok (job : QueueJob.t) : Prop :=
  terminal (QueueJob.status job) = true <-> QueueJob.processedAt job <> None.

(** What a step of the queue does to a job record: nothing, or the move
    of a pending job into work, or the end of the job in work. *)
Inductive job_step : QueueJob.t -> QueueJob.t -> Prop :=
| job_same job : job_step job job
| job_taken job :
    QueueJob.status job = pending ->
    job_step job (with_status processing None job)
| job_settled job outcome now :
    QueueJob.status job = processing ->
    job_step job (with_status (outcome_status outcome) (Some now) job).

(** ** Downloads ([supabaseApi.downloadFiles]) *)

(** [storage.from('files').download(path)], under the policy "Users can
    view their own files". *)
Definition storage_download (path : string) (s : Supabase) : option string :=
  if owns_object s path then
    option_map snd (find (fun o => fst o =? path) (bucket s))
  else None.

(** One round of [for (const fileId of fileIds)]: [zip] holds the calls
    [zip.file(file.name, fileData)] made so far; the two [continue]s pass
    over an id whose row is not found and a file whose object does not
    download. *)
Definition download_round (s : Supabase) (zip : list (string * string))
  (fileId : string) : list (string * string) :=
  match selectFileById fileId s with
  | Err _ => zip
  | Ok file =>
      match storage_download (File.storage_path file) s with
      | None => zip
      | Some fileData => zip ++ [(File.name file, fileData)]
      end
  end.

(** [downloadFiles(fileIds)]: the entries handed to the archive, in the
    order of the calls. *)
Definition downloadFiles (fileIds : list string) (s : Supabase)
  : list (string * string) :=
  fold_left (download_round s) fileIds [].

(** The lookup by id finds a row. *)
Definition found (s : Supabase) (fileId : string) : bool :=
  match selectFileById fileId s with
  | Ok _ => true
  | Err _ => false
  end.

(** ** The selection of the file list ([FileList]) *)

(** [handleSelectFile(fileId)]: the value handed to [onSelectionChange]. *)
Definition handleSelectFile (fileId : string) (selectedFiles : list string)
  : list string :=
  if mem fileId selectedFiles then
    filter (fun id => negb (id =? fileId)) selectedFiles
  else selectedFiles ++ [fileId].

(** [handleSelectAll()], for the [files] the list shows. *)
Definition handleSelectAll (files : list File.t) (selectedFiles : list string)
  : list string :=
  if Nat.eqb (length selectedFiles) (length files) then []
  else map File.id files.

(** The clicks on the list: the box of one file, the box of the header. *)
Inductive SelectEvent : Type :=
| ClickFile (fileId : string)
| ClickAll.

Definition on_click (files : list File.t) (selectedFiles : list string)
  (ev : SelectEvent) : list string :=
  match ev with
  | ClickFile fileId => handleSelectFile fileId selectedFiles
  | ClickAll => handleSelectAll files selectedFiles
  end.

(** * General lemmas *)

Lemma mem_In (x : string) (l : list string) : mem x l = true <-> In x l.
Proof.
  unfold mem. rewrite existsb_exists. split.
  - intros [y [Hy E]]. apply String.eqb_eq in E. now subst.
  - intros H. exists x. split; [assumption | apply String.eqb_refl].
Qed.

Lemma mem_false (x : string) (l : list string) : mem x l = false <-> ~ In x l.
Proof.
  rewrite <- mem_In. destruct (mem x l); split; congruence.
Qed.

Lemma single_Ok {A : Type} (rows : list A) (r : A) :
  single rows = Ok r -> rows = [r].
Proof.
  destruct rows as [|a [|b rows]]; simpl; intros H; try discriminate.
  now inversion H.
Qed.

Lemma single_filter_Ok {A : Type} (p : A -> bool) (rows : list A) (r : A) :
  single (filter p rows) = Ok r -> In r rows /\ p r = true.
Proof.
  intros H. apply single_Ok in H.
  apply filter_In. rewrite H. now left.
Qed.

(** Two selections in a row are one selection. *)
Lemma filter_both (A : Type) (rows : list A) (keep1 keep2 : A -> bool) :
  filter keep2 (filter keep1 rows) = filter (fun r => andb (keep1 r) (keep2 r)) rows.
Proof.
  induction rows as [|r rows IH]; simpl; [reflexivity|].
  destruct (keep1 r); simpl; [destruct (keep2 r)|]; now rewrite IH.
Qed.

Lemma filter_split {A : Type} (p : A -> bool) (l : list A) :
  length (filter p l) + length (filter (fun x => negb (p x)) l) = length l.
Proof.
  induction l as [|a l IH]; simpl; [reflexivity|].
  destruct (p a); simpl; lia.
Qed.

(** A position in a filtered list comes from a position in the list. *)
Lemma filter_decompose {A : Type} (p : A -> bool) (l l1' l2' : list A) (x : A) :
  filter p l = l1' ++ x :: l2' ->
  exists l1 l2, l = l1 ++ x :: l2 /\ filter p l1 = l1' /\ filter p l2 = l2'.
Proof.
  revert l1'. induction l as [|a l IH]; intros l1' H; simpl in H.
  - destruct l1'; discriminate.
  - destruct (p a) eqn:Hp.
    + destruct l1' as [|b l1']; simpl in H; inversion H; subst.
      * exists [], l. simpl. auto.
      * destruct (IH _ H2) as (l1 & l2 & -> & <- & <-).
        exists (b :: l1), l2. simpl. now rewrite Hp.
    + destruct (IH _ H) as (l1 & l2 & -> & <- & <-).
      exists (a :: l1), l2. simpl. now rewrite Hp.
Qed.

(** A selection of rows with unique keys has unique keys. *)
Lemma folder_ids_filter (keep : Folder.t -> bool) (rows : list Folder.t) :
  NoDup (folder_ids rows) -> NoDup (folder_ids (filter keep rows)).
Proof.
  unfold folder_ids.
  induction rows as [|r rows IH]; simpl; intros Hd; [constructor|].
  inversion Hd as [|? ? Hfresh Hrest]; subst.
  destruct (keep r); simpl; [constructor|]; auto.
  intros Hin. apply Hfresh. apply in_map_iff in Hin. destruct Hin as (y & <- & Hy).
  apply in_map. apply filter_In in Hy. tauto.
Qed.

Lemma find_unique_id (rows : list Folder.t) (g : Folder.t) :
  NoDup (folder_ids rows) -> In g rows ->
  find (fun x => Folder.id x =? Folder.id g) rows = Some g.
Proof.
  unfold folder_ids. induction rows as [|a rows IH]; simpl; intros Hd Hin; [tauto|].
  inversion Hd as [|? ? Hn Hd']; subst.
  destruct Hin as [->|Hin].
  - now rewrite String.eqb_refl.
  - destruct (String.eqb_spec (Folder.id a) (Folder.id g)) as [E|E].
    + exfalso. apply Hn. rewrite E. now apply in_map.
    + auto.
Qed.

(** * The cascade *)

Lemma references_incl (dead dead' : list string) (f : Folder.t) :
  incl dead dead' -> references dead f = true -> references dead' f = true.
Proof.
  unfold references. destruct (Folder.parent_id f); [|discriminate].
  intros Hi H. apply mem_In. apply Hi. now apply mem_In.
Qed.

(** With fuel for every row, the cascade ends in a state where no
    surviving row references a deleted key; the survivors are the rows of a
    filter, every removed row has its key among the deleted ones, and a
    deleted key is an initial one or the key of a row. *)
Lemma cascade_spec (fuel : nat) :
  forall dead rows, length rows <= fuel ->
  exists keep,
    snd (cascade fuel dead rows) = filter keep rows /\
    (forall f, In f (snd (cascade fuel dead rows)) ->
               references (fst (cascade fuel dead rows)) f = false) /\
    (forall f, In f rows -> keep f = false ->
               In (Folder.id f) (fst (cascade fuel dead rows))) /\
    incl dead (fst (cascade fuel dead rows)) /\
    (forall x, In x (fst (cascade fuel dead rows)) ->
               In x dead \/ In x (folder_ids rows)).
Proof.
  induction fuel as [|n IH]; intros dead rows Hlen.
  - destruct rows; [|simpl in Hlen; lia]. simpl.
    exists (fun _ => true). repeat split; auto using incl_refl; intros; tauto.
  - cbn [cascade]. destruct (filter (references dead) rows) as [|h hit] eqn:Hhit.
    + cbn [fst snd]. exists (fun _ => true). repeat split; auto using incl_refl.
      * clear. induction rows; simpl; congruence.
      * intros f Hf. destruct (references dead f) eqn:R; [|reflexivity].
        assert (In f (filter (references dead) rows)) by (apply filter_In; auto).
        rewrite Hhit in H. destruct H.
      * intros; discriminate.
    + set (rows' := filter (fun f => negb (references dead f)) rows).
      set (dead' := folder_ids (h :: hit) ++ dead).
      assert (Hlt : length rows' <= n).
      { pose proof (filter_split (references dead) rows) as Hs.
        rewrite Hhit in Hs. simpl in Hs. fold rows' in Hs. lia. }
      destruct (IH dead' rows' Hlt) as (keep & Hsurv & Hfix & Hrem & Hinc & Hdead).
      exists (fun f => negb (references dead f) && keep f).
      repeat split.
      * rewrite Hsurv. unfold rows'. apply filter_both.
      * exact Hfix.
      * intros f Hf Hk. apply andb_false_iff in Hk. destruct Hk as [Hk|Hk].
        -- apply Hinc. unfold dead'. apply in_or_app. left.
           rewrite <- Hhit. unfold folder_ids. apply in_map. apply filter_In.
           split; [assumption|]. now destruct (references dead f).
        -- destruct (references dead f) eqn:R.
           ++ apply Hinc. unfold dead'. apply in_or_app. left.
              rewrite <- Hhit. unfold folder_ids. apply in_map. apply filter_In. auto.
           ++ apply Hrem; [|assumption]. unfold rows'. apply filter_In.
              split; [assumption|]. now rewrite R.
      * intros x Hx. apply Hinc. unfold dead'. apply in_or_app. now right.
      * intros x Hx. destruct (Hdead x Hx) as [Hd|Hr].
        -- unfold dead' in Hd. apply in_app_or in Hd. destruct Hd as [Hd|Hd]; [|now left].
           right. rewrite <- Hhit in Hd. unfold folder_ids in *.
           apply in_map_iff in Hd. destruct Hd as (y & <- & Hy).
           apply in_map. apply filter_In in Hy. tauto.
        -- right. unfold folder_ids, rows' in *.
           apply in_map_iff in Hr. destruct Hr as (y & <- & Hy).
           apply in_map. apply filter_In in Hy. tauto.
Qed.

(** What [DELETE FROM fm_folders WHERE id = $1] leaves of the folder
    table. *)
Lemma delete_folder_rows_spec (s : Supabase) (id : string) :
  exists keep dead,
    fm_folders (delete_folder_rows s id) = filter keep (fm_folders s) /\
    fm_files (delete_folder_rows s id) =
      filter (fun f => negb (mem (File.folder_id f) dead)) (fm_files s) /\
    (forall f, In f (fm_folders (delete_folder_rows s id)) ->
               references dead f = false) /\
    (forall f, In f (fm_folders s) -> keep f = false -> In (Folder.id f) dead) /\
    (forall f, In f (fm_folders s) -> Folder.id f = id -> owns_folder s f = true ->
               keep f = false) /\
    (forall x, In x dead -> In x (folder_ids (fm_folders s))).
Proof.
  unfold delete_folder_rows. cbv zeta.
  set (target := delete_target s id).
  set (rest := filter (fun f => negb (target f)) (fm_folders s)).
  set (hit := filter target (fm_folders s)).
  destruct (cascade_spec (length rest) (folder_ids hit) rest (le_n _))
    as (keep & Hsurv & Hfix & Hrem & Hinc & Hdead).
  destruct (cascade (length rest) (folder_ids hit) rest) as [dead surv] eqn:Hc.
  simpl in *.
  exists (fun f => negb (target f) && keep f), dead. repeat split.
  - rewrite Hsurv. unfold rest. apply filter_both.
  - exact Hfix.
  - intros f Hf Hk. apply andb_false_iff in Hk. destruct Hk as [Hk|Hk].
    + apply Hinc. unfold hit, folder_ids. apply in_map. apply filter_In.
      split; [assumption|]. now destruct (target f).
    + destruct (target f) eqn:T.
      * apply Hinc. unfold hit, folder_ids. apply in_map. apply filter_In. auto.
      * apply Hrem; [|assumption]. unfold rest. apply filter_In. now rewrite T.
  - intros f Hf Hid Ho. unfold target, delete_target.
    rewrite Hid, String.eqb_refl, Ho. reflexivity.
  - intros x Hx. destruct (Hdead x Hx) as [H|H].
    + unfold hit, folder_ids in *. apply in_map_iff in H. destruct H as (y & <- & Hy).
      apply in_map. apply filter_In in Hy. tauto.
    + unfold rest, folder_ids in *. apply in_map_iff in H. destruct H as (y & <- & Hy).
      apply in_map. apply filter_In in Hy. tauto.
Qed.

(** * Materialized paths *)

Lemma tree_ok_nil : tree_ok [].
Proof.
  split; [constructor|]. intros l1 f l2 H. destruct l1; discriminate.
Qed.

Lemma parent_ok_incl (l l' : list Folder.t) (f : Folder.t) :
  incl l l' -> parent_ok l f -> parent_ok l' f.
Proof.
  unfold parent_ok. destruct (Folder.parent_id f); [|auto].
  intros Hi (g & Hg & He & Hp). exists g. auto.
Qed.

(** An insert keeps the invariant when the key is new and the row agrees
    with a parent row already in the table. *)
Lemma tree_ok_snoc (rows : list Folder.t) (row : Folder.t) :
  tree_ok rows -> ~ In (Folder.id row) (folder_ids rows) -> parent_ok rows row ->
  tree_ok (rows ++ [row]).
Proof.
  intros [Hd Hp] Hnew Hrow. split.
  - unfold folder_ids in *. rewrite map_app. simpl.
    apply NoDup_app; [assumption | constructor; [simpl; tauto | constructor] |].
    intros x Hx [<-|[]]. contradiction.
  - intros l1 f l2 E.
    destruct l2 as [|b l2].
    + apply app_inj_tail in E. destruct E as [<- <-]. assumption.
    + assert (E' : rows ++ [row] = (l1 ++ f :: removelast (b :: l2)) ++ [last (b :: l2) row]).
      { rewrite E. rewrite <- app_assoc. simpl. f_equal. f_equal.
        apply (@app_removelast_last _ (b :: l2) row). discriminate. }
      apply app_inj_tail in E'. destruct E' as [E' _].
      apply (Hp _ _ _ E').
Qed.

(** A cascading delete keeps the invariant. *)
Lemma tree_ok_delete (s : Supabase) (id : string) :
  tree_ok (fm_folders s) -> tree_ok (fm_folders (delete_folder_rows s id)).
Proof.
  intros [Hd Hp].
  destruct (delete_folder_rows_spec s id)
    as (keep & dead & Hsurv & _ & Hfix & Hrem & _ & _).
  split.
  - rewrite Hsurv. now apply folder_ids_filter.
  - intros l1' f l2' E.
    assert (Hf : In f (fm_folders (delete_folder_rows s id))).
    { rewrite E. apply in_or_app. right. now left. }
    rewrite Hsurv in E.
    destruct (filter_decompose _ _ _ _ _ E) as (l1 & l2 & E0 & <- & _).
    specialize (Hp _ _ _ E0). specialize (Hfix _ Hf).
    unfold parent_ok, references in *.
    destruct (Folder.parent_id f) as [p|]; [|assumption].
    destruct Hp as (g & Hg & Hid & Hpath).
    exists g. repeat split; try assumption.
    apply filter_In. split; [assumption|].
    destruct (keep g) eqn:K; [reflexivity|]. exfalso.
    apply mem_false in Hfix. apply Hfix. rewrite <- Hid.
    apply Hrem; [|assumption]. rewrite E0. apply in_or_app. now left.
Qed.

Lemma createFolder_Ok (name : string) (parentId : option string)
  (newId : string) (now : N) (s : Supabase) (f : Folder.t) (s' : Supabase) :
  createFolder name parentId newId now s = Ok (f, s') ->
  s' = set_folders (fm_folders s ++ [f]) s /\
  ~ In (Folder.id f) (folder_ids (fm_folders s)) /\
  Folder.id f = newId /\ Folder.name f = name /\
  Folder.parent_id f = or_null parentId /\
  (truthy parentId = true ->
     exists p, In p (fm_folders s) /\ parentId = Some (Folder.id p) /\
               owns_folder s p = true /\
               Folder.path f = Folder.path p +++ Folder.name p +++ "/") /\
  (truthy parentId = false -> Folder.path f = "/").
Proof.
  unfold createFolder. destruct (getUser s) as [user|]; [|discriminate].
  set (sel := single _).
  assert (Hsel : forall p, sel = Ok p ->
            In p (fm_folders s) /\ owns_folder s p = true /\
            match parentId with Some x => Folder.id p = x | None => False end).
  { intros p H. apply single_filter_Ok in H. destruct H as [Hin H].
    apply andb_true_iff in H. destruct H as [Ho H]. repeat split; auto.
    destruct parentId; [now apply String.eqb_eq | discriminate]. }
  destruct (truthy parentId) eqn:T.
  - destruct sel as [p|e]; [|discriminate].
    destruct (Hsel p eq_refl) as (Hin & Ho & Hid).
    unfold insert_folder.
    destruct (negb (owns_folder s _)); [discriminate|].
    destruct (mem _ _) eqn:M; [discriminate|].
    destruct (match Folder.parent_id _ with Some _ => _ | None => _ end); [discriminate|].
    intros H. inversion H; subst; clear H. simpl in *.
    repeat split; auto.
    + now apply mem_false.
    + intros _. exists p. repeat split; auto.
      destruct parentId; [now subst | contradiction].
    + discriminate.
  - unfold insert_folder.
    destruct (negb (owns_folder s _)); [discriminate|].
    destruct (mem _ _) eqn:M; [discriminate|].
    destruct (match Folder.parent_id _ with Some _ => _ | None => _ end); [discriminate|].
    intros H. inversion H; subst; clear H. simpl in *.
    repeat split; auto.
    + now apply mem_false.
    + discriminate.
Qed.

Lemma run_op_tree_ok (s : Supabase) (o : Op) :
  tree_ok (fm_folders s) -> tree_ok (fm_folders (run_op s o)).
Proof.
  intros Hok. destruct o as [user rootId now|user| |name parentId newId now|id
                            |file folderId fileId now|id]; simpl.
  - unfold insert_auth_user. destruct (mem user (auth_users s)); [assumption|].
    unfold create_user_root_folder. simpl.
    destruct (mem rootId (folder_ids (fm_folders s))) eqn:M; [assumption|].
    simpl. apply tree_ok_snoc; auto.
    + simpl. now apply mem_false.
    + reflexivity.
  - destruct (mem user (auth_users s)); assumption.
  - assumption.
  - destruct (createFolder name parentId newId now s) as [[f s']|e] eqn:C; [|assumption].
    apply createFolder_Ok in C.
    destruct C as (-> & Hnew & _ & _ & Hpar & Hyes & Hno). simpl.
    apply tree_ok_snoc; auto.
    unfold parent_ok. rewrite Hpar. unfold or_null.
    destruct (truthy parentId) eqn:T.
    + destruct (Hyes eq_refl) as (p & Hin & -> & _ & Hpath). exists p. auto.
    + auto.
  - now apply tree_ok_delete.
  - unfold uploadFile. destruct (getUser s); [|assumption].
    destruct (negb (owns_object s _)); [assumption|].
    destruct (mem _ (map fst (bucket s))); [assumption|].
    unfold insert_file.
    destruct (negb (owns_file _ _)); [assumption|].
    destruct (mem _ (file_ids _)); [assumption|].
    destruct (negb (mem _ (folder_ids _))); assumption.
  - unfold deleteFile. destruct (selectFileById id s); assumption.
Qed.

Lemma run_ops_tree_ok (ops : list Op) (s : Supabase) :
  tree_ok (fm_folders s) -> tree_ok (fm_folders (run_ops ops s)).
Proof.
  revert s. induction ops as [|o ops IH]; intros s H; simpl; [assumption|].
  apply IH. now apply run_op_tree_ok.
Qed.

(** Under the invariant the stored path of a row is the path along its
    parent chain, and a fuel of one more than the row's position is
    enough to walk the chain to the root. *)
Lemma chain_path_stored (rows : list Folder.t) :
  tree_ok rows ->
  forall fuel l1 f l2, rows = l1 ++ f :: l2 -> length l1 < fuel ->
    chain_path fuel rows f = Some (Folder.path f).
Proof.
  intros [Hd Hp]. induction fuel as [|n IH]; intros l1 f l2 E Hlen; [lia|].
  pose proof (Hp _ _ _ E) as Hf. unfold parent_ok in Hf. simpl.
  destruct (Folder.parent_id f) as [p|]; [|now rewrite Hf].
  destruct Hf as (g & Hg & <- & Hpath).
  assert (Hin : In g rows) by (rewrite E; apply in_or_app; now left).
  rewrite (find_unique_id rows g Hd Hin).
  destruct (in_split _ _ Hg) as (la & lb & El1).
  rewrite (IH la g (lb ++ f :: l2)).
  - now rewrite Hpath.
  - rewrite E, El1, <- app_assoc. reflexivity.
  - rewrite El1, length_app in Hlen. simpl in Hlen. lia.
Qed.

(** C1.  A folder that [createFolder] stores has the path of its parent
    followed by the parent's name and ["/"] when a parent id is given (a
    truthy [parentId], as the code tests it), and the path ["/"] when none
    is given.  Consequently, after any sequence of operations on the
    backend (sign-up, sign-in, sign-out, folder creation and deletion, file
    upload and deletion), every folder row agrees with its live parent row,
    and its stored path is the path computed along its parent chain up to
    the root. *)
Theorem createFolder_path_consistent :
  (forall name parentId newId now s f s',
     createFolder name parentId newId now s = Ok (f, s') ->
     In f (fm_folders s') /\
     (truthy parentId = true ->
        exists p, In p (fm_folders s) /\ parentId = Some (Folder.id p) /\
                  Folder.parent_id f = Some (Folder.id p) /\
                  Folder.path f = Folder.path p +++ Folder.name p +++ "/") /\
     (truthy parentId = false ->
        Folder.parent_id f = None /\ Folder.path f = "/")) /\
  (forall ops f,
     In f (fm_folders (run_ops ops empty_backend)) ->
     match Folder.parent_id f with
     | None => Folder.path f = "/"
     | Some p =>
         exists g, In g (fm_folders (run_ops ops empty_backend)) /\
                   Folder.id g = p /\
                   Folder.path f = Folder.path g +++ Folder.name g +++ "/"
     end /\
     chain_path (length (fm_folders (run_ops ops empty_backend)))
                (fm_folders (run_ops ops empty_backend)) f
       = Some (Folder.path f)).
Proof.
  split.
  - intros name parentId newId now s f s' H.
    apply createFolder_Ok in H.
    destruct H as (-> & _ & _ & _ & Hpar & Hyes & Hno). repeat split.
    + simpl. apply in_or_app. right. now left.
    + intros T. destruct (Hyes T) as (p & Hin & E & _ & Hpath).
      exists p. repeat split; auto.
      rewrite Hpar. unfold or_null. now rewrite T.
    + rewrite Hpar. unfold or_null. now rewrite H.
    + auto.
  - intros ops f Hin.
    assert (Hok : tree_ok (fm_folders (run_ops ops empty_backend)))
      by (apply run_ops_tree_ok, tree_ok_nil).
    destruct (in_split _ _ Hin) as (l1 & l2 & E).
    split.
    + destruct Hok as [_ Hp]. specialize (Hp _ _ _ E). unfold parent_ok in Hp.
      destruct (Folder.parent_id f); [|assumption].
      destruct Hp as (g & Hg & Hid & Hpath). exists g. repeat split; auto.
      rewrite E. apply in_or_app. now left.
    + apply (chain_path_stored _ Hok _ l1 f l2 E).
      rewrite E at 1. rewrite length_app. simpl. lia.
Qed.

Lemma createFolder_path_consistent_witness :
  (exists p, In p (fm_folders (run_ops (firstn 2 scenario_ops) empty_backend)) /\
             Some "docs" = Some (Folder.id p) /\
             Folder.parent_id reports_row = Some (Folder.id p) /\
             Folder.path reports_row = Folder.path p +++ Folder.name p +++ "/") /\
  chain_path 3 (fm_folders (run_ops scenario_ops empty_backend)) reports_row
    = Some "/Root/Docs/".
Proof.
  split.
  - refine (proj1 (proj2 (proj1 createFolder_path_consistent
              "Reports" (Some "docs") "reports" 3%N
              (run_ops (firstn 2 scenario_ops) empty_backend)
              reports_row
              (run_ops scenario_ops empty_backend) _)) _); reflexivity.
  - refine (proj2 (proj2 createFolder_path_consistent scenario_ops reports_row _)).
    vm_compute. tauto.
Defined.

(** * Breadcrumbs *)

Lemma ancestor_parent (rows : list Folder.t) (a f : Folder.t) :
  ancestor rows a f ->
  exists g, In g rows /\ Folder.parent_id f = Some (Folder.id g) /\
            (g = a \/ ancestor rows a g).
Proof.
  intros H. destruct H as [a f Hin Hp | a g f Hanc Hin Hp].
  - exists a. auto.
  - exists g. auto.
Qed.

(** C2.  In a backend with two folders named "A" (one under the root and
    holding "C", the other under "B"), the breadcrumbs of "C" are the
    root, the first "A", the second "A" and "C": the trail ends with the
    folder itself, but the second "A" is in it although it is not an
    ancestor of "C".  [getFolderParents], the walk along [parent_id],
    returns the two ancestors only. *)
Theorem getFolderBreadcrumbs_name_collision :
  fm_folders collision_backend = [row_r; row_a; row_b; row_a2; row_c] /\
  getFolderBreadcrumbs "c" collision_backend
    = Ok [crumb_of row_r; crumb_of row_a; crumb_of row_a2; crumb_of row_c] /\
  ~ ancestor (fm_folders collision_backend) row_a2 row_c /\
  getFolderParents "c" collision_backend = ["r"; "a"].
Proof.
  assert (E : fm_folders collision_backend = [row_r; row_a; row_b; row_a2; row_c])
    by reflexivity.
  repeat split; try reflexivity. rewrite E.
  intros H.
  apply ancestor_parent in H. destruct H as (g & Hg & Hp & H).
  simpl in Hg, Hp.
  destruct Hg as [<-|[<-|[<-|[<-|[<-|[]]]]]]; try discriminate Hp.
  destruct H as [H|H]; [discriminate H|].
  apply ancestor_parent in H. destruct H as (g & Hg & Hp' & H).
  simpl in Hg, Hp'.
  destruct Hg as [<-|[<-|[<-|[<-|[<-|[]]]]]]; try discriminate Hp'.
  destruct H as [H|H]; [discriminate H|].
  apply ancestor_parent in H. destruct H as (g & _ & Hp'' & _).
  discriminate Hp''.
Qed.

(** * Upload *)

(** A row that [uploadFile] returns is what the point lookup by its id
    finds right after the upload, with the name and size of the uploaded
    file. *)
Lemma uploadFile_roundtrip (file : Upload.t) (folderId fileId : string) (now : N)
  (s : Supabase) (row : File.t) (s' : Supabase) :
  uploadFile file folderId fileId now s = (Ok row, s') ->
  selectFileById fileId s' = Ok row /\
  File.name row = Upload.name file /\ File.size row = Upload.size file.
Proof.
  unfold uploadFile. destruct (getUser s) as [user|] eqn:U; [|discriminate].
  destruct (negb (owns_object s _)); [discriminate|].
  destruct (mem _ (map fst (bucket s))); [discriminate|].
  unfold insert_file.
  destruct (negb (owns_file _ _)) eqn:O; [discriminate|].
  destruct (mem _ (file_ids _)) eqn:M; [discriminate|].
  destruct (negb (mem _ (folder_ids _))); [discriminate|].
  intros H. inversion H; subst; clear H. simpl in *.
  repeat split.
  unfold selectFileById. simpl. rewrite filter_app. simpl.
  apply negb_false_iff in O. unfold owns_file in *. simpl in *.
  rewrite O, String.eqb_refl. simpl.
  replace (filter _ (fm_files s)) with (@nil File.t); [reflexivity|].
  symmetry. apply mem_false in M.
  induction (fm_files s) as [|a l IH]; [reflexivity|]. simpl in *.
  destruct (String.eqb_spec (File.id a) fileId) as [E|E].
  - exfalso. apply M. now left.
  - rewrite andb_false_r. apply IH. tauto.
Qed.

(** C6.  The same file, uploaded twice into the same folder at the clock
    readings 1000 and 2000, gets two different checksums: the checksum is
    made of the size, the name and the time of the upload, not of the
    bytes. *)
Theorem uploadFile_checksum_depends_on_time :
  exists row1 s1 row2 s2,
    uploadFile a_pdf "reports" "f1" 1000 scenario_backend = (Ok row1, s1) /\
    uploadFile a_pdf "reports" "f2" 2000 s1 = (Ok row2, s2) /\
    File.checksum row1 = "4_a.pdf_1000" /\
    File.checksum row2 = "4_a.pdf_2000" /\
    File.checksum row1 <> File.checksum row2.
Proof.
  eexists _, _, _, _. repeat split; try reflexivity.
  vm_compute. discriminate.
Qed.

(** * Deleting folders *)

(** The rows a delete removes include every descendant of a removed
    row. *)
Lemma delete_removes_descendants (s : Supabase) (id : string)
  (keep : Folder.t -> bool) (dead : list string) :
  fm_folders (delete_folder_rows s id) = filter keep (fm_folders s) ->
  (forall f, In f (fm_folders (delete_folder_rows s id)) ->
             references dead f = false) ->
  (forall f, In f (fm_folders s) -> keep f = false -> In (Folder.id f) dead) ->
  forall a d, ancestor (fm_folders s) a d -> keep a = false ->
              ~ In d (fm_folders (delete_folder_rows s id)).
Proof.
  intros Hsurv Hfix Hrem a d Hanc Ha.
  assert (Hstep : forall g f, In g (fm_folders s) -> keep g = false ->
            Folder.parent_id f = Some (Folder.id g) ->
            ~ In f (fm_folders (delete_folder_rows s id))).
  { intros g f Hg Hk Hp Hf. specialize (Hfix f Hf).
    unfold references in Hfix. rewrite Hp in Hfix.
    apply mem_false in Hfix. apply Hfix. now apply Hrem. }
  induction Hanc as [a f Hin Hp | a g f Hanc IH Hin Hp].
  - now apply (Hstep a f).
  - apply (Hstep g f); auto.
    destruct (keep g) eqn:K; [|reflexivity].
    exfalso. apply (IH Ha). rewrite Hsurv. apply filter_In. auto.
Qed.

(** The foreign key of [fm_files] holds after every operation. *)
Lemma run_op_files_ok (s : Supabase) (o : Op) :
  files_ok s -> files_ok (run_op s o).
Proof.
  unfold files_ok. intros Hok.
  destruct o as [user rootId now|user| |name parentId newId now|id
                |file folderId fileId now|id]; simpl.
  - unfold insert_auth_user. destruct (mem user (auth_users s)); [assumption|].
    unfold create_user_root_folder. simpl.
    destruct (mem rootId (folder_ids (fm_folders s))); [assumption|]. simpl.
    intros x Hx. unfold folder_ids. rewrite map_app. apply in_or_app. left.
    now apply Hok.
  - destruct (mem user (auth_users s)); assumption.
  - assumption.
  - destruct (createFolder name parentId newId now s) as [[f s']|e] eqn:C; [|assumption].
    apply createFolder_Ok in C. destruct C as (-> & _). simpl.
    intros x Hx. unfold folder_ids. rewrite map_app. apply in_or_app. left.
    now apply Hok.
  - destruct (delete_folder_rows_spec s id)
      as (keep & dead & Hsurv & Hfiles & _ & Hrem & _ & _).
    intros x Hx. rewrite Hfiles in Hx. apply filter_In in Hx. destruct Hx as [Hx Hd].
    apply negb_true_iff, mem_false in Hd.
    specialize (Hok x Hx). unfold folder_ids in Hok.
    apply in_map_iff in Hok. destruct Hok as (g & Hid & Hg).
    rewrite Hsurv. unfold folder_ids. rewrite <- Hid. apply in_map.
    apply filter_In. split; [assumption|].
    destruct (keep g) eqn:K; [reflexivity|]. exfalso. apply Hd.
    rewrite <- Hid. now apply Hrem.
  - unfold uploadFile. destruct (getUser s); [|assumption].
    destruct (negb (owns_object s _)); [assumption|].
    destruct (mem _ (map fst (bucket s))); [assumption|].
    unfold insert_file.
    destruct (negb (owns_file _ _)); [assumption|].
    destruct (mem _ (file_ids _)); [assumption|].
    destruct (negb (mem _ (folder_ids _))) eqn:M; [assumption|]. simpl.
    intros x Hx. apply in_app_or in Hx. destruct Hx as [Hx|[<-|[]]]; [auto|].
    simpl. apply negb_false_iff in M. now apply mem_In.
  - unfold deleteFile. destruct (selectFileById id s); [|assumption]. simpl.
    intros x Hx. apply filter_In in Hx. now apply Hok.
Qed.

Lemma run_ops_files_ok (ops : list Op) (s : Supabase) :
  files_ok s -> files_ok (run_ops ops s).
Proof.
  revert s. induction ops as [|o ops IH]; intros s H; simpl; [assumption|].
  apply IH. now apply run_op_files_ok.
Qed.

(** The rows after [deleteFolder] on a folder of the signed-in user: the
    folder and its descendants are gone with the files in them, every
    remaining folder has its parent and every remaining file its folder. *)
Lemma deleteFolder_rows_cascade (ops : list Op) (r : Folder.t) :
  In r (fm_folders (run_ops ops empty_backend)) ->
  owns_folder (run_ops ops empty_backend) r = true ->
  exists s',
    deleteFolder (Folder.id r) (run_ops ops empty_backend) = Ok s' /\
    ~ In r (fm_folders s') /\
    (forall d, ancestor (fm_folders (run_ops ops empty_backend)) r d ->
               ~ In d (fm_folders s')) /\
    tree_ok (fm_folders s') /\ files_ok s'.
Proof.
  intros Hin Hown. set (s := run_ops ops empty_backend) in *.
  exists (delete_folder_rows s (Folder.id r)). split; [reflexivity|].
  destruct (delete_folder_rows_spec s (Folder.id r))
    as (keep & dead & Hsurv & Hfiles & Hfix & Hrem & Htarget & _).
  assert (Hr : keep r = false) by (apply Htarget; auto).
  repeat split.
  - rewrite Hsurv. intros H. apply filter_In in H. destruct H. congruence.
  - intros d Hd. eapply delete_removes_descendants; eauto.
  - apply tree_ok_delete. apply run_ops_tree_ok, tree_ok_nil.
  - apply tree_ok_delete. apply run_ops_tree_ok, tree_ok_nil.
  - apply (run_op_files_ok s (DeleteFolder (Folder.id r))).
    apply run_ops_files_ok. intros x [].
Qed.

(** C8.  In the scenario with "a.pdf" uploaded into "Reports", deleting
    "Docs" removes the rows of "Docs" and "Reports" and the row of the
    file, and leaves the file's object in the storage bucket; deleting the
    file with [deleteFile] removes the object.  In general [deleteFolder]
    leaves the bucket as it is. *)
Theorem deleteFolder_leaves_storage_object :
  bucket upload_backend = [("u1/f1_a.pdf", "%PDF")] /\
  (exists s',
     deleteFolder "docs" upload_backend = Ok s' /\
     fm_folders s' = [root_row] /\
     fm_files s' = [] /\
     bucket s' = [("u1/f1_a.pdf", "%PDF")]) /\
  (exists s'',
     deleteFile "f1" upload_backend = Ok s'' /\
     fm_files s'' = [] /\ bucket s'' = []) /\
  (forall s id, exists s', deleteFolder id s = Ok s' /\ bucket s' = bucket s).
Proof.
  split; [reflexivity|]. split; [|split].
  - eexists. repeat split; reflexivity.
  - eexists. repeat split; reflexivity.
  - intros s id. exists (delete_folder_rows s id). split; [reflexivity|].
    unfold delete_folder_rows.
    destruct (cascade _ _ _) as [dead survivors]. reflexivity.
Qed.

(** Against C9 as stated.  [deleteFolder] on the root of the signed-in
    user is accepted and empties the folder table. *)
Lemma deleteFolder_root_counterexample :
  In root_row (fm_folders scenario_backend) /\
  is_root root_row = true /\
  owns_folder scenario_backend root_row = true /\
  deleteFolder "root" scenario_backend = Ok (set_folders [] scenario_backend) /\
  fm_folders scenario_backend <> [] /\
  ~ root_delete_rejected.
Proof.
  assert (Hin : In root_row (fm_folders scenario_backend)) by (vm_compute; tauto).
  repeat split; try reflexivity; try assumption.
  - vm_compute. discriminate.
  - intros H. destruct (H scenario_ops root_row Hin eq_refl eq_refl) as [e He].
    vm_compute in He. discriminate.
Qed.

(** C9, as the code has it.  [deleteFolder] on a root folder of the
    signed-in user is not rejected: it returns without error and removes
    the root, every folder below it and every file in them.  The root that
    the sign-up trigger creates is named "Root", and the folder tree
    renders no delete control for a folder of that name. *)
Theorem deleteFolder_root_cascades :
  (forall ops r,
     In r (fm_folders (run_ops ops empty_backend)) ->
     is_root r = true ->
     owns_folder (run_ops ops empty_backend) r = true ->
     exists s',
       deleteFolder (Folder.id r) (run_ops ops empty_backend) = Ok s' /\
       ~ In r (fm_folders s') /\
       (forall d, ancestor (fm_folders (run_ops ops empty_backend)) r d ->
                  ~ In d (fm_folders s')) /\
       (forall x d, In x (fm_files s') ->
                    In d (fm_folders (run_ops ops empty_backend)) ->
                    d = r \/ ancestor (fm_folders (run_ops ops empty_backend)) r d ->
                    File.folder_id x <> Folder.id d)) /\
  (forall user rootId now s s',
     create_user_root_folder user rootId now s = Ok s' ->
     exists root,
       In root (fm_folders s') /\ Folder.id root = rootId /\
       is_root root = true /\ rendersDeleteButton root = false).
Proof.
  split.
  - intros ops r Hin _ Hown. set (s := run_ops ops empty_backend) in *.
    exists (delete_folder_rows s (Folder.id r)). split; [reflexivity|].
    destruct (delete_folder_rows_spec s (Folder.id r))
      as (keep & dead & Hsurv & Hfiles & Hfix & Hrem & Htarget & _).
    assert (Hr : keep r = false) by (apply Htarget; auto).
    assert (Hdesc : forall d, ancestor (fm_folders s) r d ->
                      ~ In d (fm_folders (delete_folder_rows s (Folder.id r)))).
    { intros d Hd. eapply delete_removes_descendants; eauto. }
    repeat split.
    + rewrite Hsurv. intros H. apply filter_In in H. destruct H. congruence.
    + exact Hdesc.
    + intros x d Hx Hd Hrd E. rewrite Hfiles in Hx. apply filter_In in Hx.
      destruct Hx as [_ Hx]. apply negb_true_iff, mem_false in Hx. apply Hx.
      rewrite E. apply Hrem; [assumption|].
      destruct Hrd as [->|Hanc]; [assumption|].
      destruct (keep d) eqn:K; [|reflexivity]. exfalso.
      apply (Hdesc d Hanc). rewrite Hsurv. apply filter_In. auto.
  - intros user rootId now s s'. unfold create_user_root_folder.
    destruct (mem rootId _); [discriminate|]. intros H. inversion H; subst.
    exists (Folder.mk rootId "Root" None user "/" now).
    repeat split; try reflexivity.
    simpl. apply in_or_app. right. now left.
Qed.

Lemma deleteFolder_root_cascades_witness :
  exists s',
    deleteFolder (Folder.id root_row) (run_ops scenario_ops empty_backend) = Ok s' /\
    ~ In root_row (fm_folders s') /\
    (forall d, ancestor (fm_folders (run_ops scenario_ops empty_backend)) root_row d ->
               ~ In d (fm_folders s')) /\
    (forall x d, In x (fm_files s') ->
                 In d (fm_folders (run_ops scenario_ops empty_backend)) ->
                 d = root_row \/
                 ancestor (fm_folders (run_ops scenario_ops empty_backend)) root_row d ->
                 File.folder_id x <> Folder.id d).
Proof.
  refine (proj1 deleteFolder_root_cascades scenario_ops root_row _ _ _).
  - vm_compute. tauto.
  - reflexivity.
  - reflexivity.
Defined.

(** * The job map *)

Lemma map_get_None (id : string) (m : JobMap) :
  map_get id m = None <-> ~ In id (map fst m).
Proof.
  induction m as [|[k v] m IH]; simpl; [tauto|].
  destruct (String.eqb_spec k id) as [E|E].
  - split; [discriminate | intros H; exfalso; auto].
  - rewrite IH. tauto.
Qed.

Lemma map_set_fresh (id : string) (job : QueueJob.t) (m : JobMap) :
  map_get id m = None -> map_set id job m = m ++ [(id, job)].
Proof.
  induction m as [|[k v] m IH]; simpl; [reflexivity|].
  destruct (k =? id); [discriminate|]. intros H. now rewrite IH.
Qed.

Lemma map_get_middle (l1 l2 : JobMap) (k : string) (v : QueueJob.t) :
  ~ In k (map fst l1) -> map_get k (l1 ++ (k, v) :: l2) = Some v.
Proof.
  induction l1 as [|[k' v'] l1 IH]; simpl; intros H.
  - now rewrite String.eqb_refl.
  - destruct (String.eqb_spec k' k) as [E|E]; [exfalso; auto|]. apply IH. tauto.
Qed.

Lemma map_set_middle (l1 l2 : JobMap) (k : string) (v v' : QueueJob.t) :
  ~ In k (map fst l1) ->
  map_set k v' (l1 ++ (k, v) :: l2) = l1 ++ (k, v') :: l2.
Proof.
  induction l1 as [|[k0 v0] l1 IH]; simpl; intros H.
  - now rewrite String.eqb_refl.
  - destruct (String.eqb_spec k0 k) as [E|E]; [exfalso; auto|].
    rewrite IH; tauto.
Qed.

Lemma map_get_set (id : string) (v : QueueJob.t) (m : JobMap) :
  map_get id (map_set id v m) = Some v.
Proof.
  induction m as [|[k w] m IH]; simpl.
  - now rewrite String.eqb_refl.
  - destruct (k =? id) eqn:E; simpl; rewrite E; [reflexivity | exact IH].
Qed.

Lemma keys_ok_middle (l1 l2 : JobMap) (k : string) (v : QueueJob.t) :
  keys_ok (l1 ++ (k, v) :: l2) -> ~ In k (map fst l1).
Proof.
  intros [Hd _]. rewrite map_app in Hd. simpl in Hd.
  apply NoDup_remove_2 in Hd. intros H. apply Hd. apply in_or_app. now left.
Qed.

Lemma keys_ok_In (m : JobMap) (k : string) (v : QueueJob.t) :
  keys_ok m -> In (k, v) m -> map_get k m = Some v.
Proof.
  intros Hk Hin. destruct (in_split _ _ Hin) as (l1 & l2 & ->).
  apply map_get_middle. eapply keys_ok_middle; eauto.
Qed.

Lemma map_get_In (m : JobMap) (k : string) (v : QueueJob.t) :
  map_get k m = Some v -> In (k, v) m.
Proof.
  induction m as [|[k' v'] m IH]; simpl; [discriminate|].
  destruct (String.eqb_spec k' k) as [E|E].
  - intros H. inversion H; subst. now left.
  - auto.
Qed.

Lemma keys_ok_replace (l1 l2 : JobMap) (k : string) (v v' : QueueJob.t) :
  QueueJob.id v' = k ->
  keys_ok (l1 ++ (k, v) :: l2) -> keys_ok (l1 ++ (k, v') :: l2).
Proof.
  intros Hid [Hd Hf]. split.
  - rewrite map_app in *. exact Hd.
  - apply Forall_app in Hf. destruct Hf as [H1 H2]. apply Forall_app. split; auto.
    inversion H2; subst. constructor; auto.
Qed.

Lemma keys_ok_snoc (m : JobMap) (k : string) (v : QueueJob.t) :
  keys_ok m -> map_get k m = None -> QueueJob.id v = k -> keys_ok (m ++ [(k, v)]).
Proof.
  intros [Hd Hf] Hn Hid. apply map_get_None in Hn. split.
  - rewrite map_app. simpl. apply NoDup_app; auto.
    + constructor; [simpl; tauto | constructor].
    + intros x Hx [<-|[]]. contradiction.
  - apply Forall_app. split; auto.
Qed.

Lemma find_pending_skip (done rest : JobMap) :
  all_status terminal done ->
  find is_pending (map_values (done ++ rest)) = find is_pending (map_values rest).
Proof.
  unfold map_values, all_status, is_pending.
  induction done as [|[k v] done IH]; simpl; intros H; [reflexivity|].
  inversion H; subst. simpl in *.
  destruct (QueueJob.status v); try discriminate; simpl; auto.
Qed.

Lemma find_pending_none (m : JobMap) :
  all_status terminal m -> find is_pending (map_values m) = None.
Proof.
  intros H. rewrite <- (app_nil_r m). now rewrite find_pending_skip.
Qed.

(** * The steps of the queue, shape by shape *)

Lemma addJob_busy (id : string) (data : JobData) (now : N) (m : JobMap)
  (l : list QueueJob.t) :
  map_get id m = None ->
  addJob id zip data now (mkQueue m true l)
    = mkQueue (m ++ [(id, QueueJob.mk id zip data pending now None)]) true l.
Proof.
  intros H. unfold addJob, processQueue. simpl. now rewrite map_set_fresh.
Qed.

Lemma addJob_idle (id : string) (data : JobData) (now : N) (done : JobMap) :
  map_get id done = None -> all_status terminal done ->
  addJob id zip data now (mkQueue done false [])
    = mkQueue (done ++ [(id, QueueJob.mk id zip data processing now None)])
              true [QueueJob.mk id zip data processing now None].
Proof.
  intros H Hdone. unfold addJob, processQueue. simpl.
  rewrite map_set_fresh by assumption.
  unfold loop_round. cbn [jobs processing_flag loops].
  rewrite find_pending_skip by assumption. simpl.
  unfold updateJobStatus. cbn [jobs QueueJob.id].
  apply map_get_None in H.
  rewrite map_get_middle by assumption.
  rewrite map_set_middle by assumption. reflexivity.
Qed.

Lemma resume_last (o : Settled) (now : N) (done : JobMap) (j : QueueJob.t) :
  keys_ok (done ++ [(QueueJob.id j, j)]) -> all_status terminal done ->
  resume 0 o now (mkQueue (done ++ [(QueueJob.id j, j)]) true [j])
    = mkQueue (done ++ [(QueueJob.id j, with_status (outcome_status o) (Some now) j)])
              false [].
Proof.
  intros Hk Hdone. pose proof (keys_ok_middle _ _ _ _ Hk) as Hn.
  unfold resume. cbn [loops nth_error firstn skipn].
  unfold updateJobStatus. cbn [jobs].
  rewrite map_get_middle, map_set_middle by assumption.
  unfold loop_round. cbn [jobs processing_flag loops].
  rewrite find_pending_skip by assumption.
  destruct o; reflexivity.
Qed.

Lemma resume_next (o : Settled) (now : N) (done : JobMap) (j p : QueueJob.t)
  (pend : JobMap) :
  keys_ok (done ++ (QueueJob.id j, j) :: (QueueJob.id p, p) :: pend) ->
  all_status terminal done -> QueueJob.status p = pending ->
  resume 0 o now
    (mkQueue (done ++ (QueueJob.id j, j) :: (QueueJob.id p, p) :: pend) true [j])
    = mkQueue ((done ++ [(QueueJob.id j, with_status (outcome_status o) (Some now) j)])
                 ++ (QueueJob.id p, with_status processing None p) :: pend)
              true [with_status processing None p].
Proof.
  intros Hk Hdone Hp. pose proof (keys_ok_middle _ _ _ _ Hk) as Hn.
  unfold resume. cbn [loops nth_error firstn skipn].
  unfold updateJobStatus. cbn [jobs].
  rewrite map_get_middle, map_set_middle by assumption.
  set (j' := with_status _ (Some now) j).
  assert (Hk' : keys_ok ((done ++ [(QueueJob.id j, j')]) ++ (QueueJob.id p, p) :: pend)).
  { rewrite <- app_assoc. simpl. eapply keys_ok_replace; eauto. }
  assert (Hdone' : all_status terminal (done ++ [(QueueJob.id j, j')])).
  { apply Forall_app. split; auto. constructor; [|constructor].
    unfold j'. destruct o; reflexivity. }
  replace (done ++ (QueueJob.id j, j') :: (QueueJob.id p, p) :: pend)
    with ((done ++ [(QueueJob.id j, j')]) ++ (QueueJob.id p, p) :: pend)
    by (rewrite <- app_assoc; reflexivity).
  pose proof (keys_ok_middle _ _ _ _ Hk') as Hn'.
  unfold loop_round. cbn [jobs processing_flag loops].
  rewrite find_pending_skip by assumption.
  unfold map_values, is_pending. cbn [map snd find]. rewrite Hp. cbn [Status_eqb].
  unfold updateJobStatus. cbn [jobs processing_flag loops].
  rewrite map_get_middle, map_set_middle by assumption.
  reflexivity.
Qed.

Lemma with_status_id (st : Status) (d : option N) (j : QueueJob.t) :
  QueueJob.id (with_status st d j) = QueueJob.id j.
Proof. reflexivity. Qed.

Lemma step_shape (q q' : InMemoryQueue) : shape q -> step q q' -> shape q'.
Proof.
  intros Hs Hstep. destruct Hstep as [id data now q Hfresh | i o now q Hi].
  - destruct Hs as [done Hk Hdone | done j pend Hk Hdone Hj Hpend]; simpl in Hfresh.
    + rewrite addJob_idle by assumption.
      set (job := QueueJob.mk id zip data processing now None).
      change id with (QueueJob.id job) at 1.
      apply (shape_busy done job []); auto.
      * apply keys_ok_snoc; auto.
      * constructor.
    + rewrite addJob_busy by assumption.
      set (job := QueueJob.mk id zip data pending now None).
      rewrite <- app_assoc. simpl.
      apply (shape_busy done j (pend ++ [(id, job)])); auto.
      * change (done ++ (QueueJob.id j, j) :: pend ++ [(id, job)])
          with (done ++ ((QueueJob.id j, j) :: pend) ++ [(id, job)]).
        rewrite app_assoc. apply keys_ok_snoc; auto.
      * apply Forall_app. split; auto.
  - destruct Hs as [done Hk Hdone | done j pend Hk Hdone Hj Hpend]; simpl in Hi; [lia|].
    assert (i = 0) by lia. subst i.
    destruct pend as [|[k p] pend].
    + rewrite resume_last by assumption.
      apply shape_idle.
      * eapply keys_ok_replace; eauto.
      * apply Forall_app. split; auto. constructor; [|constructor].
        destruct o; reflexivity.
    + assert (Hkp : QueueJob.id p = k).
      { destruct Hk as [_ Hf]. apply Forall_app in Hf. destruct Hf as [_ Hf].
        inversion Hf as [|? ? _ Hf']; subst. now inversion Hf'. }
      subst k.
      assert (Hp : QueueJob.status p = pending).
      { inversion Hpend as [|? ? Hp _]; subst. simpl in Hp.
        destruct (QueueJob.status p); try discriminate; reflexivity. }
      rewrite resume_next by assumption.
      rewrite <- (with_status_id processing None p) at 1.
      apply shape_busy.
      * rewrite with_status_id. rewrite <- app_assoc. simpl.
        apply keys_ok_replace with (v := j); [reflexivity|].
        change (done ++ (QueueJob.id j, j) :: (QueueJob.id p, with_status processing None p) :: pend)
          with (done ++ ((QueueJob.id j, j) :: nil) ++ (QueueJob.id p, with_status processing None p) :: pend).
        rewrite app_assoc.
        apply keys_ok_replace with (v := p); [reflexivity|].
        rewrite <- app_assoc. exact Hk.
      * apply Forall_app. split; auto. constructor; [|constructor].
        destruct o; reflexivity.
      * reflexivity.
      * now inversion Hpend.
Qed.

Lemma reachable_shape (q : InMemoryQueue) : reachable q -> shape q.
Proof.
  induction 1 as [|q q' _ IH Hstep].
  - apply shape_idle; [split; constructor | constructor].
  - eapply step_shape; eauto.
Qed.

Lemma shape_keys_ok (q : InMemoryQueue) : shape q -> keys_ok (jobs q).
Proof. destruct 1; assumption. Qed.

(** * Counting statuses *)

Lemma count_app (st : Status) (m1 m2 : JobMap) (f : bool) (l : list QueueJob.t) :
  count_status st (mkQueue (m1 ++ m2) f l)
    = count_status st (mkQueue m1 f l) + count_status st (mkQueue m2 f l).
Proof.
  unfold count_status, statuses, map_values. simpl.
  now rewrite !map_app, filter_app, length_app.
Qed.

Lemma count_all_other (st : Status) (p : Status -> bool) (m : JobMap) (f : bool)
  (l : list QueueJob.t) :
  all_status p m -> (forall x, p x = true -> Status_eqb st x = false) ->
  count_status st (mkQueue m f l) = 0.
Proof.
  unfold count_status, statuses, map_values. simpl.
  induction 1 as [|[k v] m Hv _ IH]; intros Hp; simpl; [reflexivity|].
  simpl in Hv. rewrite (Hp _ Hv). auto.
Qed.

Lemma count_all_same (st : Status) (m : JobMap) (f : bool) (l : list QueueJob.t) :
  all_status (Status_eqb st) m -> count_status st (mkQueue m f l) = length m.
Proof.
  unfold count_status, statuses, map_values. simpl.
  induction 1 as [|[k v] m Hv _ IH]; simpl; [reflexivity|].
  simpl in Hv. rewrite Hv. simpl. now rewrite IH.
Qed.

Lemma count_idle (done : JobMap) :
  all_status terminal done ->
  count_status pending (mkQueue done false []) = 0 /\
  count_status processing (mkQueue done false []) = 0.
Proof.
  intros H. split; apply (count_all_other _ terminal); auto;
    intros [] E; try discriminate; reflexivity.
Qed.

Lemma count_busy (done : JobMap) (j : QueueJob.t) (pend : JobMap) :
  all_status terminal done -> QueueJob.status j = processing ->
  all_status (Status_eqb pending) pend ->
  count_status pending (mkQueue (done ++ (QueueJob.id j, j) :: pend) true [j])
    = length pend /\
  count_status processing (mkQueue (done ++ (QueueJob.id j, j) :: pend) true [j])
    = 1.
Proof.
  intros Hdone Hj Hpend.
  change (done ++ (QueueJob.id j, j) :: pend)
    with (done ++ [(QueueJob.id j, j)] ++ pend).
  rewrite !count_app. split.
  - rewrite (count_all_other pending terminal done), (count_all_same pending pend); auto.
    + unfold count_status, statuses. simpl. rewrite Hj. reflexivity.
    + intros [] E; try discriminate; reflexivity.
  - rewrite (count_all_other processing terminal done),
            (count_all_other processing (Status_eqb pending) pend); auto.
    + unfold count_status, statuses. simpl. rewrite Hj. reflexivity.
    + intros [] E; try discriminate; reflexivity.
    + intros [] E; try discriminate; reflexivity.
Qed.

(** * Single flight and submission order *)

(** In a list [done ++ j :: pend], an element that stands before an element
    not in [pend] stands in [done]. *)
Lemma before_not_pending {A : Type} (done pend l1 l2 l3 : list A) (j x y : A) :
  done ++ j :: pend = l1 ++ x :: l2 ++ y :: l3 -> ~ In y pend -> In x done.
Proof.
  intros E Hy.
  assert (E' : (done ++ [j]) ++ pend = (l1 ++ x :: l2) ++ y :: l3).
  { rewrite <- !app_assoc. exact E. }
  apply app_eq_app in E'. destruct E' as (l & [[E1 E2] | [E1 E2]]).
  - destruct l as [|a l].
    + exfalso. apply Hy. simpl in E2. rewrite <- E2. now left.
    + destruct (exists_last (l := a :: l)) as (l' & z & El); [discriminate|].
      rewrite El, app_assoc in E1. apply app_inj_tail in E1. destruct E1 as [-> _].
      apply in_or_app. left. apply in_or_app. right. now left.
  - exfalso. apply Hy. rewrite E2. apply in_or_app. right. now left.
Qed.

(** C3.  In every state the queue reaches by submissions (under ids not in
    use) and by the settling of awaited job bodies: at most one activation
    of the drain loop exists, and one exists exactly when the flag is up;
    at most one job has status [processing]; of two jobs, the one
    submitted first (standing first in the map) is finished whenever the
    other has left [pending]; and a submission appends its job to the map
    and, with the flag up, starts no activation and leaves the job
    [pending]. *)
Theorem queue_single_flight_fifo (q : InMemoryQueue) :
  reachable q ->
  length (loops q) <= 1 /\
  (processing_flag q = true <-> loops q <> []) /\
  count_status processing q <= 1 /\
  (forall l1 k1 j1 l2 k2 j2 l3,
     jobs q = l1 ++ (k1, j1) :: l2 ++ (k2, j2) :: l3 ->
     QueueJob.status j2 <> pending ->
     terminal (QueueJob.status j1) = true) /\
  (forall id data now,
     map_get id (jobs q) = None ->
     map fst (jobs (addJob id zip data now q)) = map fst (jobs q) ++ [id] /\
     (processing_flag q = true ->
        loops (addJob id zip data now q) = loops q /\
        status_of id (addJob id zip data now q) = Some pending)).
Proof.
  intros Hr. apply reachable_shape in Hr.
  destruct Hr as [done Hk Hdone | done j pend Hk Hdone Hj Hpend].
  - split; [simpl; lia|]. split; [simpl; split; congruence|].
    split; [destruct (count_idle done Hdone) as [_ ->]; lia|].
    split.
    + intros l1 k1 j1 l2 k2 j2 l3 E _. cbn [jobs] in E.
      unfold all_status in Hdone. rewrite Forall_forall in Hdone.
      apply (Hdone (k1, j1)). rewrite E. apply in_or_app. right. now left.
    + intros id data now Hfresh. cbn [jobs] in Hfresh.
      rewrite addJob_idle by assumption. cbn [jobs processing_flag].
      rewrite map_app. split; [reflexivity | discriminate].
  - split; [simpl; lia|]. split; [simpl; split; congruence|].
    split; [destruct (count_busy done j pend Hdone Hj Hpend) as [_ ->]; lia|].
    split.
    + intros l1 k1 j1 l2 k2 j2 l3 E Hj2. cbn [jobs] in E.
      assert (Hin : In (k1, j1) done).
      { eapply before_not_pending; [exact E|].
        intros Hin. unfold all_status in Hpend. rewrite Forall_forall in Hpend.
        specialize (Hpend _ Hin). simpl in Hpend.
        destruct (QueueJob.status j2); try discriminate. now apply Hj2. }
      unfold all_status in Hdone. rewrite Forall_forall in Hdone.
      apply (Hdone _ Hin).
    + intros id data now Hfresh. cbn [jobs] in Hfresh.
      rewrite addJob_busy by assumption. cbn [jobs processing_flag loops].
      rewrite map_app. split; [reflexivity|]. intros _. split; [reflexivity|].
      unfold status_of, getJob. cbn [jobs].
      apply map_get_None in Hfresh.
      rewrite (map_get_middle _ [] id); [reflexivity | exact Hfresh].
Qed.

(** * Termination of the drain loop *)

Lemma active_idle (done : JobMap) :
  all_status terminal done -> active (mkQueue done false []) = 0.
Proof.
  intros H. unfold active. destruct (count_idle done H) as [-> ->]. reflexivity.
Qed.

Lemma active_busy (done : JobMap) (j : QueueJob.t) (pend : JobMap) :
  all_status terminal done -> QueueJob.status j = processing ->
  all_status (Status_eqb pending) pend ->
  active (mkQueue (done ++ (QueueJob.id j, j) :: pend) true [j]) = S (length pend).
Proof.
  intros H1 H2 H3. unfold active.
  destruct (count_busy done j pend H1 H2 H3) as [-> ->]. lia.
Qed.

Lemma shape_active (q : InMemoryQueue) :
  shape q ->
  active q = (if processing_flag q then S (count_status pending q) else 0).
Proof.
  destruct 1 as [done Hk Hdone | done j pend Hk Hdone Hj Hpend];
    cbn [processing_flag].
  - now apply active_idle.
  - rewrite active_busy by assumption.
    now destruct (count_busy done j pend Hdone Hj Hpend) as [-> _].
Qed.

(** One round of the loop: the awaited job is finished, and one job less
    is pending or in work. *)
Lemma resume_progress (q : InMemoryQueue) (o : Settled) (now : N) :
  shape q -> loops q <> [] ->
  shape (resume 0 o now q) /\
  active (resume 0 o now q) + 1 = active q /\
  count_status pending (resume 0 o now q) = pred (count_status pending q) /\
  map fst (jobs (resume 0 o now q)) = map fst (jobs q) /\
  (forall j, In j (loops q) ->
     status_of (QueueJob.id j) (resume 0 o now q) = Some (outcome_status o)).
Proof.
  intros Hs Hl.
  assert (Hs' : shape (resume 0 o now q)).
  { apply (step_shape q); [assumption|]. apply step_resume.
    destruct (loops q); [congruence | simpl; lia]. }
  split; [assumption|].
  rewrite (shape_active _ Hs'), (shape_active _ Hs). clear Hs'.
  destruct Hs as [done Hk Hdone | done j pend Hk Hdone Hj Hpend];
    [simpl in Hl; congruence|].
  pose proof (keys_ok_middle _ _ _ _ Hk) as Hn.
  destruct (count_busy done j pend Hdone Hj Hpend) as [Hc _]. rewrite Hc.
  destruct pend as [|[k p] pend].
  - rewrite resume_last by assumption. cbn [processing_flag loops jobs].
    assert (Hdone' : all_status terminal
              (done ++ [(QueueJob.id j, with_status (outcome_status o) (Some now) j)])).
    { apply Forall_app. split; auto. constructor; [|constructor].
      destruct o; reflexivity. }
    destruct (count_idle _ Hdone') as [-> _].
    repeat split; try reflexivity.
    + now rewrite !map_app.
    + intros j0 [<-|[]]. unfold status_of, getJob. cbn [jobs].
      now rewrite map_get_middle.
  - assert (Hkp : QueueJob.id p = k).
    { destruct Hk as [_ Hf]. apply Forall_app in Hf. destruct Hf as [_ Hf].
      inversion Hf as [|? ? _ Hf']; subst. now inversion Hf'. }
    subst k.
    assert (Hp : QueueJob.status p = pending).
    { inversion Hpend as [|? ? Hp _]; subst. simpl in Hp.
      destruct (QueueJob.status p); try discriminate; reflexivity. }
    rewrite resume_next by assumption. cbn [processing_flag loops jobs].
    set (j' := with_status (outcome_status o) (Some now) j).
    set (p' := with_status processing None p).
    assert (Hdone' : all_status terminal (done ++ [(QueueJob.id j, j')])).
    { apply Forall_app. split; auto. constructor; [|constructor].
      unfold j'. destruct o; reflexivity. }
    assert (Hpend' : all_status (Status_eqb pending) pend) by now inversion Hpend.
    change (QueueJob.id p) with (QueueJob.id p').
    destruct (count_busy _ p' pend Hdone' eq_refl Hpend') as [-> _].
    repeat split; try (simpl; lia).
    + rewrite !map_app. simpl. rewrite <- app_assoc. reflexivity.
    + intros j0 [<-|[]]. unfold status_of, getJob. cbn [jobs].
      rewrite <- app_assoc. simpl. now rewrite map_get_middle.
Qed.

Lemma drain_shape (outcomes : list (Settled * N)) :
  forall q, shape q -> length outcomes = active q ->
    processing_flag (drain outcomes q) = false /\
    loops (drain outcomes q) = [] /\
    Forall (fun st => terminal st = true) (statuses (drain outcomes q)) /\
    map fst (jobs (drain outcomes q)) = map fst (jobs q).
Proof.
  induction outcomes as [|[o now] outcomes IH]; intros q Hs Hlen; simpl in *.
  - rewrite (shape_active _ Hs) in Hlen.
    destruct Hs as [done Hk Hdone | done j pend Hk Hdone Hj Hpend];
      cbn [processing_flag] in Hlen; [|discriminate].
    repeat split. unfold statuses, map_values. cbn [jobs].
    unfold all_status in Hdone. rewrite Forall_forall in *.
    intros st Hst. apply in_map_iff in Hst. destruct Hst as (v & <- & Hv).
    apply in_map_iff in Hv. destruct Hv as (kv & <- & Hkv). now apply Hdone.
  - assert (Hl : loops q <> []).
    { rewrite (shape_active _ Hs) in Hlen.
      destruct Hs; cbn [processing_flag loops] in *; [discriminate | congruence]. }
    destruct (resume_progress q o now Hs Hl) as (Hs' & Hact & _ & Hkeys & _).
    destruct (IH (resume 0 o now q) Hs') as (H1 & H2 & H3 & H4); [lia|].
    repeat split; auto. congruence.
Qed.

(** C10.  In every state the queue reaches, with an activation of the
    drain loop suspended: when the awaited job body settles, the awaited
    job gets a final status, the number of pending jobs goes down by one
    (if there was one) and so does the number of jobs not yet finished;
    and when as many job bodies settle as there are jobs not yet finished,
    the loop has ended with the flag reset, no activation left and every
    job finished. *)
Theorem drain_loop_terminates (q : InMemoryQueue) :
  reachable q ->
  (forall o now, loops q <> [] ->
     active (resume 0 o now q) + 1 = active q /\
     count_status pending (resume 0 o now q) = pred (count_status pending q) /\
     (forall j, In j (loops q) ->
        option_map terminal (status_of (QueueJob.id j) (resume 0 o now q))
          = Some true)) /\
  (forall outcomes, length outcomes = active q ->
     processing_flag (drain outcomes q) = false /\
     loops (drain outcomes q) = [] /\
     count_status pending (drain outcomes q) = 0 /\
     Forall (fun st => terminal st = true) (statuses (drain outcomes q)) /\
     map fst (jobs (drain outcomes q)) = map fst (jobs q)).
Proof.
  intros Hr. apply reachable_shape in Hr. split.
  - intros o now Hl.
    destruct (resume_progress q o now Hr Hl) as (_ & H1 & H2 & _ & H3).
    repeat split; auto.
    intros j Hj. rewrite (H3 j Hj). now destruct o.
  - intros outcomes Hlen.
    destruct (drain_shape outcomes q Hr Hlen) as (H1 & H2 & H3 & H4).
    repeat split; auto.
    unfold count_status. induction H3 as [|st l Hst _ IH]; [reflexivity|].
    simpl. destruct st; try discriminate; simpl; assumption.
Qed.

(** * The status machine of the queue *)

Lemma status_of_In (q : InMemoryQueue) (id : string) (v : QueueJob.t) :
  keys_ok (jobs q) -> In (id, v) (jobs q) ->
  status_of id q = Some (QueueJob.status v).
Proof.
  intros Hk Hin. unfold status_of, getJob. now rewrite (keys_ok_In _ _ _ Hk Hin).
Qed.

Lemma status_of_Some (q : InMemoryQueue) (id : string) (st : Status) :
  status_of id q = Some st ->
  exists v, In (id, v) (jobs q) /\ QueueJob.status v = st.
Proof.
  unfold status_of, getJob. destruct (map_get id (jobs q)) as [v|] eqn:E; [|discriminate].
  intros H. inversion H; subst. exists v. split; [now apply map_get_In | reflexivity].
Qed.

Lemma Status_le_trans (a b c : Status) :
  Status_le a b = true -> Status_le b c = true -> Status_le a c = true.
Proof. destruct a, b, c; simpl; intros; try discriminate; reflexivity. Qed.

Lemma Status_le_terminal (a b : Status) :
  terminal a = true -> Status_le a b = true -> b = a.
Proof. destruct a, b; simpl; intros; try discriminate; reflexivity. Qed.

(** A step of the queue leaves the status of a job as it is or moves it
    along one transition of the status machine. *)
Lemma step_status (q q' : InMemoryQueue) (id : string) (st : Status) :
  shape q -> step q q' -> status_of id q = Some st ->
  exists st', status_of id q' = Some st' /\
              (st' = st \/ Status_next st st' = true).
Proof.
  intros Hs Hstep Hst.
  pose proof (shape_keys_ok _ (step_shape _ _ Hs Hstep)) as Hk'.
  apply status_of_Some in Hst. destruct Hst as (v & Hin & <-).
  destruct Hstep as [id0 data now q Hfresh | i o now q Hi].
  - exists (QueueJob.status v). split; [|now left].
    apply status_of_In; [assumption|].
    destruct Hs as [done Hk Hdone | done j pend Hk Hdone Hj Hpend];
      cbn [jobs] in *.
    + rewrite addJob_idle by assumption. cbn [jobs]. apply in_or_app. now left.
    + rewrite addJob_busy by assumption. cbn [jobs]. apply in_or_app. now left.
  - destruct Hs as [done Hk Hdone | done j pend Hk Hdone Hj Hpend];
      [simpl in Hi; lia|].
    cbn [loops length] in Hi. assert (i = 0) by lia. subst i.
    cbn [jobs] in Hin.
    destruct pend as [|[k p] pend].
    + rewrite resume_last in * by assumption. cbn [jobs] in *.
      apply in_app_or in Hin. destruct Hin as [Hin|[Hin|[]]].
      * exists (QueueJob.status v). split; [|now left].
        apply status_of_In; [assumption|]. cbn [jobs]. apply in_or_app. now left.
      * inversion Hin; subst. exists (outcome_status o). split.
        -- rewrite (status_of_In _ _ (with_status (outcome_status o) (Some now) v));
             [reflexivity | assumption |].
           cbn [jobs]. apply in_or_app. right. now left.
        -- right. rewrite Hj. now destruct o.
    + assert (Hkp : QueueJob.id p = k).
      { destruct Hk as [_ Hf]. apply Forall_app in Hf. destruct Hf as [_ Hf].
        inversion Hf as [|? ? _ Hf']; subst. now inversion Hf'. }
      subst k.
      assert (Hp : QueueJob.status p = pending).
      { inversion Hpend as [|? ? Hp _]; subst. simpl in Hp.
        destruct (QueueJob.status p); try discriminate; reflexivity. }
      rewrite resume_next in * by assumption. cbn [jobs] in *.
      apply in_app_or in Hin. destruct Hin as [Hin|[Hin|[Hin|Hin]]].
      * exists (QueueJob.status v). split; [|now left].
        apply status_of_In; [assumption|]. cbn [jobs].
        apply in_or_app. left. apply in_or_app. now left.
      * inversion Hin; subst. exists (outcome_status o). split.
        -- rewrite (status_of_In _ _ (with_status (outcome_status o) (Some now) v));
             [reflexivity | assumption |].
           cbn [jobs]. apply in_or_app. left. apply in_or_app. right. now left.
        -- right. rewrite Hj. now destruct o.
      * inversion Hin; subst. exists processing. split.
        -- rewrite (status_of_In _ _ (with_status processing None v));
             [reflexivity | assumption |].
           cbn [jobs]. apply in_or_app. right. now left.
        -- right. now rewrite Hp.
      * exists (QueueJob.status v). split; [|now left].
        apply status_of_In; [assumption|]. cbn [jobs].
        apply in_or_app. right. now right.
Qed.

Lemma steps_status (q q' : InMemoryQueue) :
  steps q q' -> shape q ->
  forall id st, status_of id q = Some st ->
    exists st', status_of id q' = Some st' /\ Status_le st st' = true.
Proof.
  induction 1 as [q | q q1 q2 Hstep _ IH]; intros Hs id st Hst.
  - exists st. split; [assumption | now destruct st].
  - destruct (step_status _ _ id st Hs Hstep Hst) as (st1 & H1 & Hn).
    destruct (IH (step_shape _ _ Hs Hstep) id st1 H1) as (st2 & H2 & Hle).
    exists st2. split; [assumption|].
    apply (Status_le_trans st st1 st2); [|assumption].
    destruct Hn as [->|Hn]; [now destruct st | now destruct st, st1].
Qed.

(** * Archive jobs *)

Lemma add_file_fold (db : Database) (existsSync : string -> bool) (userId : string)
  (fileIds : list string) :
  forall archive,
    fold_left (add_file db existsSync userId) fileIds archive
      = archive ++ map entry_of (included db existsSync userId fileIds).
Proof.
  induction fileIds as [|fileId fileIds IH]; intros archive; simpl.
  - now rewrite app_nil_r.
  - rewrite IH. unfold add_file, included. simpl.
    destruct (DatabaseOps.getFileById fileId db) as [file|]; [|reflexivity].
    destruct ((DbFile.user_id file =? userId) && existsSync (DbFile.path file));
      [|reflexivity].
    simpl. now rewrite <- app_assoc.
Qed.

(** The handlers leave the archive as the loop built it, and keep the
    tables of files. *)
Lemma on_event_fold (jobId : string) (events : list (ZipEvent * N)) :
  forall r,
    run_entries (fold_left (on_event jobId) events r) = run_entries r /\
    run_zipPath (fold_left (on_event jobId) events r) = run_zipPath r /\
    files (run_db (fold_left (on_event jobId) events r)) = files (run_db r).
Proof.
  induction events as [|ev events IH]; intros r; simpl; [auto|].
  destruct (IH (on_event jobId r ev)) as (-> & -> & ->).
  unfold on_event. destruct (fst ev); auto.
Qed.

Lemma getZipJobById_update (id jobId : string) (st : Status)
  (downloadUrl : option string) (now : N) (db : Database) :
  DatabaseOps.getZipJobById jobId
    (DatabaseOps.updateZipJobStatus id st downloadUrl now db)
  = option_map
      (fun j =>
         if ZipJob.id j =? id then
           if truthy downloadUrl then
             ZipJob.mk (ZipJob.id j) (ZipJob.user_id j) (ZipJob.file_ids j)
                       st downloadUrl (ZipJob.created_at j) (Some now)
           else
             ZipJob.mk (ZipJob.id j) (ZipJob.user_id j) (ZipJob.file_ids j)
                       st (ZipJob.download_url j) (ZipJob.created_at j)
                       (ZipJob.completed_at j)
         else j)
      (DatabaseOps.getZipJobById jobId db).
Proof.
  unfold DatabaseOps.getZipJobById, DatabaseOps.updateZipJobStatus. simpl.
  induction (zip_jobs db) as [|j l IH]; simpl; [reflexivity|].
  destruct (ZipJob.id j =? id) eqn:E; [destruct (truthy downloadUrl)|]; simpl;
    destruct (ZipJob.id j =? jobId); simpl; rewrite ?E; auto.
Qed.

Lemma getZipJobById_id (jobId : string) (db : Database) (j : ZipJob.t) :
  DatabaseOps.getZipJobById jobId db = Some j -> ZipJob.id j = jobId.
Proof.
  unfold DatabaseOps.getZipJobById. intros H. apply find_some in H.
  now apply String.eqb_eq.
Qed.

Lemma truthy_url (jobId : string) : truthy (Some ("/api/zip/" +++ jobId)) = true.
Proof. reflexivity. Qed.

(** C5.  The archive that [processZipFiles] builds has one entry for each
    requested file that passes the three checks (its row exists, the row
    belongs to the job's owner, its file is on disk), in the order of the
    request, read from the file's path and named by the file's name; a
    requested id that fails a check adds nothing, whatever the events of
    the run are.  When the run then meets the close of the output only,
    the promise resolves with the download url and the job's row is
    completed with that url. *)
Theorem processZipFiles_archive_entries
  (fileIds : list string) (userId jobId : string)
  (existsSync : string -> bool) (db : Database) :
  (forall events,
     run_entries (processZipFiles fileIds userId jobId existsSync events db)
       = map entry_of (included db existsSync userId fileIds)) /\
  (forall file,
     In file (included db existsSync userId fileIds) <->
     exists fileId,
       In fileId fileIds /\
       DatabaseOps.getFileById fileId db = Some file /\
       DbFile.user_id file = userId /\
       existsSync (DbFile.path file) = true) /\
  (forall now j,
     DatabaseOps.getZipJobById jobId db = Some j ->
     run_promise (processZipFiles fileIds userId jobId existsSync
                                  [(OutputClose, now)] db)
       = Some (Resolved ("/api/zip/" +++ jobId)) /\
     option_map (fun j' => (ZipJob.status j', ZipJob.download_url j'))
       (DatabaseOps.getZipJobById jobId
          (run_db (processZipFiles fileIds userId jobId existsSync
                                   [(OutputClose, now)] db)))
       = Some (completed, Some ("/api/zip/" +++ jobId))).
Proof.
  split; [|split].
  - intros events. unfold processZipFiles.
    destruct (on_event_fold jobId events
                (mkZipRun db None ("zips/" +++ jobId +++ ".zip")
                   (fold_left (add_file db existsSync userId) fileIds [])))
      as (-> & _). simpl. apply add_file_fold.
  - intros file. unfold included. rewrite in_flat_map. split.
    + intros (fileId & Hin & H). exists fileId.
      destruct (DatabaseOps.getFileById fileId db) as [f|]; [|destruct H].
      destruct ((DbFile.user_id f =? userId) && existsSync (DbFile.path f)) eqn:E;
        [|destruct H].
      destruct H as [<-|[]]. apply andb_true_iff in E. destruct E as [E1 E2].
      apply String.eqb_eq in E1. auto.
    + intros (fileId & Hin & Hget & Hu & He). exists fileId. split; [assumption|].
      rewrite Hget, Hu, String.eqb_refl, He. now left.
  - intros now j Hj. unfold processZipFiles. simpl. split; [reflexivity|].
    rewrite getZipJobById_update, Hj. simpl.
    rewrite (getZipJobById_id _ _ _ Hj), String.eqb_refl. reflexivity.
Qed.

Lemma processZipFiles_archive_entries_witness :
  run_entries (processZipFiles ["a"; "b"; "c"] "u1" "job1" all_on_disk
                               [(OutputClose, 9%N)] zip_db)
    = [mkEntry "uploads/a.pdf" "a.pdf"; mkEntry "uploads/c.pdf" "c.pdf"] /\
  run_promise (processZipFiles ["a"; "b"; "c"] "u1" "job1" all_on_disk
                               [(OutputClose, 9%N)] zip_db)
    = Some (Resolved "/api/zip/job1") /\
  option_map (fun j' => (ZipJob.status j', ZipJob.download_url j'))
    (DatabaseOps.getZipJobById "job1"
       (run_db (processZipFiles ["a"; "b"; "c"] "u1" "job1" all_on_disk
                                [(OutputClose, 9%N)] zip_db)))
    = Some (completed, Some "/api/zip/job1").
Proof.
  split.
  - exact (proj1 (processZipFiles_archive_entries
                    ["a"; "b"; "c"] "u1" "job1" all_on_disk zip_db)
                 [(OutputClose, 9%N)]).
  - exact (proj2 (proj2 (processZipFiles_archive_entries
                           ["a"; "b"; "c"] "u1" "job1" all_on_disk zip_db))
                 9%N job1 eq_refl).
Defined.

(** A run of failures only: the row of the job, if there is one, has
    status failed and is otherwise as before, and the promise is
    rejected. *)
Lemma failures_only (jobId : string) (events : list (ZipEvent * N)) :
  Forall (fun ev => fst ev <> OutputClose) events ->
  forall r j,
    DatabaseOps.getZipJobById jobId (run_db r) = Some j ->
    exists st,
      DatabaseOps.getZipJobById jobId
        (run_db (fold_left (on_event jobId) events r))
      = Some (ZipJob.mk (ZipJob.id j) (ZipJob.user_id j) (ZipJob.file_ids j)
                        st (ZipJob.download_url j) (ZipJob.created_at j)
                        (ZipJob.completed_at j)) /\
      (events <> [] -> st = failed) /\
      (events = [] -> st = ZipJob.status j) /\
      (events <> [] -> run_promise r = None ->
       run_promise (fold_left (on_event jobId) events r) = Some Rejected) /\
      (run_promise r = Some Rejected ->
       run_promise (fold_left (on_event jobId) events r) = Some Rejected).
Proof.
  induction 1 as [|ev events Hev _ IH]; intros r j Hj; simpl.
  - exists (ZipJob.status j). destruct j; simpl in *. repeat split; auto; congruence.
  - set (j1 := ZipJob.mk (ZipJob.id j) (ZipJob.user_id j) (ZipJob.file_ids j)
                         failed (ZipJob.download_url j) (ZipJob.created_at j)
                         (ZipJob.completed_at j)).
    assert (H1 : DatabaseOps.getZipJobById jobId (run_db (on_event jobId r ev)) = Some j1
                 /\ run_promise (on_event jobId r ev) = settle_with Rejected (run_promise r)).
    { assert (Hid : (ZipJob.id j =? jobId) = true)
        by (apply String.eqb_eq; eapply getZipJobById_id; eauto).
      unfold on_event. destruct (fst ev) eqn:E; [congruence| |];
        cbn [run_db run_promise];
        rewrite getZipJobById_update, Hj; cbn [option_map truthy];
        rewrite Hid; (split; reflexivity). }
    destruct H1 as [H1 Hp].
    destruct (IH _ _ H1) as (st & Hget & Hne & He & Hpr & Hrej).
    exists st. simpl in Hget. repeat split.
    + exact Hget.
    + intros _. destruct events as [|e es]; [now apply He | apply Hne; discriminate].
    + discriminate.
    + intros _ Hnone. rewrite Hp, Hnone in *. simpl in *. now apply Hrej.
    + intros Hr. rewrite Hp, Hr in *. simpl in *. now apply Hrej.
Qed.

(** Against C7 as stated.  The failing run of a job whose row has no
    handle: status failed, [completed_at] still unset. *)
Lemma failed_job_counterexample :
  DatabaseOps.getZipJobById "job1"
    (run_db (processZipFiles ["a"; "b"; "c"] "u1" "job1" all_on_disk
                             [(Thrown, 9%N)] zip_db))
    = Some (ZipJob.mk "job1" "u1" "[a,b,c]" failed None 4 None) /\
  ~ failed_job_has_completed_at.
Proof.
  split; [reflexivity|].
  intros H.
  destruct (H ["a"; "b"; "c"] "u1" "job1" all_on_disk Thrown 9%N zip_db job1
              (or_intror eq_refl) eq_refl eq_refl) as (j' & Hget & _ & Hc & _).
  vm_compute in Hget. inversion Hget; subst. now apply Hc.
Qed.

(** C7, as the code has it.  When the run of [processZipFiles] for a job
    meets failures only (the archive's ['error'] or an exception, and no
    ['close'] of the output), the job's row ends with status failed and
    the promise is rejected; [download_url] and [completed_at] are left as
    they were, so a row inserted by [createZipJob] without a url has
    neither a url nor a [completed_at] afterwards. *)
Theorem failed_job_record
  (fileIds : list string) (userId jobId : string)
  (existsSync : string -> bool) (events : list (ZipEvent * N)) (db : Database) :
  events <> [] ->
  Forall (fun ev => fst ev <> OutputClose) events ->
  (forall j,
     DatabaseOps.getZipJobById jobId db = Some j ->
     DatabaseOps.getZipJobById jobId
       (run_db (processZipFiles fileIds userId jobId existsSync events db))
     = Some (ZipJob.mk (ZipJob.id j) (ZipJob.user_id j) (ZipJob.file_ids j)
                       failed (ZipJob.download_url j) (ZipJob.created_at j)
                       (ZipJob.completed_at j)) /\
     run_promise (processZipFiles fileIds userId jobId existsSync events db)
     = Some Rejected) /\
  (forall user_id file_ids st now db0 row,
     DatabaseOps.createZipJob jobId user_id file_ids st None now db0 = Ok (row, db) ->
     option_map (fun j' => (ZipJob.status j', ZipJob.download_url j',
                            ZipJob.completed_at j'))
       (DatabaseOps.getZipJobById jobId
          (run_db (processZipFiles fileIds userId jobId existsSync events db)))
     = Some (failed, None, None)).
Proof.
  intros Hne Hall.
  assert (Hmain : forall j,
     DatabaseOps.getZipJobById jobId db = Some j ->
     DatabaseOps.getZipJobById jobId
       (run_db (processZipFiles fileIds userId jobId existsSync events db))
     = Some (ZipJob.mk (ZipJob.id j) (ZipJob.user_id j) (ZipJob.file_ids j)
                       failed (ZipJob.download_url j) (ZipJob.created_at j)
                       (ZipJob.completed_at j)) /\
     run_promise (processZipFiles fileIds userId jobId existsSync events db)
     = Some Rejected).
  { intros j Hj. unfold processZipFiles.
    set (r0 := mkZipRun db None _ _).
    destruct (failures_only jobId events Hall r0 j Hj)
      as (st & Hget & Hst & _ & Hpr & _).
    rewrite (Hst Hne) in Hget. split; [exact Hget | now apply Hpr]. }
  split; [exact Hmain|].
  intros user_id file_ids st now db0 row Hc.
  unfold DatabaseOps.createZipJob in Hc.
  destruct (existsb _ (zip_jobs db0)) eqn:Ex; [discriminate|].
  inversion Hc; subst; clear Hc.
  pose (row := ZipJob.mk jobId user_id file_ids st None now None).
  assert (Hrow : DatabaseOps.getZipJobById jobId
                   (mkDatabase (files db0) (zip_jobs db0 ++ [row])) = Some row).
  { unfold DatabaseOps.getZipJobById. cbn [zip_jobs].
    revert Ex. generalize (zip_jobs db0). intros l.
    induction l as [|a l IH]; simpl; intros Ex.
    - now rewrite String.eqb_refl.
    - apply orb_false_iff in Ex. destruct Ex as [-> Ex]. auto. }
  destruct (Hmain row Hrow) as [-> _]. reflexivity.
Qed.

Lemma failed_job_record_witness :
  DatabaseOps.getZipJobById "job1"
    (run_db (processZipFiles ["a"; "b"; "c"] "u1" "job1" all_on_disk
                             [(ArchiveError, 8%N); (Thrown, 9%N)] zip_db))
    = Some (ZipJob.mk "job1" "u1" "[a,b,c]" failed None 4 None) /\
  run_promise (processZipFiles ["a"; "b"; "c"] "u1" "job1" all_on_disk
                               [(ArchiveError, 8%N); (Thrown, 9%N)] zip_db)
    = Some Rejected.
Proof.
  refine (proj1 (failed_job_record ["a"; "b"; "c"] "u1" "job1" all_on_disk
                   [(ArchiveError, 8%N); (Thrown, 9%N)] zip_db _ _) job1 eq_refl).
  - discriminate.
  - repeat constructor; discriminate.
Defined.

(** Against C4 as stated.  The row of a job after the archive's ['error']
    and the output's ['close'], in this order: failed, then completed.  In
    the engine the promise was rejected by the first event, so the queue
    record of the job is failed while its row is completed with a
    download url. *)
Lemma zip_status_counterexample :
  zip_status "job1"
    (run_db (processZipFiles ["a"; "b"; "c"] "u1" "job1" all_on_disk
                             [(ArchiveError, 8%N)] zip_db))
    = Some failed /\
  zip_status "job1"
    (run_db (processZipFiles ["a"; "b"; "c"] "u1" "job1" all_on_disk
                             [(ArchiveError, 8%N); (OutputClose, 9%N)] zip_db))
    = Some completed /\
  status_of "job1"
    (fst (run_job_body 0 all_on_disk [(ArchiveError, 8%N); (OutputClose, 9%N)]
                       10 engine1))
    = Some failed /\
  option_map (fun j => (ZipJob.status j, ZipJob.download_url j))
    (DatabaseOps.getZipJobById "job1"
       (snd (run_job_body 0 all_on_disk [(ArchiveError, 8%N); (OutputClose, 9%N)]
                          10 engine1)))
    = Some (completed, Some "/api/zip/job1") /\
  ~ zip_status_final.
Proof.
  repeat split; try reflexivity.
  intros H.
  specialize (H ["a"; "b"; "c"] "u1" "job1" all_on_disk
                [(ArchiveError, 8%N)] [(OutputClose, 9%N)] zip_db failed
                eq_refl eq_refl).
  vm_compute in H. discriminate.
Qed.

(** C4, as the code has it.  In every state the queue reaches, a step of
    the engine (a submission under an id not in use, or the settling of an
    awaited job body) leaves the status of a job's queue record as it is or
    moves it along pending -> processing -> completed | failed; over any
    number of steps the status only moves forward, and a record that is
    completed or failed keeps its status.  The two update operations
    themselves store whatever status they are given, whatever the status
    was; every update of [processZipFiles] to the job's row in [zip_jobs]
    writes completed or failed. *)
Theorem queue_status_monotone (q : InMemoryQueue) :
  reachable q ->
  (forall q' id st,
     step q q' -> status_of id q = Some st ->
     exists st', status_of id q' = Some st' /\
                 (st' = st \/ Status_next st st' = true)) /\
  (forall q' id st,
     steps q q' -> status_of id q = Some st ->
     exists st', status_of id q' = Some st' /\ Status_le st st' = true /\
                 (terminal st = true -> st' = st)) /\
  (forall id st processedAt,
     status_of id q <> None ->
     status_of id (updateJobStatus id st processedAt q) = Some st) /\
  (forall jobId st downloadUrl now db,
     zip_status jobId db <> None ->
     zip_status jobId (DatabaseOps.updateZipJobStatus jobId st downloadUrl now db)
       = Some st) /\
  (forall jobId r ev j,
     DatabaseOps.getZipJobById jobId (run_db r) = Some j ->
     option_map (fun j' => terminal (ZipJob.status j'))
       (DatabaseOps.getZipJobById jobId (run_db (on_event jobId r ev)))
     = Some true).
Proof.
  intros Hr. apply reachable_shape in Hr. split; [|split; [|split; [|split]]].
  - intros q' id st Hstep Hst. now apply (step_status q q').
  - intros q' id st Hsteps Hst.
    destruct (steps_status q q' Hsteps Hr id st Hst) as (st' & H1 & H2).
    exists st'. repeat split; auto.
    intros Ht. now apply Status_le_terminal.
  - intros id st processedAt Hsome. unfold status_of, getJob, updateJobStatus in *.
    destruct (map_get id (jobs q)) as [job|]; [|simpl in Hsome; congruence].
    cbn [jobs]. now rewrite map_get_set.
  - intros jobId st downloadUrl now db Hsome. unfold zip_status in *.
    rewrite getZipJobById_update.
    destruct (DatabaseOps.getZipJobById jobId db) as [j|] eqn:Hj;
      [|simpl in Hsome; congruence].
    cbn [option_map]. rewrite (getZipJobById_id _ _ _ Hj), String.eqb_refl.
    now destruct (truthy downloadUrl).
  - intros jobId r ev j Hj. unfold on_event.
    destruct (fst ev); simpl; rewrite getZipJobById_update, Hj; simpl;
      rewrite (getZipJobById_id _ _ _ Hj), String.eqb_refl; reflexivity.
Qed.

(** * The theorems on a queue with two jobs *)

Lemma queue_single_flight_fifo_witness :
  length (loops two_jobs) <= 1 /\
  count_status processing two_jobs <= 1 /\
  (forall l1 k1 j1 l2 k2 j2 l3,
     jobs two_jobs = l1 ++ (k1, j1) :: l2 ++ (k2, j2) :: l3 ->
     QueueJob.status j2 <> pending ->
     terminal (QueueJob.status j1) = true).
Proof.
  assert (Hr : reachable two_jobs).
  { unfold two_jobs.
    apply reach_step with (q := addJob "j1" zip (mkJobData ["a"; "b"] "u1") 1 new_InMemoryQueue).
    - apply reach_step with (q := new_InMemoryQueue).
      + apply reach_new.
      + apply step_submit. reflexivity.
    - apply step_submit. reflexivity. }
  destruct (queue_single_flight_fifo two_jobs Hr) as (H1 & _ & H3 & H4 & _).
  repeat split; assumption.
Defined.

Lemma drain_loop_terminates_witness :
  processing_flag (drain [(Resolved "/api/zip/j1", 5%N); (Rejected, 6%N)] two_jobs)
    = false /\
  loops (drain [(Resolved "/api/zip/j1", 5%N); (Rejected, 6%N)] two_jobs) = [] /\
  count_status pending (drain [(Resolved "/api/zip/j1", 5%N); (Rejected, 6%N)] two_jobs)
    = 0.
Proof.
  assert (Hr : reachable two_jobs).
  { unfold two_jobs.
    apply reach_step with (q := addJob "j1" zip (mkJobData ["a"; "b"] "u1") 1 new_InMemoryQueue).
    - apply reach_step with (q := new_InMemoryQueue).
      + apply reach_new.
      + apply step_submit. reflexivity.
    - apply step_submit. reflexivity. }
  destruct (proj2 (drain_loop_terminates two_jobs Hr)
              [(Resolved "/api/zip/j1", 5%N); (Rejected, 6%N)] eq_refl)
    as (H1 & H2 & H3 & _).
  repeat split; assumption.
Defined.

Lemma queue_status_monotone_witness :
  exists st',
    status_of "j1" (resume 0 Rejected 6 (resume 0 (Resolved "/api/zip/j1") 5 two_jobs))
      = Some st' /\
    Status_le completed st' = true /\
    (terminal completed = true -> st' = completed).
Proof.
  assert (Hr : reachable (resume 0 (Resolved "/api/zip/j1") 5 two_jobs)).
  { apply reach_step with (q := two_jobs).
    - unfold two_jobs.
      apply reach_step with (q := addJob "j1" zip (mkJobData ["a"; "b"] "u1") 1 new_InMemoryQueue).
      + apply reach_step with (q := new_InMemoryQueue).
        * apply reach_new.
        * apply step_submit. reflexivity.
      + apply step_submit. reflexivity.
    - apply step_resume. vm_compute. lia. }
  refine (proj1 (proj2 (queue_status_monotone _ Hr))
            (resume 0 Rejected 6 (resume 0 (Resolved "/api/zip/j1") 5 two_jobs))
            "j1" completed _ _).
  - eapply steps_step; [|apply steps_refl].
    apply step_resume. vm_compute. lia.
  - reflexivity.
Defined.

(** * Sorting and paging *)

Section OrderBy.
Context {A : Type} (le : A -> A -> bool).

Lemma insert_sorted_In (x y : A) (l : list A) :
  In y (insert_sorted le x l) <-> y = x \/ In y l.
Proof.
  induction l as [|z l IH]; simpl.
  - intuition.
  - destruct (le x z); simpl; [intuition|]. rewrite IH. intuition.
Qed.

Lemma order_by_In (y : A) (l : list A) : In y (order_by le l) <-> In y l.
Proof.
  induction l as [|x l IH]; simpl; [tauto|].
  rewrite insert_sorted_In, IH. intuition.
Qed.

Lemma insert_sorted_length (x : A) (l : list A) :
  length (insert_sorted le x l) = S (length l).
Proof.
  induction l as [|z l IH]; simpl; [reflexivity|].
  destruct (le x z); simpl; auto.
Qed.

Lemma order_by_length (l : list A) : length (order_by le l) = length l.
Proof.
  induction l as [|x l IH]; simpl; [reflexivity|].
  now rewrite insert_sorted_length, IH.
Qed.

Hypothesis le_total : forall a b, le a b = true \/ le b a = true.

Lemma insert_sorted_Sorted (x : A) (l : list A) :
  Sorted (fun a b => le a b = true) l ->
  Sorted (fun a b => le a b = true) (insert_sorted le x l).
Proof.
  induction 1 as [|z l Hs IH Hhd]; simpl.
  - repeat constructor.
  - destruct (le x z) eqn:E.
    + constructor; [constructor; assumption | constructor; assumption].
    + constructor; [assumption|].
      assert (Hzx : le z x = true) by (destruct (le_total x z); congruence).
      destruct l as [|w l]; simpl; [now constructor|].
      destruct (le x w); constructor; [assumption|].
      now inversion Hhd.
Qed.

Lemma order_by_Sorted (l : list A) :
  Sorted (fun a b => le a b = true) (order_by le l).
Proof.
  induction l as [|x l IH]; simpl; [constructor|].
  now apply insert_sorted_Sorted.
Qed.

Hypothesis le_trans : forall a b c, le a b = true -> le b c = true -> le a c = true.

(** In a sorted list every element of a front part stands before every
    element of the rest. *)
Lemma Sorted_front_rest (l1 l2 : list A) (a b : A) :
  Sorted (fun a b => le a b = true) (l1 ++ l2) ->
  In a l1 -> In b l2 -> le a b = true.
Proof.
  intros Hs Ha Hb. apply Sorted_StronglySorted in Hs.
  - induction l1 as [|x l1 IH]; [destruct Ha|].
    simpl in Hs. inversion Hs as [|? ? Hs' Hall]; subst.
    destruct Ha as [->|Ha]; [|now apply IH].
    rewrite Forall_forall in Hall. apply Hall. apply in_or_app. now right.
  - intros x y z. apply le_trans.
Qed.

End OrderBy.

Lemma range_length {A : Type} (offset limit : nat) (rows : list A) :
  length (range offset limit rows) <= limit.
Proof. unfold range. rewrite length_firstn. lia. Qed.

Lemma range_In {A : Type} (offset limit : nat) (rows : list A) (x : A) :
  In x (range offset limit rows) -> In x rows.
Proof.
  unfold range. intros H.
  rewrite <- (firstn_skipn offset rows). apply in_or_app. right.
  rewrite <- (firstn_skipn limit (skipn offset rows)). apply in_or_app. now left.
Qed.

Lemma range_Sorted {A : Type} (R : A -> A -> Prop) (offset limit : nat)
  (rows : list A) :
  Sorted R rows -> Sorted R (range offset limit rows).
Proof.
  unfold range. intros Hs.
  assert (Hskip : Sorted R (skipn offset rows)).
  { revert rows Hs. induction offset as [|n IH]; intros rows Hs; [assumption|].
    destruct rows as [|x rows]; [constructor|]. simpl. apply IH.
    now inversion Hs. }
  clear Hs. revert limit. generalize (skipn offset rows) Hskip. clear.
  induction 1 as [|x l Hs IH Hhd]; intros [|n]; simpl; try constructor.
  - apply IH.
  - destruct l as [|y l]; destruct n as [|n]; simpl; constructor.
    now inversion Hhd.
Qed.

Lemma range_all {A : Type} (limit : nat) (rows : list A) :
  length rows <= limit -> range 0 limit rows = rows.
Proof. unfold range. simpl. apply firstn_all2. Qed.

(** * Listings *)

Lemma folder_name_le_total (a b : Folder.t) :
  folder_name_le a b = true \/ folder_name_le b a = true.
Proof. apply String.leb_total. Qed.

Lemma file_name_le_total (a b : File.t) :
  file_name_le a b = true \/ file_name_le b a = true.
Proof. apply String.leb_total. Qed.

Lemma file_newer_total (a b : File.t) :
  file_newer a b = true \/ file_newer b a = true.
Proof.
  unfold file_newer.
  destruct (N.leb_spec (File.created_at b) (File.created_at a)); [now left|].
  right. apply N.leb_le. lia.
Qed.

Lemma file_newer_trans (a b c : File.t) :
  file_newer a b = true -> file_newer b c = true -> file_newer a c = true.
Proof. unfold file_newer. rewrite !N.leb_le. lia. Qed.

Lemma child_of_spec (parentId : option string) (f : Folder.t) :
  child_of parentId f = true <-> Folder.parent_id f = or_null parentId.
Proof.
  unfold child_of, or_null. destruct (truthy parentId) eqn:T.
  - destruct parentId as [q|]; [|discriminate].
    destruct (Folder.parent_id f) as [p|]; split; try discriminate.
    + intros E. apply String.eqb_eq in E. now subst.
    + intros E. inversion E. apply String.eqb_refl.
  - destruct (Folder.parent_id f); split; congruence.
Qed.

(** The rows of a page of [getFolders]. *)
Lemma getFolders_rows (parentId : option string) (limit offset : nat)
  (s : Supabase) :
  (forall f, In f (getFolders parentId limit offset s) ->
     In f (fm_folders s) /\ owns_folder s f = true /\
     Folder.parent_id f = or_null parentId) /\
  (length (fm_folders s) <= limit ->
   forall f, In f (fm_folders s) -> owns_folder s f = true ->
             Folder.parent_id f = or_null parentId ->
             In f (getFolders parentId limit 0 s)).
Proof.
  unfold getFolders. split.
  - intros f Hf. apply range_In, order_by_In, filter_In in Hf.
    destruct Hf as [Hin H]. apply andb_true_iff in H. destruct H as [Ho Hc].
    repeat split; auto. now apply child_of_spec.
  - intros Hlen f Hin Ho Hp. rewrite range_all.
    + apply order_by_In, filter_In. split; [assumption|].
      rewrite Ho. simpl. now apply child_of_spec.
    + rewrite order_by_length.
      eapply Nat.le_trans; [|exact Hlen].
      generalize (filter_split (fun f => owns_folder s f && child_of parentId f)
                               (fm_folders s)).
      generalize (length (filter (fun f => owns_folder s f && child_of parentId f)
                                 (fm_folders s))).
      intros n Hn. rewrite <- Hn. apply Nat.le_add_r.
Qed.

(** X1.  [getFolders] returns at most [limit] folders, each a folder of the
    signed-in user whose parent is the given one (a folder without parent
    when no parent id is given), in the order of their names; from offset 0
    and with a limit that covers the table it returns every such folder. *)
Theorem getFolders_page (parentId : option string) (limit offset : nat)
  (s : Supabase) :
  length (getFolders parentId limit offset s) <= limit /\
  (forall f, In f (getFolders parentId limit offset s) ->
     In f (fm_folders s) /\ owns_folder s f = true /\
     Folder.parent_id f = or_null parentId) /\
  Sorted (fun a b => String.leb (Folder.name a) (Folder.name b) = true)
         (getFolders parentId limit offset s) /\
  (length (fm_folders s) <= limit ->
   forall f, In f (fm_folders s) -> owns_folder s f = true ->
             Folder.parent_id f = or_null parentId ->
             In f (getFolders parentId limit 0 s)).
Proof.
  destruct (getFolders_rows parentId limit offset s) as [Hsound Hcomplete].
  split; [apply range_length|]. split; [exact Hsound|]. split; [|exact Hcomplete].
  unfold getFolders. apply range_Sorted.
  apply (order_by_Sorted folder_name_le folder_name_le_total).
Qed.

Lemma getFolders_page_witness :
  In root_row (getFolders None 50 0 scenario_backend).
Proof.
  refine (proj2 (proj2 (proj2 (getFolders_page None 50 0 scenario_backend)))
            _ root_row _ _ _).
  - vm_compute. lia.
  - vm_compute. tauto.
  - reflexivity.
  - reflexivity.
Defined.

(** X2.  A folder that [createFolder] has just created is listed by
    [getFolders] for the same parent argument (from offset 0, with a limit
    that covers the table), and is not listed for a different parent. *)
Theorem createFolder_then_getFolders (name : string) (parentId : option string)
  (newId : string) (now : N) (s : Supabase) (f : Folder.t) (s' : Supabase)
  (limit : nat) :
  createFolder name parentId newId now s = Ok (f, s') ->
  length (fm_folders s') <= limit ->
  In f (getFolders parentId limit 0 s') /\
  (forall other offset,
     or_null other <> or_null parentId ->
     ~ In f (getFolders other limit offset s')).
Proof.
  intros Hc Hlen.
  assert (Hc' := Hc). apply createFolder_Ok in Hc'.
  destruct Hc' as (Hs' & _ & _ & _ & Hpar & _).
  assert (Hown : owns_folder s' f = true).
  { unfold createFolder in Hc. destruct (getUser s) as [user|] eqn:U; [|discriminate].
    destruct (if truthy parentId then _ else _); [|discriminate].
    unfold insert_folder in Hc.
    destruct (negb (owns_folder s _)) eqn:O; [discriminate|].
    destruct (mem _ _); [discriminate|].
    destruct (match Folder.parent_id _ with Some _ => _ | None => _ end);
      [discriminate|].
    inversion Hc; subst. apply negb_false_iff in O. exact O. }
  split.
  - apply (proj2 (getFolders_rows parentId limit 0 s')); auto.
    subst s'. simpl. apply in_or_app. right. now left.
  - intros other offset Hne Hin.
    apply (proj1 (getFolders_rows other limit offset s')) in Hin.
    destruct Hin as (_ & _ & Hp). congruence.
Qed.

Lemma createFolder_then_getFolders_witness :
  In reports_row (getFolders (Some "docs") 50 0 scenario_backend).
Proof.
  refine (proj1 (createFolder_then_getFolders "Reports" (Some "docs") "reports" 3
                   (run_ops (firstn 2 scenario_ops) empty_backend)
                   reports_row scenario_backend 50 _ _)).
  - reflexivity.
  - vm_compute. lia.
Defined.

(** X3.  [getRecentFiles] returns at most [limit] files of the signed-in
    user, newest first, and they are the newest: a file of the user that is
    newer than a returned one is returned as well. *)
Theorem getRecentFiles_newest (limit : nat) (s : Supabase) :
  length (getRecentFiles limit s) <= limit /\
  (forall f, In f (getRecentFiles limit s) ->
     In f (fm_files s) /\ owns_file s f = true) /\
  Sorted (fun a b => (File.created_at b <= File.created_at a)%N)
         (getRecentFiles limit s) /\
  (forall f g,
     In f (getRecentFiles limit s) ->
     In g (fm_files s) -> owns_file s g = true ->
     (File.created_at f < File.created_at g)%N ->
     In g (getRecentFiles limit s)).
Proof.
  unfold getRecentFiles.
  set (rows := order_by file_newer (filter (owns_file s) (fm_files s))).
  assert (Hs : Sorted (fun a b => file_newer a b = true) rows)
    by apply (order_by_Sorted file_newer file_newer_total).
  split; [rewrite length_firstn; lia|]. split; [|split].
  - intros f Hf. apply (range_In 0 limit rows) in Hf.
    apply order_by_In, filter_In in Hf. exact Hf.
  - pose proof (range_Sorted _ 0 limit rows Hs) as H. unfold range in H. simpl in H.
    clear -H. induction H as [|x l _ IH Hhd]; constructor; auto.
    destruct Hhd as [|y l Hxy]; constructor.
    unfold file_newer in Hxy. now apply N.leb_le.
  - intros f g Hf Hg Ho Hlt.
    assert (Hgr : In g rows) by (apply order_by_In, filter_In; auto).
    rewrite <- (firstn_skipn limit rows) in Hgr, Hs.
    apply in_app_or in Hgr. destruct Hgr as [Hgr|Hgr]; [assumption|].
    pose proof (Sorted_front_rest file_newer file_newer_trans _ _ f g Hs Hf Hgr) as H.
    unfold file_newer in H. apply N.leb_le in H. lia.
Qed.

(** * What every run keeps *)

Lemma NoDup_map_inj {A B : Type} (key : A -> B) (rows : list A) (x y : A) :
  NoDup (map key rows) -> In x rows -> In y rows -> key x = key y -> x = y.
Proof.
  induction rows as [|r rows IH]; simpl; intros Hd Hx Hy E; [tauto|].
  inversion Hd as [|? ? Hfresh Hrest]; subst.
  destruct Hx as [->|Hx], Hy as [->|Hy]; auto.
  - exfalso. apply Hfresh. rewrite E. now apply in_map.
  - exfalso. apply Hfresh. rewrite <- E. now apply in_map.
Qed.

Lemma NoDup_map_select {A B : Type} (key : A -> B) (keep : A -> bool)
  (rows : list A) :
  NoDup (map key rows) -> NoDup (map key (filter keep rows)).
Proof.
  induction rows as [|r rows IH]; simpl; intros Hd; [constructor|].
  inversion Hd as [|? ? Hfresh Hrest]; subst.
  destruct (keep r); simpl; auto. constructor; auto.
  intros Hin. apply Hfresh. apply in_map_iff in Hin. destruct Hin as (y & <- & Hy).
  apply in_map. apply filter_In in Hy. tauto.
Qed.

Lemma NoDup_snoc {A : Type} (l : list A) (x : A) :
  NoDup l -> ~ In x l -> NoDup (l ++ [x]).
Proof.
  intros Hd Hx. apply NoDup_app; auto.
  - constructor; [simpl; tauto | constructor].
  - intros y Hy [<-|[]]. contradiction.
Qed.

(** A parent named by a row of the table is a row of the table. *)
Lemma tree_ok_parent (rows : list Folder.t) (f : Folder.t) (p : string) :
  tree_ok rows -> In f rows -> Folder.parent_id f = Some p ->
  In p (folder_ids rows).
Proof.
  intros [_ Hp] Hin E. destruct (in_split _ _ Hin) as (l1 & l2 & ->).
  specialize (Hp _ _ _ eq_refl). unfold parent_ok in Hp. rewrite E in Hp.
  destruct Hp as (g & Hg & <- & _). unfold folder_ids. apply in_map.
  apply in_or_app. now left.
Qed.

(** Appending a folder row under a fresh key, with no parent or with a
    parent of the same owner, keeps parents and children under one
    owner. *)
Lemma owner_snoc (rows : list Folder.t) (row : Folder.t) :
  tree_ok rows ->
  (forall f g, In f rows -> In g rows ->
     Folder.parent_id f = Some (Folder.id g) -> Folder.user_id f = Folder.user_id g) ->
  ~ In (Folder.id row) (folder_ids rows) ->
  (forall g, In g rows -> Folder.parent_id row = Some (Folder.id g) ->
             Folder.user_id row = Folder.user_id g) ->
  forall f g, In f (rows ++ [row]) -> In g (rows ++ [row]) ->
    Folder.parent_id f = Some (Folder.id g) -> Folder.user_id f = Folder.user_id g.
Proof.
  intros Hok Hold Hfresh Hnew f g Hf Hg E.
  apply in_app_or in Hf. apply in_app_or in Hg.
  destruct Hf as [Hf|[<-|[]]], Hg as [Hg|[<-|[]]]; auto.
  - exfalso. apply Hfresh. eapply tree_ok_parent; eauto.
Qed.

Lemma backend_ok_session (u : option string) (s : Supabase) :
  backend_ok s -> backend_ok (set_session u s).
Proof. intros [H1 H2 H3 H4 H5 H6 H7 H8]. constructor; assumption. Qed.

Lemma backend_ok_add_folder (s : Supabase) (row : Folder.t) :
  backend_ok s ->
  ~ In (Folder.id row) (folder_ids (fm_folders s)) ->
  parent_ok (fm_folders s) row ->
  (forall g, In g (fm_folders s) -> Folder.parent_id row = Some (Folder.id g) ->
             Folder.user_id row = Folder.user_id g) ->
  backend_ok (set_folders (fm_folders s ++ [row]) s).
Proof.
  intros [H1 H2 H3 H4 H5 H6 H7 H8] Hfresh Hpar Hown. constructor; simpl; auto.
  - now apply tree_ok_snoc.
  - intros x Hx. unfold files_ok, folder_ids in *. simpl. rewrite map_app.
    apply in_or_app. left. now apply H2.
  - now apply owner_snoc.
Qed.

Lemma createFolder_owned (name : string) (parentId : option string)
  (newId : string) (now : N) (s : Supabase) (f : Folder.t) (s' : Supabase) :
  createFolder name parentId newId now s = Ok (f, s') -> owns_folder s f = true.
Proof.
  unfold createFolder. destruct (getUser s) as [user|]; [|discriminate].
  destruct (if truthy parentId then _ else _); [|discriminate].
  unfold insert_folder.
  destruct (negb (owns_folder s _)) eqn:O; [discriminate|].
  destruct (mem _ _); [discriminate|].
  destruct (match Folder.parent_id _ with Some _ => _ | None => _ end);
    [discriminate|].
  intros H. inversion H; subst. now apply negb_false_iff in O.
Qed.

Lemma owns_folder_same (s : Supabase) (f g : Folder.t) :
  owns_folder s f = true -> owns_folder s g = true ->
  Folder.user_id f = Folder.user_id g.
Proof.
  unfold owns_folder. destruct (session s); [|discriminate].
  intros Hf Hg. apply String.eqb_eq in Hf, Hg. congruence.
Qed.

Lemma backend_ok_createFolder (name : string) (parentId : option string)
  (newId : string) (now : N) (s : Supabase) (f : Folder.t) (s' : Supabase) :
  backend_ok s -> createFolder name parentId newId now s = Ok (f, s') ->
  backend_ok s'.
Proof.
  intros Hok Hc. pose proof (createFolder_owned _ _ _ _ _ _ _ Hc) as Hown.
  apply createFolder_Ok in Hc.
  destruct Hc as (-> & Hnew & _ & _ & Hpar & Hyes & Hno).
  apply backend_ok_add_folder; auto.
  - unfold parent_ok. rewrite Hpar. unfold or_null.
    destruct (truthy parentId) eqn:T; [|auto].
    destruct (Hyes eq_refl) as (p & Hin & -> & _ & Hpath). exists p. auto.
  - intros g Hg Hpg. rewrite Hpar in Hpg. unfold or_null in Hpg.
    destruct (truthy parentId) eqn:T; [|discriminate].
    destruct (Hyes eq_refl) as (p & Hin & E & Hop & _).
    rewrite E in Hpg. inversion Hpg as [Hid].
    assert (p = g).
    { destruct Hok as [[Hd _] _ _ _ _ _ _ _].
      apply (NoDup_map_inj Folder.id (fm_folders s)); auto. }
    subst g. now apply owns_folder_same with (s := s).
Qed.

Lemma backend_ok_delete_folder (s : Supabase) (id : string) :
  backend_ok s -> backend_ok (delete_folder_rows s id).
Proof.
  intros Hok. pose proof Hok as [H1 H2 H3 H4 H5 H6 H7 H8].
  destruct (delete_folder_rows_spec s id)
    as (keep & dead & Hsurv & Hfiles & _ & _ & _ & _).
  assert (Hb : bucket (delete_folder_rows s id) = bucket s).
  { unfold delete_folder_rows. destruct (cascade _ _ _). reflexivity. }
  constructor.
  - now apply tree_ok_delete.
  - apply (run_op_files_ok s (DeleteFolder id)). assumption.
  - rewrite Hfiles. now apply NoDup_map_select.
  - intros x Hx. rewrite Hb. rewrite Hfiles in Hx. apply filter_In in Hx.
    apply H4. tauto.
  - intros x Hx. rewrite Hfiles in Hx. apply filter_In in Hx. apply H5. tauto.
  - rewrite Hfiles. now apply NoDup_map_select.
  - now rewrite Hb.
  - intros f g Hf Hg. rewrite Hsurv in Hf, Hg. apply filter_In in Hf, Hg.
    apply H8; tauto.
Qed.

Lemma backend_ok_uploadFile (file : Upload.t) (folderId fileId : string) (now : N)
  (s : Supabase) :
  backend_ok s -> backend_ok (snd (uploadFile file folderId fileId now s)).
Proof.
  intros Hok. pose proof Hok as [H1 H2 H3 H4 H5 H6 H7 H8].
  unfold uploadFile. destruct (getUser s) as [user|] eqn:U; [|assumption].
  destruct (negb (owns_object s _)) eqn:O; [assumption|].
  destruct (mem _ (map fst (bucket s))) eqn:M; [assumption|].
  set (sp := user +++ "/" +++ fileId +++ "_" +++ Upload.name file) in *.
  apply mem_false in M.
  assert (Hs1 : backend_ok (set_bucket (bucket s ++ [(sp, Upload.bytes file)]) s)).
  { constructor; simpl; auto.
    - intros x Hx. rewrite map_app. apply in_or_app. left. auto.
    - rewrite map_app. simpl. now apply NoDup_snoc. }
  unfold insert_file.
  destruct (negb (owns_file _ _)) eqn:Of; [assumption|].
  destruct (mem _ (file_ids _)) eqn:Mi; [assumption|].
  destruct (negb (mem _ (folder_ids _))) eqn:Mf; [assumption|].
  cbn [snd]. simpl in Mi, Mf. apply mem_false in Mi.
  apply negb_false_iff, mem_In in Mf.
  constructor; simpl.
  - assumption.
  - intros x Hx. simpl in Hx. apply in_app_or in Hx.
    destruct Hx as [Hx|[<-|[]]]; [now apply H2 | exact Mf].
  - unfold file_ids. rewrite map_app. simpl. now apply NoDup_snoc.
  - intros x Hx. rewrite map_app. apply in_app_or in Hx.
    destruct Hx as [Hx|[<-|[]]]; apply in_or_app; [left; auto | right; now left].
  - intros x Hx. apply in_app_or in Hx. destruct Hx as [Hx|[<-|[]]]; [auto|].
    simpl. apply negb_false_iff in O. unfold owns_object in O.
    unfold getUser in U. rewrite U in O. apply String.eqb_eq in O. now symmetry.
  - rewrite map_app. simpl. apply NoDup_snoc; [assumption|].
    intros Hin. apply M. apply in_map_iff in Hin. destruct Hin as (y & <- & Hy).
    now apply H4.
  - rewrite map_app. simpl. now apply NoDup_snoc.
  - assumption.
Qed.

Lemma selectFileById_Ok (id : string) (s : Supabase) (file : File.t) :
  selectFileById id s = Ok file ->
  In file (fm_files s) /\ owns_file s file = true /\ File.id file = id.
Proof.
  intros H. apply single_filter_Ok in H. destruct H as [Hin H].
  apply andb_true_iff in H. destruct H as [Ho Hid].
  apply String.eqb_eq in Hid. auto.
Qed.

Lemma backend_ok_deleteFile (id : string) (s s' : Supabase) :
  backend_ok s -> deleteFile id s = Ok s' -> backend_ok s'.
Proof.
  intros Hok. pose proof Hok as [H1 H2 H3 H4 H5 H6 H7 H8].
  unfold deleteFile. destruct (selectFileById id s) as [file|] eqn:Sel; [|discriminate].
  apply selectFileById_Ok in Sel. destruct Sel as (Hin & Hown & Hid).
  intros H. inversion H; subst; clear H. constructor; simpl.
  - assumption.
  - intros x Hx. simpl in Hx. apply filter_In in Hx. apply H2. tauto.
  - now apply NoDup_map_select.
  - intros x Hx. apply filter_In in Hx. destruct Hx as [Hx Hk].
    apply in_map_iff. specialize (H4 x Hx). apply in_map_iff in H4.
    destruct H4 as ([name bytes] & Hn & Hb). simpl in Hn.
    exists (name, bytes). split; [assumption|]. apply filter_In. split; [assumption|].
    simpl. apply negb_true_iff. apply andb_false_iff. left.
    apply String.eqb_neq. intros E. rewrite Hn in E.
    assert (x = file) by (apply (NoDup_map_inj File.storage_path (fm_files s)); auto).
    subst x. rewrite Hown, String.eqb_refl in Hk. discriminate.
  - intros x Hx. apply filter_In in Hx. apply H5. tauto.
  - now apply NoDup_map_select.
  - now apply NoDup_map_select.
  - assumption.
Qed.

(** * Moving a file *)

Lemma filter_map_commute {A : Type} (keep : A -> bool) (change : A -> A)
  (rows : list A) :
  (forall r, In r rows -> keep (change r) = keep r) ->
  filter keep (map change rows) = map change (filter keep rows).
Proof.
  induction rows as [|r rows IH]; simpl; intros H; [reflexivity|].
  rewrite (H r) by now left. destruct (keep r); simpl; rewrite IH; auto.
Qed.

Lemma existsb_false_In {A : Type} (p : A -> bool) (rows : list A) (r : A) :
  existsb p rows = false -> In r rows -> p r = false.
Proof.
  intros H Hin. destruct (p r) eqn:E; [|reflexivity].
  assert (existsb p rows = true) by (apply existsb_exists; eauto). congruence.
Qed.

(** What a successful [moveFile] has done. *)
Lemma moveFile_Ok (fileId newFolderId : string) (clientNow now : N)
  (s : Supabase) (row' : File.t) (s' : Supabase) :
  moveFile fileId newFolderId clientNow now s = Ok (row', s') ->
  exists old,
    selectFileById fileId s = Ok old /\
    row' = moved newFolderId now old /\
    In newFolderId (folder_ids (fm_folders s)) /\
    s' = set_files (map (fun f => if File.id f =? fileId then row' else f)
                        (fm_files s)) s /\
    (forall f, In f (fm_files s) -> File.id f = fileId -> owns_file s f = true) /\
    selectFileById fileId s' = Ok row'.
Proof.
  unfold moveFile.
  destruct (selectFileById fileId s) as [old|] eqn:Sel; [|discriminate].
  pose proof (selectFileById_Ok _ _ _ Sel) as (Hin & Hown & Hid).
  unfold upsert_file. cbn [File.id File.folder_id].
  assert (Hrow : owns_file s
            (File.mk (File.id old) (File.name old) (File.size old)
               (File.checksum old) newFolderId (File.user_id old)
               (File.storage_path old) (File.mime_type old)
               (File.created_at old) clientNow) = true) by exact Hown.
  rewrite Hrow. cbn [negb].
  destruct (mem newFolderId (folder_ids (fm_folders s))) eqn:Mf; [|discriminate].
  cbn [negb].
  assert (Mi : mem (File.id old) (file_ids (fm_files s)) = true).
  { apply mem_In. unfold file_ids. now apply in_map. }
  rewrite Mi.
  destruct (existsb _ (fm_files s)) eqn:Ex; [discriminate|].
  unfold update_updated_at_column. cbn [File.id File.name File.size File.checksum
    File.folder_id File.user_id File.storage_path File.mime_type File.created_at].
  fold (moved newFolderId now old). rewrite Hid in *.
  set (s1 := set_files _ s).
  assert (Howned : forall f, In f (fm_files s) -> File.id f = fileId ->
                             owns_file s f = true).
  { intros f Hf Hfid. pose proof (existsb_false_In _ _ f Ex Hf) as H.
    simpl in H. rewrite Hfid, String.eqb_refl in H. simpl in H.
    now apply negb_false_iff in H. }
  assert (Hsel : selectFileById fileId s1 = Ok (moved newFolderId now old)).
  { unfold selectFileById, s1. cbn [fm_files set_files].
    change (fun f => owns_file (set_files _ s) f && (File.id f =? fileId))
      with (fun f => owns_file s f && (File.id f =? fileId)).
    rewrite filter_map_commute.
    - unfold selectFileById in Sel. apply single_Ok in Sel. rewrite Sel. simpl.
      now rewrite Hid, String.eqb_refl.
    - intros r Hr. cbv beta. destruct (File.id r =? fileId) eqn:E.
      + apply String.eqb_eq in E. rewrite (Howned r Hr E). cbn [File.id moved].
        unfold owns_file in *. cbn [File.user_id moved].
        rewrite Hid, String.eqb_refl. now rewrite andb_true_r.
      + now rewrite E. }
  rewrite Hsel. intros H. inversion H; subst; clear H.
  exists old. repeat split; auto. now apply mem_In.
Qed.

(** X4.  A successful [moveFile] returns the file's row with the new
    folder and with [updated_at] from the database clock (the client's
    timestamp is overwritten by the trigger); the lookup by id returns
    that row afterwards; the target is the key of a folder row; every
    other file row, the folder table and the bucket are as before. *)
Theorem moveFile_effect (fileId newFolderId : string) (clientNow now : N)
  (s : Supabase) (row' : File.t) (s' : Supabase) :
  moveFile fileId newFolderId clientNow now s = Ok (row', s') ->
  (exists old, selectFileById fileId s = Ok old /\
               row' = moved newFolderId now old) /\
  selectFileById fileId s' = Ok row' /\
  In newFolderId (folder_ids (fm_folders s)) /\
  fm_folders s' = fm_folders s /\ bucket s' = bucket s /\
  length (fm_files s') = length (fm_files s) /\
  (forall x, File.id x <> fileId -> (In x (fm_files s') <-> In x (fm_files s))).
Proof.
  intros H. apply moveFile_Ok in H.
  destruct H as (old & Hsel & Hrow & Hf & -> & _ & Hsel').
  split; [eauto|]. repeat split; auto.
  - simpl. now rewrite length_map.
  - simpl. intros Hx. apply in_map_iff in Hx. destruct Hx as (y & Hy & Hin).
    destruct (String.eqb_spec (File.id y) fileId) as [E|E]; [|now subst].
    subst x. exfalso. apply H. rewrite Hrow. cbn [File.id moved].
    apply selectFileById_Ok in Hsel. tauto.
  - simpl. intros Hx. apply in_map_iff. exists x. split; [|assumption].
    destruct (String.eqb_spec (File.id x) fileId); [contradiction | reflexivity].
Qed.

Lemma moveFile_effect_witness :
  selectFileById "f1" moved_backend = Ok (moved "docs" 2000 f1_row) /\
  fm_folders moved_backend = fm_folders upload_backend /\
  bucket moved_backend = bucket upload_backend.
Proof.
  destruct (moveFile_effect "f1" "docs" 1999 2000 upload_backend
              (moved "docs" 2000 f1_row) moved_backend eq_refl)
    as (_ & H1 & _ & H2 & H3 & _).
  repeat split; assumption.
Defined.

Lemma moveFile_succeeds (fileId newFolderId : string) (clientNow now : N)
  (s : Supabase) (old : File.t) :
  NoDup (file_ids (fm_files s)) ->
  selectFileById fileId s = Ok old ->
  In newFolderId (folder_ids (fm_folders s)) ->
  exists row' s', moveFile fileId newFolderId clientNow now s = Ok (row', s').
Proof.
  intros Hd Hsel Hf.
  destruct (moveFile fileId newFolderId clientNow now s) as [[row' s']|e] eqn:M;
    [eauto|]. exfalso.
  unfold moveFile in M. rewrite Hsel in M.
  pose proof (selectFileById_Ok _ _ _ Hsel) as (Hin & Hown & Hid).
  unfold upsert_file in M. cbn [File.id File.folder_id] in M.
  assert (Hrow : owns_file s
            (File.mk (File.id old) (File.name old) (File.size old)
               (File.checksum old) newFolderId (File.user_id old)
               (File.storage_path old) (File.mime_type old)
               (File.created_at old) clientNow) = true) by exact Hown.
  rewrite Hrow in M. cbn [negb] in M.
  apply mem_In in Hf. rewrite Hf in M. cbn [negb] in M.
  assert (Mi : mem (File.id old) (file_ids (fm_files s)) = true).
  { apply mem_In. unfold file_ids. now apply in_map. }
  rewrite Mi in M.
  assert (Ex : existsb (fun f => (File.id f =? File.id old) && negb (owns_file s f))
                       (fm_files s) = false).
  { destruct (existsb _ _) eqn:Ex; [|reflexivity].
    apply existsb_exists in Ex. destruct Ex as (f & Hfin & Hp).
    apply andb_true_iff in Hp. destruct Hp as [E Ho]. apply String.eqb_eq in E.
    assert (f = old) by (apply (NoDup_map_inj File.id (fm_files s)); auto).
    subst f. rewrite Hown in Ho. discriminate. }
  rewrite Ex in M.
  set (s1 := set_files _ s) in M.
  destruct (selectFileById fileId s1) as [data|] eqn:Sel'; [discriminate|].
  unfold selectFileById, s1 in Sel'. cbn [fm_files set_files] in Sel'.
  change (fun f => owns_file (set_files _ s) f && (File.id f =? fileId))
    with (fun f => owns_file s f && (File.id f =? fileId)) in Sel'.
  rewrite filter_map_commute in Sel'.
  - unfold selectFileById in Hsel. apply single_Ok in Hsel. rewrite Hsel in Sel'.
    simpl in Sel'. rewrite String.eqb_refl in Sel'. discriminate.
  - intros r Hr. cbv beta. destruct (File.id r =? File.id old) eqn:E.
    + apply String.eqb_eq in E.
      assert (r = old) by (apply (NoDup_map_inj File.id (fm_files s)); auto).
      subst r. cbn [File.id update_updated_at_column].
      unfold owns_file in *. cbn [File.user_id update_updated_at_column].
      reflexivity.
    + rewrite Hid in E. now rewrite E.
Qed.

(** X5.  With unique file keys, [moveFile] succeeds exactly when the
    lookup of the file succeeds and the target is the key of a folder row;
    the owner of the target folder is not looked at. *)
Theorem moveFile_succeeds_iff (fileId newFolderId : string) (clientNow now : N)
  (s : Supabase) :
  NoDup (file_ids (fm_files s)) ->
  ((exists row' s', moveFile fileId newFolderId clientNow now s = Ok (row', s'))
   <->
   (exists old, selectFileById fileId s = Ok old) /\
   In newFolderId (folder_ids (fm_folders s))).
Proof.
  intros Hd. split.
  - intros (row' & s' & H). apply moveFile_Ok in H.
    destruct H as (old & Hsel & _ & Hf & _). eauto.
  - intros [(old & Hsel) Hf]. now apply (moveFile_succeeds _ _ _ _ _ old).
Qed.

Lemma moveFile_succeeds_iff_witness :
  exists row' s', moveFile "f1" "docs" 1999 2000 upload_backend = Ok (row', s').
Proof.
  refine (proj2 (moveFile_succeeds_iff "f1" "docs" 1999 2000 upload_backend _) _).
  - vm_compute. repeat constructor. tauto.
  - split.
    + eexists. reflexivity.
    + vm_compute. tauto.
Defined.

Lemma backend_ok_moveFile (fileId newFolderId : string) (clientNow now : N)
  (s : Supabase) (row' : File.t) (s' : Supabase) :
  backend_ok s -> moveFile fileId newFolderId clientNow now s = Ok (row', s') ->
  backend_ok s'.
Proof.
  intros Hok Hm. pose proof Hok as [H1 H2 H3 H4 H5 H6 H7 H8].
  apply moveFile_Ok in Hm.
  destruct Hm as (old & Hsel & Hrow & Hf & -> & _ & _).
  apply selectFileById_Ok in Hsel. destruct Hsel as (Hin & Hown & Hid).
  set (change := fun f => if File.id f =? fileId then row' else f).
  assert (Hsame : forall f, In f (fm_files s) ->
            File.id (change f) = File.id f /\
            File.storage_path (change f) = File.storage_path f /\
            File.user_id (change f) = File.user_id f).
  { intros f Hfin. unfold change. destruct (String.eqb_spec (File.id f) fileId) as [E|E];
      [|auto].
    assert (f = old).
    { apply (NoDup_map_inj File.id (fm_files s)); auto. congruence. }
    subst f row'. auto. }
  assert (Hmap : forall (B : Type) (key : File.t -> B),
            (forall f, In f (fm_files s) -> key (change f) = key f) ->
            map key (map change (fm_files s)) = map key (fm_files s)).
  { intros B key Hk. rewrite map_map. apply map_ext_in. exact Hk. }
  constructor; simpl.
  - assumption.
  - intros x Hx. simpl in Hx. apply in_map_iff in Hx. destruct Hx as (f & <- & Hfin).
    unfold change. destruct (File.id f =? fileId); [|now apply H2].
    subst row'. exact Hf.
  - unfold file_ids. rewrite Hmap; [assumption|]. intros f Hfin. now apply Hsame.
  - intros x Hx. apply in_map_iff in Hx. destruct Hx as (f & <- & Hfin).
    destruct (Hsame f Hfin) as (_ & -> & _). now apply H4.
  - intros x Hx. apply in_map_iff in Hx. destruct Hx as (f & <- & Hfin).
    destruct (Hsame f Hfin) as (_ & -> & ->). now apply H5.
  - rewrite Hmap; [assumption|]. intros f Hfin. now apply Hsame.
  - assumption.
  - assumption.
Qed.

Lemma backend_ok_deleteFiles (fileIds : list string) :
  forall s, backend_ok s -> backend_ok (snd (deleteFiles fileIds s)).
Proof.
  induction fileIds as [|fileId rest IH]; intros s Hok; simpl; [assumption|].
  destruct (deleteFile fileId s) as [s'|e] eqn:D; [|assumption].
  apply IH. eapply backend_ok_deleteFile; eauto.
Qed.

Lemma backend_ok_moveFiles (fileIds : list string) (target : string) :
  forall clock results s,
    backend_ok s -> backend_ok (snd (moveFiles fileIds target clock results s)).
Proof.
  induction fileIds as [|fileId rest IH]; intros clock results s Hok; simpl;
    [assumption|].
  destruct (hd (0%N, 0%N) clock) as [clientNow now].
  destruct (moveFile fileId target clientNow now s) as [[row' s']|e] eqn:M;
    [|assumption].
  apply IH. eapply backend_ok_moveFile; eauto.
Qed.

Lemma backend_ok_run_op (s : Supabase) (o : Op) :
  backend_ok s -> backend_ok (run_op s o).
Proof.
  intros Hok.
  destruct o as [user rootId now|user| |name parentId newId now|id
                |file folderId fileId now|id]; simpl.
  - unfold insert_auth_user. destruct (mem user (auth_users s)); [assumption|].
    unfold create_user_root_folder. simpl.
    destruct (mem rootId (folder_ids (fm_folders s))) eqn:M; [assumption|].
    apply backend_ok_session.
    apply mem_false in M.
    set (s0 := mkSupabase (auth_users s ++ [user]) (session s) (fm_folders s)
                          (fm_files s) (bucket s)).
    assert (Hok0 : backend_ok s0) by (destruct Hok; constructor; assumption).
    apply (backend_ok_add_folder s0); auto.
    + reflexivity.
    + discriminate.
  - destruct (mem user (auth_users s)); [now apply backend_ok_session | assumption].
  - now apply backend_ok_session.
  - destruct (createFolder name parentId newId now s) as [[f s']|e] eqn:C;
      [|assumption].
    eapply backend_ok_createFolder; eauto.
  - now apply backend_ok_delete_folder.
  - now apply backend_ok_uploadFile.
  - destruct (deleteFile id s) as [s'|e] eqn:D; [|assumption].
    eapply backend_ok_deleteFile; eauto.
Qed.

Lemma backend_ok_run_actions (actions : list Action) :
  forall s, backend_ok s -> backend_ok (run_actions actions s).
Proof.
  induction actions as [|a actions IH]; intros s Hok; simpl; [assumption|].
  apply IH. destruct a as [o|fileId newFolderId clientNow now|fileIds
                          |fileIds target clock]; simpl.
  - now apply backend_ok_run_op.
  - destruct (moveFile fileId newFolderId clientNow now s) as [[row' s']|e] eqn:M;
      [|assumption].
    eapply backend_ok_moveFile; eauto.
  - now apply backend_ok_deleteFiles.
  - now apply backend_ok_moveFiles.
Qed.

Lemma backend_ok_empty : backend_ok empty_backend.
Proof.
  constructor; simpl; try (now constructor); try tauto.
  - apply tree_ok_nil.
  - intros x [].
Qed.

(** X6.  After every run of the operations ([supabaseApi] calls, sign-up,
    the batches of the file manager) from the empty backend: file keys are
    unique; every file row lies in a folder of the table; every file row
    has its object in the bucket, under a name whose first segment is the
    row's owner and which no other row and no other object has; and a
    folder has the owner of its parent. *)
Theorem run_keeps_backend_ok (actions : list Action) :
  NoDup (file_ids (fm_files (run_actions actions empty_backend))) /\
  (forall x, In x (fm_files (run_actions actions empty_backend)) ->
     In (File.folder_id x)
        (folder_ids (fm_folders (run_actions actions empty_backend))) /\
     In (File.storage_path x)
        (map fst (bucket (run_actions actions empty_backend))) /\
     storage_foldername1 (File.storage_path x) = File.user_id x) /\
  NoDup (map File.storage_path (fm_files (run_actions actions empty_backend))) /\
  NoDup (map fst (bucket (run_actions actions empty_backend))) /\
  (forall f g,
     In f (fm_folders (run_actions actions empty_backend)) ->
     In g (fm_folders (run_actions actions empty_backend)) ->
     Folder.parent_id f = Some (Folder.id g) ->
     Folder.user_id f = Folder.user_id g).
Proof.
  destruct (backend_ok_run_actions actions empty_backend backend_ok_empty)
    as [H1 H2 H3 H4 H5 H6 H7 H8].
  repeat split; auto.
Qed.

(** * Deleting files *)

Lemma deleteFile_Ok (id : string) (s s' : Supabase) :
  deleteFile id s = Ok s' ->
  exists file,
    selectFileById id s = Ok file /\
    s' = set_files
           (filter (fun f => negb (owns_file s f && (File.id f =? id))) (fm_files s))
           (set_bucket
              (filter (fun o => negb ((fst o =? File.storage_path file)
                                      && owns_object s (fst o)))
                      (bucket s)) s).
Proof.
  unfold deleteFile. destruct (selectFileById id s) as [file|]; [|discriminate].
  intros H. inversion H. eauto.
Qed.

(** X7.  In a backend reached by a run, a successful [deleteFile] removes
    the row of the file and the storage object of the file, and nothing
    else: every other file row and every other object stays, the folder
    table stays, and the lookup of the id fails afterwards. *)
Theorem deleteFile_effect (actions : list Action) (id : string) (s' : Supabase) :
  deleteFile id (run_actions actions empty_backend) = Ok s' ->
  exists file,
    selectFileById id (run_actions actions empty_backend) = Ok file /\
    (forall x, In x (fm_files s') <->
               In x (fm_files (run_actions actions empty_backend)) /\ x <> file) /\
    (forall o, In o (bucket s') <->
               In o (bucket (run_actions actions empty_backend)) /\
               fst o <> File.storage_path file) /\
    fm_folders s' = fm_folders (run_actions actions empty_backend) /\
    (exists e, selectFileById id s' = Err e).
Proof.
  set (s := run_actions actions empty_backend).
  assert (Hok : backend_ok s) by apply backend_ok_run_actions, backend_ok_empty.
  intros H. apply deleteFile_Ok in H. destruct H as (file & Hsel & ->).
  exists file. split; [assumption|].
  pose proof (selectFileById_Ok _ _ _ Hsel) as (Hin & Hown & Hid).
  destruct Hok as [_ _ Hids _ Hpo _ _ _].
  assert (Hrows : forall x, In x (fm_files s) ->
            (negb (owns_file s x && (File.id x =? id)) = true <-> x <> file)).
  { intros x Hx. split.
    - intros Hk ->. rewrite Hown, Hid, String.eqb_refl in Hk. discriminate.
    - intros Hne. apply negb_true_iff, andb_false_iff. right.
      apply String.eqb_neq. intros E. apply Hne.
      apply (NoDup_map_inj File.id (fm_files s)); auto. congruence. }
  assert (Hobj : owns_object s (File.storage_path file) = true).
  { unfold owns_object, owns_file in *. destruct (session s) as [u|]; [|discriminate].
    apply String.eqb_eq in Hown. rewrite (Hpo file Hin), Hown.
    apply String.eqb_refl. }
  repeat split.
  - simpl in H. apply filter_In in H. tauto.
  - simpl in H. apply filter_In in H. destruct H as [Hx Hk]. now apply Hrows.
  - intros [Hx Hne]. simpl. apply filter_In. split; [assumption|]. now apply Hrows.
  - simpl in H. apply filter_In in H. tauto.
  - simpl in H. apply filter_In in H. destruct H as [_ Hk]. intros E.
    rewrite E, String.eqb_refl, Hobj in Hk. discriminate.
  - intros [Ho Hne]. simpl. apply filter_In. split; [assumption|].
    apply negb_true_iff, andb_false_iff. left. now apply String.eqb_neq.
  - unfold selectFileById. simpl.
    change (fun f => owns_file (set_files _ _) f && (File.id f =? id))
      with (fun f => owns_file s f && (File.id f =? id)).
    rewrite filter_both.
    replace (filter _ (fm_files s)) with (@nil File.t); [eexists; reflexivity|].
    symmetry. clear. induction (fm_files s) as [|a l IH]; simpl; [reflexivity|].
    destruct (owns_file s a && (File.id a =? id)); simpl; assumption.
Qed.

Lemma deleteFile_effect_witness :
  exists file,
    selectFileById "f1" (run_actions (map Basic upload_ops) empty_backend) = Ok file /\
    (forall o, In o (bucket (run_op upload_backend (DeleteFile "f1"))) <->
               In o (bucket (run_actions (map Basic upload_ops) empty_backend)) /\
               fst o <> File.storage_path file).
Proof.
  destruct (deleteFile_effect (map Basic upload_ops) "f1"
              (run_op upload_backend (DeleteFile "f1")) eq_refl)
    as (file & H1 & _ & H3 & _).
  exists file. split; assumption.
Defined.

(** Deleting one file leaves the lookup of every other id as it was. *)
Lemma deleteFile_other (id1 id : string) (s s' : Supabase) :
  deleteFile id1 s = Ok s' -> id <> id1 ->
  selectFileById id s' = selectFileById id s.
Proof.
  intros H Hne. apply deleteFile_Ok in H. destruct H as (file & _ & ->).
  unfold selectFileById. simpl.
  change (fun f => owns_file (set_files _ _) f && (File.id f =? id))
    with (fun f => owns_file s f && (File.id f =? id)).
  rewrite filter_both. f_equal. apply filter_ext. intros a.
  destruct (owns_file s a); simpl; [|reflexivity].
  destruct (String.eqb_spec (File.id a) id1) as [E|E]; simpl; [|reflexivity].
  symmetry. apply String.eqb_neq. congruence.
Qed.

Lemma deleteFiles_app (pre post : list string) :
  forall s,
    deleteFiles (pre ++ post) s =
    match deleteFiles pre s with
    | (Ok _, s1) => deleteFiles post s1
    | (Err e, s1) => (Err e, s1)
    end.
Proof.
  induction pre as [|id pre IH]; intros s; simpl; [reflexivity|].
  destruct (deleteFile id s) as [s1|e]; [apply IH | reflexivity].
Qed.

(** X8.  The batch delete of the file manager: when the selected ids are
    distinct and each is found by the lookup, the batch succeeds and
    removes the rows of the signed-in user under these ids, and no other
    row; when the batch has deleted a first part of the selection and the
    next id is not found, it ends with that error, the first part stays
    deleted and the rest of the selection is not touched. *)
Theorem deleteFiles_effect (fileIds : list string) (s : Supabase) :
  (NoDup fileIds ->
   (forall id, In id fileIds -> exists file, selectFileById id s = Ok file) ->
   exists s',
     deleteFiles fileIds s = (Ok tt, s') /\
     fm_folders s' = fm_folders s /\
     (forall x, In x (fm_files s') <->
                In x (fm_files s) /\
                ~ (owns_file s x = true /\ In (File.id x) fileIds))) /\
  (forall pre id post s1 e,
     fileIds = pre ++ id :: post ->
     deleteFiles pre s = (Ok tt, s1) ->
     selectFileById id s1 = Err e ->
     deleteFiles fileIds s = (Err e, s1)).
Proof.
  split.
  - revert s. induction fileIds as [|id rest IH]; intros s Hd Hall; simpl.
    + exists s. repeat split; auto; tauto.
    + inversion Hd as [|? ? Hfresh Hrest]; subst.
      destruct (Hall id (or_introl eq_refl)) as (file & Hsel).
      destruct (deleteFile id s) as [s1|e] eqn:D.
      2:{ unfold deleteFile in D. rewrite Hsel in D. discriminate. }
      destruct (IH s1 Hrest) as (s' & Hrun & Hfold & Hrows).
      { intros id' Hin. rewrite (deleteFile_other id id' s s1 D).
        - apply Hall. now right.
        - intros ->. contradiction. }
      exists s'. split; [assumption|].
      apply deleteFile_Ok in D. destruct D as (file' & _ & ->).
      split; [rewrite Hfold; reflexivity|].
      intros x. rewrite Hrows. simpl. rewrite filter_In.
      change (owns_file (set_files _ _) x) with (owns_file s x).
      split.
      * intros [[Hx Hk] Hn]. split; [assumption|]. intros [Ho [E|Hin]].
        -- rewrite Ho, E, String.eqb_refl in Hk. discriminate.
        -- apply Hn. auto.
      * intros [Hx Hn]. repeat split; auto.
        -- apply negb_true_iff, andb_false_iff.
           destruct (owns_file s x) eqn:Ho; [right | now left].
           apply String.eqb_neq. intros E. apply Hn. split; [reflexivity|].
           left. now symmetry.
        -- intros [Ho Hin]. apply Hn. auto.
  - intros pre id post s1 e -> Hpre Hsel.
    rewrite deleteFiles_app, Hpre. simpl.
    unfold deleteFile. now rewrite Hsel.
Qed.

Lemma deleteFiles_effect_witness :
  exists s',
    deleteFiles ["f1"] upload_backend = (Ok tt, s') /\
    fm_folders s' = fm_folders upload_backend /\
    (forall x, In x (fm_files s') <->
               In x (fm_files upload_backend) /\
               ~ (owns_file upload_backend x = true /\ In (File.id x) ["f1"])).
Proof.
  refine (proj1 (deleteFiles_effect ["f1"] upload_backend) _ _).
  - repeat constructor. simpl. tauto.
  - intros id [<-|[]]. eexists. reflexivity.
Defined.

(** * Row level security of [deleteFolder] *)

(** Rows of a class that no deleted key reaches, directly or through rows
    outside the class, survive the cascade. *)
Lemma cascade_keeps (safe : Folder.t -> bool) (fuel : nat) :
  forall dead rows,
    (forall f, In f rows -> safe f = true -> references dead f = false) ->
    (forall f g, In f rows -> In g rows -> safe f = true -> safe g = false ->
                 Folder.parent_id f <> Some (Folder.id g)) ->
    forall f, In f rows -> safe f = true -> In f (snd (cascade fuel dead rows)).
Proof.
  induction fuel as [|n IH]; intros dead rows Hdead Hclosed f Hin Hsafe;
    [assumption|].
  cbn [cascade]. destruct (filter (references dead) rows) as [|h hit] eqn:Hhit;
    [assumption|].
  apply IH; auto.
  - intros f' Hf' Hs'. apply filter_In in Hf'. destruct Hf' as [Hf' _].
    unfold references. destruct (Folder.parent_id f') as [p|] eqn:P; [|reflexivity].
    apply mem_false. intros Hp. apply in_app_or in Hp. destruct Hp as [Hp|Hp].
    + unfold folder_ids in Hp. apply in_map_iff in Hp. destruct Hp as (g & <- & Hg).
      rewrite <- Hhit in Hg. apply filter_In in Hg. destruct Hg as [Hg Hr].
      destruct (safe g) eqn:Sg.
      * rewrite (Hdead g Hg Sg) in Hr. discriminate.
      * now apply (Hclosed f' g Hf' Hg Hs' Sg).
    + specialize (Hdead f' Hf' Hs'). unfold references in Hdead.
      rewrite P in Hdead. apply mem_false in Hdead. contradiction.
  - intros f' g Hf' Hg. apply filter_In in Hf', Hg. apply Hclosed; tauto.
  - apply filter_In. split; [assumption|]. now rewrite (Hdead f Hin Hsafe).
Qed.

(** A delete by an id under which the signed-in user has no folder
    changes nothing. *)
Lemma deleteFolder_nothing_owned (id : string) (s : Supabase) :
  (forall f, In f (fm_folders s) -> Folder.id f = id -> owns_folder s f = false) ->
  deleteFolder id s = Ok s.
Proof.
  intros Hnone. unfold deleteFolder, delete_folder_rows. cbv zeta.
  assert (Hhit : filter (delete_target s id) (fm_folders s) = []).
  { destruct (filter (delete_target s id) (fm_folders s)) as [|g l] eqn:E;
      [reflexivity|].
    assert (Hg : In g (filter (delete_target s id) (fm_folders s)))
      by (rewrite E; now left).
    apply filter_In in Hg. destruct Hg as [Hg Ht].
    unfold delete_target in Ht. apply andb_true_iff in Ht. destruct Ht as [Hid Ho].
    apply String.eqb_eq in Hid. rewrite (Hnone g Hg Hid) in Ho. discriminate. }
  assert (Hrest : filter (fun f => negb (delete_target s id f)) (fm_folders s)
                  = fm_folders s).
  { clear -Hhit. induction (fm_folders s) as [|a l IH]; simpl in *; [reflexivity|].
    destruct (delete_target s id a); [discriminate|]. simpl. now rewrite IH. }
  rewrite Hhit, Hrest. simpl.
  assert (Hc : cascade (length (fm_folders s)) [] (fm_folders s)
               = ([], fm_folders s)).
  { destruct (length (fm_folders s)); [reflexivity|]. cbn [cascade].
    replace (filter (references []) (fm_folders s)) with (@nil Folder.t);
      [reflexivity|].
    symmetry. clear. induction (fm_folders s) as [|a l IH]; simpl; [reflexivity|].
    unfold references at 1. destruct (Folder.parent_id a); simpl; assumption. }
  rewrite Hc. f_equal. unfold set_files, set_folders. simpl.
  replace (filter _ (fm_files s)) with (fm_files s); [now destruct s|].
  clear. induction (fm_files s) as [|a l IH]; simpl; [reflexivity|].
  now rewrite <- IH.
Qed.

(** X9.  In a backend reached by a run, [deleteFolder] never removes a
    folder of another user: whatever id is given, every folder row that
    does not belong to the signed-in user is still in the table
    afterwards.  Given an id under which the signed-in user has no folder,
    it returns without error and leaves the backend as it is. *)
Theorem deleteFolder_own_rows_only (actions : list Action) (id : string) :
  (forall f,
     In f (fm_folders (run_actions actions empty_backend)) ->
     owns_folder (run_actions actions empty_backend) f = false ->
     exists s',
       deleteFolder id (run_actions actions empty_backend) = Ok s' /\
       In f (fm_folders s')) /\
  ((forall f, In f (fm_folders (run_actions actions empty_backend)) ->
              Folder.id f = id ->
              owns_folder (run_actions actions empty_backend) f = false) ->
   deleteFolder id (run_actions actions empty_backend)
     = Ok (run_actions actions empty_backend)).
Proof.
  set (s := run_actions actions empty_backend).
  assert (Hok : backend_ok s) by apply backend_ok_run_actions, backend_ok_empty.
  split.
  - intros f Hin Hown. exists (delete_folder_rows s id). split; [reflexivity|].
    unfold delete_folder_rows. cbv zeta.
    set (rest := filter (fun f => negb (delete_target s id f)) (fm_folders s)).
    set (hit := filter (delete_target s id) (fm_folders s)).
    pose proof (cascade_keeps (fun f => negb (owns_folder s f)) (length rest)
                  (folder_ids hit) rest) as Hkeep.
    destruct (cascade (length rest) (folder_ids hit) rest) as [dead surv].
    simpl in *. apply Hkeep.
    + intros f' Hf' Hs'. apply filter_In in Hf'. destruct Hf' as [Hf' _].
      unfold references. destruct (Folder.parent_id f') as [p|] eqn:P; [|reflexivity].
      apply mem_false. intros Hp. unfold hit, folder_ids in Hp.
      apply in_map_iff in Hp. destruct Hp as (g & <- & Hg).
      apply filter_In in Hg. destruct Hg as [Hg Ht].
      unfold delete_target in Ht. apply andb_true_iff in Ht. destruct Ht as [_ Hog].
      pose proof (ok_owner s Hok f' g Hf' Hg P) as E.
      unfold owns_folder in *. destruct (session s); [|discriminate].
      rewrite E, Hog in Hs'. discriminate.
    + intros f' g Hf' Hg Hs' Hsg P.
      apply filter_In in Hf', Hg. destruct Hf' as [Hf' _], Hg as [Hg _].
      pose proof (ok_owner s Hok f' g Hf' Hg P) as E.
      apply negb_false_iff in Hsg.
      unfold owns_folder in *. destruct (session s); [|discriminate].
      rewrite E, Hsg in Hs'. discriminate.
    + apply filter_In. split; [assumption|].
      unfold delete_target. rewrite Hown. now rewrite andb_false_r.
    + now rewrite Hown.
  - intros Hnone. now apply deleteFolder_nothing_owned.
Qed.

Lemma deleteFolder_own_rows_only_witness :
  deleteFolder "d1" (run_actions (map Basic two_user_ops) empty_backend)
    = Ok (run_actions (map Basic two_user_ops) empty_backend).
Proof.
  refine (proj2 (deleteFolder_own_rows_only (map Basic two_user_ops) "d1") _).
  intros f Hin Hid. vm_compute in Hin.
  destruct Hin as [<-|[<-|[<-|[]]]]; try discriminate Hid. reflexivity.
Defined.

(** * The walk along [parent_id] *)

Lemma single_by_id (s : Supabase) (c : Folder.t) :
  NoDup (folder_ids (fm_folders s)) -> In c (fm_folders s) ->
  owns_folder s c = true ->
  single (filter (fun f => owns_folder s f && (Folder.id f =? Folder.id c))
                 (fm_folders s)) = Ok c.
Proof.
  intros Hd Hin Hown.
  replace (filter _ (fm_folders s)) with [c]; [reflexivity|].
  symmetry. revert Hd Hin. unfold folder_ids.
  induction (fm_folders s) as [|a l IH]; simpl; intros Hd Hin; [tauto|].
  inversion Hd as [|? ? Hfresh Hrest]; subst.
  destruct Hin as [->|Hin].
  - rewrite Hown, String.eqb_refl. simpl. f_equal.
    clear -Hfresh. induction l as [|b l IH]; simpl; [reflexivity|].
    simpl in Hfresh.
    destruct (String.eqb_spec (Folder.id b) (Folder.id c)) as [E|E].
    + exfalso. apply Hfresh. left. assumption.
    + rewrite andb_false_r. apply IH. tauto.
  - destruct (String.eqb_spec (Folder.id a) (Folder.id c)) as [E|E].
    + exfalso. apply Hfresh. rewrite E. now apply in_map.
    + rewrite andb_false_r. now apply IH.
Qed.

Lemma path_of_names_snoc (names : list string) (n : string) :
  path_of_names (names ++ [n]) = path_of_names names +++ n +++ "/".
Proof. unfold path_of_names. now rewrite fold_left_app. Qed.

(** The loop of [getFolderParents] collects the keys of the chain above
    the folder it starts from; the chain spells the stored path; and the
    chain holds the ancestors. *)
Lemma parents_loop_chain (s : Supabase) :
  backend_ok s -> ~ In EmptyString (folder_ids (fm_folders s)) ->
  forall fuel l1 c l2 acc,
    fm_folders s = l1 ++ c :: l2 -> length l1 < fuel ->
    owns_folder s c = true ->
    getFolderParents_loop fuel s (Folder.id c) acc
      = map Folder.id (chain_above fuel (fm_folders s) c) ++ acc /\
    Folder.path c = path_of_names (map Folder.name (chain_above fuel (fm_folders s) c)) /\
    (forall a, In a (chain_above fuel (fm_folders s) c) <->
               ancestor (fm_folders s) a c).
Proof.
  intros Hok Hne. pose proof (ok_tree s Hok) as [Hd Hp].
  induction fuel as [|n IH]; intros l1 c l2 acc E Hlen Hown; [lia|].
  assert (Hc : In c (fm_folders s)) by (rewrite E; apply in_or_app; right; now left).
  cbn [getFolderParents_loop chain_above].
  rewrite (single_by_id s c Hd Hc Hown).
  pose proof (Hp _ _ _ E) as Hpar. unfold parent_ok in Hpar.
  destruct (Folder.parent_id c) as [p|] eqn:P.
  - destruct Hpar as (g & Hg & Hid & Hpath). subst p.
    assert (Hgin : In g (fm_folders s)) by (rewrite E; apply in_or_app; now left).
    assert (Hgne : (Folder.id g =? "") = false).
    { apply String.eqb_neq. intros Eg. apply Hne. rewrite <- Eg.
      unfold folder_ids. now apply in_map. }
    rewrite Hgne, (find_unique_id _ g Hd Hgin).
    destruct (in_split _ _ Hg) as (la & lb & El1).
    assert (Hgown : owns_folder s g = true).
    { pose proof (ok_owner s Hok c g Hc Hgin P) as Eo.
      unfold owns_folder in *. destruct (session s); [|discriminate]. now rewrite <- Eo. }
    destruct (IH la g (lb ++ c :: l2) (Folder.id g :: acc)) as (Hloop & Hpg & Hanc);
      auto.
    { rewrite E, El1, <- app_assoc. reflexivity. }
    { rewrite El1, length_app in Hlen. simpl in Hlen. lia. }
    repeat split.
    + rewrite Hloop, map_app, <- app_assoc. reflexivity.
    + rewrite map_app. simpl. rewrite path_of_names_snoc, <- Hpg. exact Hpath.
    + intros Ha. apply in_app_or in Ha. destruct Ha as [Ha|[<-|[]]].
      * apply anc_step with (g := g); auto. now apply Hanc.
      * now apply anc_parent.
    + intros Ha. apply in_or_app. apply ancestor_parent in Ha.
      destruct Ha as (g' & Hg' & Hpg' & Ha).
      assert (g' = g).
      { apply (NoDup_map_inj Folder.id (fm_folders s)); auto. congruence. }
      subst g'. destruct Ha as [->|Ha]; [right; now left | left; now apply Hanc].
  - repeat split.
    + assumption.
    + intros [].
    + intros Ha. apply ancestor_parent in Ha. destruct Ha as (g & _ & Hg & _).
      congruence.
Qed.

(** X10.  In a backend reached by a run in which no folder has the empty
    key, for a folder of the signed-in user: [getFolderParents] returns
    the keys of exactly the folder's ancestors, and the names stored under
    these keys, in the order returned, spell the folder's path. *)
Theorem getFolderParents_ancestors (actions : list Action) (f : Folder.t) :
  ~ In EmptyString (folder_ids (fm_folders (run_actions actions empty_backend))) ->
  In f (fm_folders (run_actions actions empty_backend)) ->
  owns_folder (run_actions actions empty_backend) f = true ->
  (forall p,
     In p (getFolderParents (Folder.id f) (run_actions actions empty_backend)) <->
     exists a, ancestor (fm_folders (run_actions actions empty_backend)) a f /\
               Folder.id a = p) /\
  Folder.path f
    = path_of_names
        (map (folder_name_of (fm_folders (run_actions actions empty_backend)))
             (getFolderParents (Folder.id f) (run_actions actions empty_backend))).
Proof.
  set (s := run_actions actions empty_backend).
  assert (Hok : backend_ok s) by apply backend_ok_run_actions, backend_ok_empty.
  intros Hne Hin Hown.
  destruct (in_split _ _ Hin) as (l1 & l2 & E).
  assert (Hlen : length l1 < length (fm_folders s)).
  { rewrite E, length_app. simpl. lia. }
  destruct (parents_loop_chain s Hok Hne _ l1 f l2 [] E Hlen Hown)
    as (Hloop & Hpath & Hanc).
  unfold getFolderParents.
  assert (Hfne : (Folder.id f =? "") = false).
  { apply String.eqb_neq. intros Ef. apply Hne. rewrite <- Ef.
    unfold folder_ids. now apply in_map. }
  rewrite Hfne, Hloop, app_nil_r. split.
  - intros p. rewrite in_map_iff. split.
    + intros (a & Hid & Ha). exists a. split; [now apply Hanc | assumption].
    + intros (a & Ha & Hid). exists a. split; [assumption | now apply Hanc].
  - rewrite Hpath. f_equal. rewrite map_map. apply map_ext_in.
    intros a Ha. apply Hanc in Ha.
    assert (Hain : In a (fm_folders s)).
    { clear -Ha. induction Ha; assumption. }
    unfold folder_name_of.
    now rewrite (find_unique_id _ a (proj1 (ok_tree s Hok)) Hain).
Qed.

Lemma getFolderParents_ancestors_witness :
  Folder.path reports_row
    = path_of_names
        (map (folder_name_of (fm_folders (run_actions (map Basic scenario_ops)
                                                      empty_backend)))
             (getFolderParents (Folder.id reports_row)
                (run_actions (map Basic scenario_ops) empty_backend))).
Proof.
  refine (proj2 (getFolderParents_ancestors (map Basic scenario_ops) reports_row
                   _ _ _)).
  - vm_compute. intros [H|[H|[H|[]]]]; discriminate H.
  - vm_compute. tauto.
  - reflexivity.
Defined.

(** * Paths and their segments *)

Lemma append_assoc (a b c : string) : (a +++ b) +++ c = a +++ b +++ c.
Proof. induction a as [|x a IH]; simpl; [reflexivity | now rewrite IH]. Qed.

Lemma split_nonempty (sep : ascii) (s : string) : split sep s <> [].
Proof.
  induction s as [|c s IH]; simpl; [discriminate|].
  destruct (Ascii.eqb c sep); [discriminate|].
  destruct (split sep s); discriminate.
Qed.

Lemma split_at_sep (sep : ascii) (a b : string) :
  split sep (a +++ String sep b) = split sep a ++ split sep b.
Proof.
  induction a as [|c a IH]; simpl.
  - now rewrite Ascii.eqb_refl.
  - destruct (Ascii.eqb c sep); [now rewrite IH|].
    rewrite IH. pose proof (split_nonempty sep a) as Hne.
    destruct (split sep a); [contradiction | reflexivity].
Qed.

Lemma split_no_slash (n : string) : no_slash n = true -> split slash n = [n].
Proof.
  induction n as [|c n IH]; simpl; [reflexivity|].
  intros H. apply andb_true_iff in H. destruct H as [Hc Hn].
  apply negb_true_iff in Hc. rewrite Hc, (IH Hn). reflexivity.
Qed.

Lemma split_fold_names (names : list string) :
  Forall (fun n => no_slash n = true) names ->
  forall A,
    split slash (fold_left (fun acc n => acc +++ n +++ "/") names
                           (A +++ String slash EmptyString))
    = split slash A ++ names ++ [EmptyString].
Proof.
  induction 1 as [|n names Hn _ IH]; intros A; cbn [fold_left].
  - rewrite split_at_sep. reflexivity.
  - replace ((A +++ String slash EmptyString) +++ n +++ "/")
      with ((A +++ String slash n) +++ String slash EmptyString).
    + rewrite IH, split_at_sep, (split_no_slash n Hn), <- app_assoc. reflexivity.
    + rewrite !append_assoc. reflexivity.
Qed.

(** The segments of the path that a list of plain names spells are the
    names, between two empty segments. *)
Lemma split_path_of_names (names : list string) :
  Forall (fun n => no_slash n = true) names ->
  split slash (path_of_names names) = EmptyString :: names ++ [EmptyString].
Proof.
  intros Hall. exact (split_fold_names names Hall EmptyString).
Qed.

Lemma path_parts_of_names (names : list string) :
  Forall (fun n => no_slash n = true /\ n <> EmptyString) names ->
  filter (fun part => negb (part =? "")) (split slash (path_of_names names)) = names.
Proof.
  intros Hall. rewrite split_path_of_names.
  - simpl. rewrite filter_app. simpl. rewrite app_nil_r.
    induction Hall as [|n names [_ Hn] _ IH]; simpl; [reflexivity|].
    apply String.eqb_neq in Hn. rewrite Hn. simpl. now rewrite IH.
  - eapply Forall_impl; [|exact Hall]. simpl. tauto.
Qed.

Lemma insert_by_path_In (f x : Folder.t) (l : list Folder.t) :
  In x (insert_by_path f l) <-> x = f \/ In x l.
Proof.
  induction l as [|g l IH]; simpl; [intuition|].
  destruct (String.leb (Folder.path f) (Folder.path g)); simpl; [intuition|].
  rewrite IH. intuition.
Qed.

Lemma order_by_path_In (x : Folder.t) (l : list Folder.t) :
  In x (order_by_path l) <-> In x l.
Proof.
  induction l as [|f l IH]; simpl; [tauto|].
  rewrite insert_by_path_In, IH. intuition.
Qed.

Lemma ancestor_In (rows : list Folder.t) (a f : Folder.t) :
  ancestor rows a f -> In a rows.
Proof. induction 1; assumption. Qed.

Lemma ancestor_owned (s : Supabase) (a f : Folder.t) :
  backend_ok s -> In f (fm_folders s) -> owns_folder s f = true ->
  ancestor (fm_folders s) a f -> owns_folder s a = true.
Proof.
  intros Hok Hin Hown Hanc. revert Hin Hown.
  induction Hanc as [a f Ha Hp | a g f Hanc IH Hg Hp]; intros Hin Hown.
  - pose proof (ok_owner s Hok f a Hin Ha Hp) as E.
    unfold owns_folder in *. destruct (session s); [|discriminate]. now rewrite <- E.
  - apply IH; [assumption|].
    pose proof (ok_owner s Hok f g Hin Hg Hp) as E.
    unfold owns_folder in *. destruct (session s); [|discriminate]. now rewrite <- E.
Qed.

(** The chain above a folder, with enough fuel, whatever the keys are. *)
Lemma chain_above_spec (rows : list Folder.t) :
  tree_ok rows ->
  forall fuel l1 c l2,
    rows = l1 ++ c :: l2 -> length l1 < fuel ->
    Folder.path c = path_of_names (map Folder.name (chain_above fuel rows c)) /\
    (forall a, In a (chain_above fuel rows c) <-> ancestor rows a c).
Proof.
  intros [Hd Hp]. induction fuel as [|n IH]; intros l1 c l2 E Hlen; [lia|].
  assert (Hc : In c rows) by (rewrite E; apply in_or_app; right; now left).
  cbn [chain_above].
  pose proof (Hp _ _ _ E) as Hpar. unfold parent_ok in Hpar.
  destruct (Folder.parent_id c) as [p|] eqn:P.
  - destruct Hpar as (g & Hg & Hid & Hpath). subst p.
    assert (Hgin : In g rows) by (rewrite E; apply in_or_app; now left).
    rewrite (find_unique_id _ g Hd Hgin).
    destruct (in_split _ _ Hg) as (la & lb & El1).
    destruct (IH la g (lb ++ c :: l2)) as (Hpg & Hanc).
    { rewrite E, El1, <- app_assoc. reflexivity. }
    { rewrite El1, length_app in Hlen. simpl in Hlen. lia. }
    split.
    + rewrite map_app. simpl. rewrite path_of_names_snoc, <- Hpg. exact Hpath.
    + intros a. split.
      * intros Ha. apply in_app_or in Ha. destruct Ha as [Ha|[<-|[]]].
        -- apply anc_step with (g := g); auto. now apply Hanc.
        -- now apply anc_parent.
      * intros Ha. apply in_or_app. apply ancestor_parent in Ha.
        destruct Ha as (g' & Hg' & Hpg' & Ha).
        assert (g' = g).
        { apply (NoDup_map_inj Folder.id rows); auto. congruence. }
        subst g'. destruct Ha as [->|Ha]; [right; now left | left; now apply Hanc].
  - split; [assumption|]. intros a. split; [intros []|].
    intros Ha. apply ancestor_parent in Ha. destruct Ha as (g & _ & Hg & _).
    congruence.
Qed.

(** X11.  In a backend reached by a run whose folder names are plain (not
    empty, without ["/"]), for a folder of the signed-in user:
    [getFolderBreadcrumbs] succeeds; the trail ends with the folder itself;
    every ancestor of the folder is in the trail; every entry before the
    last is a folder of the user that has the name of an ancestor; and the
    trail of a folder without parent is the folder alone. *)
Theorem getFolderBreadcrumbs_holds_ancestors (actions : list Action) (f : Folder.t) :
  plain_names (fm_folders (run_actions actions empty_backend)) ->
  In f (fm_folders (run_actions actions empty_backend)) ->
  owns_folder (run_actions actions empty_backend) f = true ->
  exists before,
    getFolderBreadcrumbs (Folder.id f) (run_actions actions empty_backend)
      = Ok (before ++ [crumb_of f]) /\
    (forall a, ancestor (fm_folders (run_actions actions empty_backend)) a f ->
               In (crumb_of a) before) /\
    (forall c, In c before ->
       exists g a,
         c = crumb_of g /\
         In g (fm_folders (run_actions actions empty_backend)) /\
         owns_folder (run_actions actions empty_backend) g = true /\
         ancestor (fm_folders (run_actions actions empty_backend)) a f /\
         Folder.name g = Folder.name a) /\
    (Folder.parent_id f = None -> before = []).
Proof.
  set (s := run_actions actions empty_backend).
  assert (Hok : backend_ok s) by apply backend_ok_run_actions, backend_ok_empty.
  intros Hplain Hin Hown.
  pose proof (ok_tree s Hok) as Htree. pose proof Htree as [Hd _].
  destruct (in_split _ _ Hin) as (l1 & l2 & E).
  assert (Hlen : length l1 < length (fm_folders s)).
  { rewrite E, length_app. simpl. lia. }
  destruct (chain_above_spec _ Htree _ l1 f l2 E Hlen) as (Hpath & Hanc).
  set (chain := chain_above (length (fm_folders s)) (fm_folders s) f) in *.
  assert (Hparts : filter (fun part => negb (part =? ""))
                          (split slash (Folder.path f)) = map Folder.name chain).
  { rewrite Hpath. apply path_parts_of_names. apply Forall_forall.
    intros n Hn. apply in_map_iff in Hn. destruct Hn as (a & <- & Ha).
    apply Hanc, ancestor_In in Ha. destruct (Hplain a Ha). auto. }
  unfold getFolderBreadcrumbs.
  rewrite (single_by_id s f Hd Hin Hown). cbv zeta. rewrite Hparts.
  set (before :=
         match map Folder.name chain with
         | [] => []
         | _ :: _ =>
             map crumb_of
               (order_by_path
                  (filter (fun g => owns_folder s g &&
                                    mem (Folder.name g) (map Folder.name chain))
                          (fm_folders s)))
         end).
  exists before. split; [reflexivity|]. split; [|split].
  - intros a Ha. pose proof Ha as Hac. apply Hanc in Hac.
    unfold before. destruct (map Folder.name chain) as [|n ns] eqn:Hn.
    + destruct chain; [destruct Hac | discriminate].
    + rewrite <- Hn. apply in_map. apply order_by_path_In. apply filter_In.
      split; [eapply ancestor_In; eauto|].
      rewrite (ancestor_owned s a f Hok Hin Hown Ha). simpl.
      apply mem_In. now apply in_map.
  - intros c Hc. unfold before in Hc.
    destruct (map Folder.name chain) as [|n ns] eqn:Hn; [destruct Hc|].
    rewrite <- Hn in Hc. apply in_map_iff in Hc. destruct Hc as (g & <- & Hg).
    apply order_by_path_In, filter_In in Hg. destruct Hg as [Hg Hk].
    apply andb_true_iff in Hk. destruct Hk as [Hog Hm].
    apply mem_In, in_map_iff in Hm. destruct Hm as (a & Hna & Ha).
    exists g, a. repeat split; auto. now apply Hanc.
  - intros Hp. unfold before.
    destruct chain as [|a chain'] eqn:Hch; [reflexivity|].
    assert (Ha : ancestor (fm_folders s) a f) by (apply Hanc; now left).
    apply ancestor_parent in Ha. destruct Ha as (g & _ & Hg & _). congruence.
Qed.

Lemma getFolderBreadcrumbs_holds_ancestors_witness :
  exists before,
    getFolderBreadcrumbs (Folder.id row_c)
        (run_actions (map Basic collision_ops) empty_backend)
      = Ok (before ++ [crumb_of row_c]) /\
    In (crumb_of row_a) before.
Proof.
  destruct (getFolderBreadcrumbs_holds_ancestors (map Basic collision_ops) row_c)
    as (before & H1 & H2 & _).
  - intros g Hg. vm_compute in Hg.
    destruct Hg as [<-|[<-|[<-|[<-|[<-|[]]]]]]; (split; [discriminate | reflexivity]).
  - vm_compute. tauto.
  - reflexivity.
  - exists before. split; [exact H1|]. apply H2.
    apply anc_parent; [vm_compute; tauto | reflexivity].
Defined.

(** * Tokens *)

Lemma substring_all (s : string) : String.substring 0 (String.length s) s = s.
Proof. induction s as [|c s IH]; simpl; [reflexivity | now rewrite IH]. Qed.

Lemma prefix_append (p h : string) :
  String.prefix p h = true -> exists t, h = p +++ t.
Proof.
  revert h. induction p as [|c p IH]; intros h.
  - intros _. exists h. reflexivity.
  - destruct h as [|c' h]; simpl; [discriminate|].
    destruct (ascii_dec c c') as [<-|]; [|discriminate].
    intros H. destruct (IH h H) as (t & ->). exists t. reflexivity.
Qed.

Lemma prefix_empty (h : string) : String.prefix EmptyString h = true.
Proof. now destruct h. Qed.

Lemma extract_bearer (t : string) :
  extractTokenFromRequest (Some ("Bearer " +++ t)) = Some t.
Proof.
  unfold extractTokenFromRequest. simpl. rewrite prefix_empty. simpl.
  replace (String.length t - 0) with (String.length t) by lia.
  now rewrite substring_all.
Qed.

Lemma extract_Some (h : option string) (t : string) :
  extractTokenFromRequest h = Some t -> h = Some ("Bearer " +++ t).
Proof.
  intros H.
  assert (P : exists t', h = Some ("Bearer " +++ t')).
  { unfold extractTokenFromRequest in H. destruct h as [h|]; [|discriminate].
    destruct (negb (truthy (Some h))); [discriminate|]. cbn [orb] in H.
    destruct (String.prefix "Bearer " h) eqn:P; [|discriminate].
    apply prefix_append in P. destruct P as (t' & ->). eauto. }
  destruct P as (t' & ->). rewrite extract_bearer in H. now inversion H.
Qed.

(** X12.  [extractTokenFromRequest] returns the token of a header
    ["Bearer <token>"], and returns a token only for such a header: a
    missing header, an empty one and one with another scheme give
    [null]. *)
Theorem extractTokenFromRequest_bearer :
  (forall t, extractTokenFromRequest (Some ("Bearer " +++ t)) = Some t) /\
  (forall h t, extractTokenFromRequest h = Some t <-> h = Some ("Bearer " +++ t)) /\
  extractTokenFromRequest None = None /\
  extractTokenFromRequest (Some EmptyString) = None /\
  (forall t, extractTokenFromRequest (Some ("bearer " +++ t)) = None) /\
  (forall t, extractTokenFromRequest (Some ("Basic " +++ t)) = None).
Proof.
  split; [exact extract_bearer|]. split; [|repeat split; reflexivity].
  intros h t. split; [apply extract_Some|]. intros ->. apply extract_bearer.
Qed.

Lemma authenticate_bearer (verifyToken : string -> option AuthTokenPayload)
  (t : string) :
  t <> EmptyString ->
  authenticateRequest verifyToken (Some ("Bearer " +++ t))
    = match verifyToken t with
      | Some payload => inl payload
      | None => inr InvalidToken
      end.
Proof.
  intros Hne. unfold authenticateRequest. rewrite extract_bearer.
  apply String.eqb_neq in Hne. cbn [truthy]. rewrite Hne. reflexivity.
Qed.

Lemma authenticate_no_token (verifyToken : string -> option AuthTokenPayload)
  (authorization : option string) :
  (forall t, authorization = Some ("Bearer " +++ t) -> t = EmptyString) ->
  authenticateRequest verifyToken authorization = inr NoTokenProvided.
Proof.
  intros H. unfold authenticateRequest.
  destruct (extractTokenFromRequest authorization) as [t|] eqn:E; [|reflexivity].
  apply extract_Some in E. rewrite (H t E). reflexivity.
Qed.

(** X13.  [authenticateRequest] returns a payload exactly for a header
    ["Bearer <token>"] with a token that is not empty and that
    [verifyToken] accepts, and then the payload [verifyToken] gives; it
    fails with 'Invalid token' exactly when such a token is refused, and
    with 'No token provided' in every other case. *)
Theorem authenticateRequest_cases
  (verifyToken : string -> option AuthTokenPayload) (authorization : option string) :
  (forall payload,
     authenticateRequest verifyToken authorization = inl payload <->
     exists t, authorization = Some ("Bearer " +++ t) /\ t <> EmptyString /\
               verifyToken t = Some payload) /\
  (authenticateRequest verifyToken authorization = inr InvalidToken <->
   exists t, authorization = Some ("Bearer " +++ t) /\ t <> EmptyString /\
             verifyToken t = None) /\
  (authenticateRequest verifyToken authorization = inr NoTokenProvided <->
   forall t, authorization = Some ("Bearer " +++ t) -> t = EmptyString).
Proof.
  assert (Hcases : (exists t, authorization = Some ("Bearer " +++ t) /\
                              t <> EmptyString) \/
                   (forall t, authorization = Some ("Bearer " +++ t) ->
                              t = EmptyString)).
  { destruct (extractTokenFromRequest authorization) as [t|] eqn:E.
    - apply extract_Some in E. destruct (string_dec t EmptyString) as [->|Hne].
      + right. intros t H. rewrite E in H. now inversion H.
      + left. eauto.
    - right. intros t ->. rewrite extract_bearer in E. discriminate. }
  destruct Hcases as [(t & -> & Hne) | Hnone].
  - rewrite (authenticate_bearer verifyToken t Hne).
    assert (Hinj : forall t', Some ("Bearer " +++ t) = Some ("Bearer " +++ t') ->
                              t' = t) by (intros t' H; now inversion H).
    destruct (verifyToken t) as [p|] eqn:V; (split; [|split]); split;
      first [ discriminate
            | solve [intros (t' & H & _ & V'); apply Hinj in H; subst; congruence]
            | solve [intros H; inversion H; subst; eauto]
            | solve [intros H; exfalso; apply Hne; now apply H]
            | solve [intros _; eauto] ].
  - rewrite (authenticate_no_token verifyToken authorization Hnone).
    split; [|split]; split; try discriminate; auto.
    + intros (t & H & Hne & _). exfalso. apply Hne. now apply Hnone.
    + intros (t & H & Hne & _). exfalso. apply Hne. now apply Hnone.
Qed.

(** ** The token on its way from the client to the server *)

Lemma token_store_inv (calls : list TokenCall) (c : ApiClient.t) :
  ApiClient.window c = true ->
  ApiClient.token c = None \/ ApiClient.token c = ApiClient.localStorage c ->
  ApiClient.window (fold_left run_call calls c) = true /\
  (ApiClient.token (fold_left run_call calls c) = None \/
   ApiClient.token (fold_left run_call calls c)
     = ApiClient.localStorage (fold_left run_call calls c)) /\
  ApiClient.localStorage (fold_left run_call calls c)
    = last_token calls (ApiClient.localStorage c).
Proof.
  revert c. induction calls as [|call calls IH]; intros c W I; [now auto|].
  destruct c as [tok w ls]. cbn [ApiClient.window ApiClient.token
                                 ApiClient.localStorage] in *. subst w.
  cbn [fold_left].
  destruct call as [t| | |]; cbn [run_call last_token].
  - unfold ApiClient.setToken. cbn [ApiClient.window ApiClient.localStorage].
    apply IH; cbn; auto.
  - unfold ApiClient.clearToken. cbn [ApiClient.window ApiClient.localStorage].
    apply IH; cbn; auto.
  - unfold ApiClient.getToken. cbn [ApiClient.window ApiClient.token
                                    ApiClient.localStorage].
    destruct (truthy tok); cbn [snd]; apply (IH (ApiClient.mk _ true ls)); cbn; auto.
  - unfold ApiClient.reload. cbn [ApiClient.window ApiClient.localStorage].
    apply IH; cbn; auto.
Qed.

Lemma getToken_stored (c : ApiClient.t) :
  ApiClient.window c = true ->
  ApiClient.token c = None \/ ApiClient.token c = ApiClient.localStorage c ->
  fst (ApiClient.getToken c) = ApiClient.localStorage c.
Proof.
  intros W I. unfold ApiClient.getToken. rewrite W.
  destruct (truthy (ApiClient.token c)) eqn:T; [|reflexivity].
  destruct I as [I|I]; [rewrite I in T; discriminate | exact I].
Qed.

(** X14.  In a browser, whatever calls of [setToken], [clearToken] and
    [getToken] and whatever page loads a client has seen, the
    [Authorization] header of its next request is ["Bearer <token>"] for
    the token last set and not cleared since (the stored one when none was
    set), and no header when there is none or it is empty; on the server
    [authenticateRequest] then gives the verdict of [verifyToken] on
    exactly that token, and 'No token provided' when there is none. *)
Theorem client_token_reaches_server
  (verifyToken : string -> option AuthTokenPayload) (stored : option string)
  (calls : list TokenCall) :
  fst (ApiClient.authorization
         (fold_left run_call calls (ApiClient.mk None true stored)))
    = option_map (String.append "Bearer ") (or_null (last_token calls stored)) /\
  authenticateRequest verifyToken
    (fst (ApiClient.authorization
            (fold_left run_call calls (ApiClient.mk None true stored))))
    = match or_null (last_token calls stored) with
      | Some tok =>
          match verifyToken tok with
          | Some payload => inl payload
          | None => inr InvalidToken
          end
      | None => inr NoTokenProvided
      end.
Proof.
  destruct (token_store_inv calls (ApiClient.mk None true stored))
    as (W & I & L); [reflexivity | now left |].
  cbn [ApiClient.localStorage] in L.
  pose proof (getToken_stored _ W I) as G. rewrite L in G.
  assert (H : fst (ApiClient.authorization
                     (fold_left run_call calls (ApiClient.mk None true stored)))
              = option_map (String.append "Bearer ")
                           (or_null (last_token calls stored))).
  { unfold ApiClient.authorization.
    destruct (ApiClient.getToken _) as [tok c']. cbn [fst] in *. subst tok.
    unfold or_null. destruct (last_token calls stored) as [v|]; [|reflexivity].
    destruct (truthy (Some v)); reflexivity. }
  split; [exact H|]. rewrite H. unfold or_null.
  destruct (last_token calls stored) as [v|]; [|reflexivity].
  destruct (truthy (Some v)) eqn:T; [|reflexivity].
  cbn [option_map]. apply authenticate_bearer.
  intros ->. discriminate.
Qed.

(** * The job records of the queue *)

Lemma map_get_app (id : string) (l1 l2 : JobMap) :
  map_get id (l1 ++ l2)
    = match map_get id l1 with
      | Some v => Some v
      | None => map_get id l2
      end.
Proof.
  induction l1 as [|[k v] l1 IH]; simpl; [reflexivity|].
  destruct (k =? id); [reflexivity | exact IH].
Qed.

Lemma pending_entry (k : string) (p : QueueJob.t) (pend : JobMap) :
  all_status (Status_eqb pending) ((k, p) :: pend) ->
  QueueJob.status p = pending /\ all_status (Status_eqb pending) pend.
Proof.
  intros H. inversion H as [|? ? Hp Hrest]; subst. split; [|exact Hrest].
  simpl in Hp. destruct (QueueJob.status p); try discriminate; reflexivity.
Qed.

Lemma keys_ok_entry (l1 l2 : JobMap) (k : string) (v : QueueJob.t) :
  keys_ok (l1 ++ (k, v) :: l2) -> QueueJob.id v = k.
Proof.
  intros [_ Hf]. apply Forall_app in Hf. destruct Hf as [_ Hf].
  now inversion Hf.
Qed.

(** The four steps a queue in one of its two shapes can make. *)
Lemma step_forms (q q' : InMemoryQueue) :
  shape q -> step q q' ->
  (exists id job,
     map_get id (jobs q) = None /\
     QueueJob.processedAt job = None /\
     terminal (QueueJob.status job) = false /\
     jobs q' = jobs q ++ [(id, job)]) \/
  (exists done j pend o now,
     jobs q = done ++ (QueueJob.id j, j) :: pend /\
     QueueJob.status j = processing /\
     all_status terminal done /\
     jobs q' = done ++ (QueueJob.id j, with_status (outcome_status o) (Some now) j)
                 :: match pend with
                    | [] => []
                    | (k, p) :: rest => (k, with_status processing None p) :: rest
                    end /\
     all_status (Status_eqb pending) pend).
Proof.
  intros Hs Hstep. destruct Hstep as [id data now q Hfresh | i o now q Hi].
  - left.
    destruct Hs as [done Hk Hdone | done j pend Hk Hdone Hj Hpend]; simpl in Hfresh.
    + rewrite addJob_idle by assumption. cbn [jobs].
      eexists id, _. repeat split; [assumption | reflexivity..].
    + rewrite addJob_busy by assumption. cbn [jobs].
      eexists id, _. repeat split; [assumption | reflexivity..].
  - right.
    destruct Hs as [done Hk Hdone | done j pend Hk Hdone Hj Hpend]; simpl in Hi; [lia|].
    assert (i = 0) by lia. subst i.
    exists done, j, pend, o, now. cbn [jobs].
    destruct pend as [|[k p] pend].
    + rewrite resume_last by assumption. cbn [jobs]. auto.
    + destruct (pending_entry _ _ _ Hpend) as [Hp _].
      pose proof Hk as Hkp.
      change (done ++ (QueueJob.id j, j) :: (k, p) :: pend)
        with (done ++ [(QueueJob.id j, j)] ++ (k, p) :: pend) in Hkp.
      rewrite app_assoc in Hkp. apply keys_ok_entry in Hkp. subst k.
      rewrite resume_next by assumption. cbn [jobs].
      rewrite <- app_assoc. auto.
Qed.

(** A step drops no job, and changes a record only by [job_step]. *)
Lemma step_job (q q' : InMemoryQueue) (id : string) (job : QueueJob.t) :
  shape q -> step q q' -> getJob id q = Some job ->
  exists job', getJob id q' = Some job' /\ job_step job job'.
Proof.
  intros Hs Hstep Hget. unfold getJob in *.
  pose proof (shape_keys_ok _ (step_shape _ _ Hs Hstep)) as Hk'.
  destruct (step_forms _ _ Hs Hstep)
    as [(id0 & job0 & _ & _ & _ & E) | (done & j & pend & o & now & Eq & Hj & _ & E & Hpend)].
  - exists job. split; [|constructor]. rewrite E, map_get_app, Hget. reflexivity.
  - rewrite E in *. rewrite Eq in Hget.
    apply map_get_In in Hget. apply in_app_or in Hget.
    destruct Hget as [Hin | [Hin | Hin]].
    + exists job. split; [|constructor].
      apply keys_ok_In; [assumption|]. apply in_or_app. now left.
    + inversion Hin; subst. eexists. split; [|now apply job_settled].
      apply keys_ok_In; [assumption|]. apply in_or_app. right. now left.
    + destruct pend as [|[k p] pend]; [destruct Hin|].
      destruct (pending_entry _ _ _ Hpend) as [Hp _].
      destruct Hin as [Hin | Hin].
      * inversion Hin; subst. eexists. split; [|now apply job_taken].
        apply keys_ok_In; [assumption|]. apply in_or_app. right. right. now left.
      * exists job. split; [|constructor].
        apply keys_ok_In; [assumption|]. apply in_or_app. right. right. now right.
Qed.

Lemma job_step_fields (job job' : QueueJob.t) :
  job_step job job' ->
  QueueJob.id job' = QueueJob.id job /\
  QueueJob.type job' = QueueJob.type job /\
  QueueJob.data job' = QueueJob.data job /\
  QueueJob.createdAt job' = QueueJob.createdAt job /\
  (terminal (QueueJob.status job) = true -> job' = job).
Proof.
  destruct 1 as [job | job Hp | job o now Hp]; repeat split; auto;
    rewrite Hp; discriminate.
Qed.

Lemma reachable_stamp_ok (q : InMemoryQueue) :
  reachable q -> Forall stamp_ok (map_values (jobs q)).
Proof.
  induction 1 as [|q q' Hr IH Hstep]; [constructor|].
  pose proof (reachable_shape _ Hr) as Hs.
  unfold map_values in *.
  destruct (step_forms _ _ Hs Hstep)
    as [(id0 & job0 & _ & Hnone & Hst & E) | (done & j & pend & o & now & Eq & Hj & _ & E & Hpend)];
    rewrite E.
  - rewrite map_app. apply Forall_app. split; [exact IH|].
    constructor; [|constructor]. unfold stamp_ok. cbn [snd].
    rewrite Hnone, Hst. split; [discriminate | congruence].
  - rewrite Eq in IH. rewrite map_app in *. apply Forall_app in IH.
    destruct IH as [IH1 IH2]. apply Forall_app. split; [exact IH1|].
    cbn [map snd] in *. inversion IH2 as [|? ? Hj0 IH3]; subst.
    constructor.
    + unfold stamp_ok. cbn. split; [discriminate | now destruct o].
    + destruct pend as [|[k p] pend]; [constructor|].
      destruct (pending_entry _ _ _ Hpend) as [Hp _].
      cbn [map snd] in *. inversion IH3 as [|? ? Hp0 IH4]; subst.
      constructor; [|exact IH4].
      unfold stamp_ok in *. cbn. rewrite Hp in Hp0. cbn in Hp0.
      split; [discriminate | intros H; apply Hp0 in H; discriminate].
Qed.

(** X15.  From a state the queue reaches, through any further
    submissions and settlings: a job is never dropped; its id (the key it
    is found under), type, data and creation time stay as submitted; once
    it is completed or failed its record does not change any more; and
    [processedAt] is set exactly when the job is completed or failed. *)
Theorem queue_keeps_jobs (q q' : InMemoryQueue) (id : string) (job : QueueJob.t) :
  reachable q -> steps q q' -> getJob id q = Some job ->
  exists job',
    getJob id q' = Some job' /\
    QueueJob.id job' = id /\
    QueueJob.type job' = QueueJob.type job /\
    QueueJob.data job' = QueueJob.data job /\
    QueueJob.createdAt job' = QueueJob.createdAt job /\
    (terminal (QueueJob.status job) = true -> job' = job) /\
    (terminal (QueueJob.status job') = true <-> QueueJob.processedAt job' <> None).
Proof.
  intros Hr Hsteps. revert job Hr.
  induction Hsteps as [q | q q1 q2 Hstep _ IH]; intros job Hr Hget.
  - exists job. split; [exact Hget|].
    pose proof (reachable_shape _ Hr) as Hs.
    pose proof (map_get_In _ _ _ Hget) as Hin.
    assert (Hid : QueueJob.id job = id).
    { destruct (shape_keys_ok _ Hs) as [_ Hf]. rewrite Forall_forall in Hf.
      exact (Hf _ Hin). }
    repeat split; auto;
      pose proof (reachable_stamp_ok _ Hr) as Hst; rewrite Forall_forall in Hst;
      apply (Hst job); unfold map_values; apply in_map_iff;
      exists (id, job); auto.
  - destruct (step_job _ _ id job (reachable_shape _ Hr) Hstep Hget)
      as (job1 & Hget1 & Hjs).
    destruct (job_step_fields _ _ Hjs) as (_ & F2 & F3 & F4 & F5).
    destruct (IH job1 (reach_step _ _ Hr Hstep) Hget1)
      as (job' & G & G1 & G2 & G3 & G4 & G5 & G6).
    exists job'. repeat split; try congruence; try apply G6.
    intros Ht. pose proof (F5 Ht) as E. subst job1. now apply G5.
Qed.

Lemma queue_keeps_jobs_witness :
  exists job',
    getJob "j2" (resume 0 (Resolved "/api/zip/j1") 5 two_jobs) = Some job' /\
    QueueJob.data job' = mkJobData ["c"] "u1" /\
    QueueJob.createdAt job' = 2%N.
Proof.
  assert (Hr : reachable two_jobs).
  { unfold two_jobs.
    apply reach_step with (q := addJob "j1" zip (mkJobData ["a"; "b"] "u1") 1 new_InMemoryQueue).
    - apply reach_step with (q := new_InMemoryQueue).
      + apply reach_new.
      + apply step_submit. reflexivity.
    - apply step_submit. reflexivity. }
  destruct (queue_keeps_jobs two_jobs (resume 0 (Resolved "/api/zip/j1") 5 two_jobs)
              "j2" (QueueJob.mk "j2" zip (mkJobData ["c"] "u1") pending 2 None) Hr)
    as (job' & G & _ & _ & G3 & G4 & _).
  - eapply steps_step; [|apply steps_refl]. apply step_resume. vm_compute. lia.
  - reflexivity.
  - exists job'. repeat split; assumption.
Defined.

(** ** The drain loop, job by job *)

Lemma drain_idle (outcomes : list (Settled * N)) (done : JobMap) :
  drain outcomes (mkQueue done false []) = mkQueue done false [].
Proof.
  induction outcomes as [|[o now] outcomes IH]; [reflexivity|].
  cbn [drain]. unfold resume. cbn [loops nth_error]. exact IH.
Qed.

Lemma drain_busy_done (outcomes : list (Settled * N)) :
  forall done j pend,
    keys_ok (done ++ (QueueJob.id j, j) :: pend) ->
    all_status terminal done ->
    QueueJob.status j = processing ->
    all_status (Status_eqb pending) pend ->
    forall id v,
      map_get id done = Some v ->
      map_get id (jobs (drain outcomes
                          (mkQueue (done ++ (QueueJob.id j, j) :: pend) true [j])))
        = Some v.
Proof.
  induction outcomes as [|[o now] outcomes IH];
    intros done j pend Hk Hdone Hj Hpend id v Hget; cbn [drain].
  - cbn [jobs]. now rewrite map_get_app, Hget.
  - pose proof (shape_busy _ _ _ Hk Hdone Hj Hpend) as Hs.
    assert (Hstep : step (mkQueue (done ++ (QueueJob.id j, j) :: pend) true [j])
                         (resume 0 o now
                            (mkQueue (done ++ (QueueJob.id j, j) :: pend) true [j]))).
    { apply step_resume. cbn. lia. }
    pose proof (step_shape _ _ Hs Hstep) as Hs'.
    assert (Hget' : map_get id (done ++ [(QueueJob.id j,
                       with_status (outcome_status o) (Some now) j)]) = Some v).
    { now rewrite map_get_app, Hget. }
    destruct pend as [|[k p] pend].
    + rewrite resume_last in * by assumption. rewrite drain_idle. exact Hget'.
    + destruct (pending_entry _ _ _ Hpend) as [Hp Hrest].
      pose proof Hk as Hkp.
      change (done ++ (QueueJob.id j, j) :: (k, p) :: pend)
        with (done ++ [(QueueJob.id j, j)] ++ (k, p) :: pend) in Hkp.
      rewrite app_assoc in Hkp. apply keys_ok_entry in Hkp. subst k.
      pose proof (shape_keys_ok _ Hs') as Hk'.
      rewrite resume_next in Hk' |- * by assumption. cbn [jobs] in Hk'.
      assert (Hdone' : all_status terminal
                (done ++ [(QueueJob.id j, with_status (outcome_status o) (Some now) j)])).
      { apply Forall_app. split; [assumption|]. constructor; [|constructor].
        now destruct o. }
      exact (IH _ (with_status processing None p) pend Hk' Hdone' eq_refl Hrest
                id v Hget').
Qed.

Lemma drain_busy_nth (outcomes : list (Settled * N)) :
  forall done j pend,
    keys_ok (done ++ (QueueJob.id j, j) :: pend) ->
    all_status terminal done ->
    QueueJob.status j = processing ->
    all_status (Status_eqb pending) pend ->
    forall i job o now,
      nth_error (j :: map snd pend) i = Some job ->
      nth_error outcomes i = Some (o, now) ->
      map_get (QueueJob.id job)
              (jobs (drain outcomes
                       (mkQueue (done ++ (QueueJob.id j, j) :: pend) true [j])))
        = Some (with_status (outcome_status o) (Some now) job).
Proof.
  induction outcomes as [|[o1 now1] outcomes IH];
    intros done j pend Hk Hdone Hj Hpend i job o now Hjob Hout; cbn [drain].
  - destruct i; discriminate.
  - pose proof (shape_busy _ _ _ Hk Hdone Hj Hpend) as Hs.
    assert (Hstep : step (mkQueue (done ++ (QueueJob.id j, j) :: pend) true [j])
                         (resume 0 o1 now1
                            (mkQueue (done ++ (QueueJob.id j, j) :: pend) true [j]))).
    { apply step_resume. cbn. lia. }
    pose proof (shape_keys_ok _ (step_shape _ _ Hs Hstep)) as Hk'.
    assert (Hdone' : all_status terminal
              (done ++ [(QueueJob.id j, with_status (outcome_status o1) (Some now1) j)])).
    { apply Forall_app. split; [assumption|]. constructor; [|constructor].
      now destruct o1. }
    assert (Hfirst : map_get (QueueJob.id j)
              (done ++ [(QueueJob.id j, with_status (outcome_status o1) (Some now1) j)])
              = Some (with_status (outcome_status o1) (Some now1) j)).
    { apply map_get_middle. eapply keys_ok_middle; eauto. }
    destruct pend as [|[k p] pend].
    + rewrite resume_last in * by assumption. rewrite drain_idle. cbn [jobs].
      destruct i as [|[|i]]; try discriminate.
      cbn in Hjob, Hout. inversion Hjob; inversion Hout; subst. exact Hfirst.
    + destruct (pending_entry _ _ _ Hpend) as [Hp Hrest].
      pose proof Hk as Hkp.
      change (done ++ (QueueJob.id j, j) :: (k, p) :: pend)
        with (done ++ [(QueueJob.id j, j)] ++ (k, p) :: pend) in Hkp.
      rewrite app_assoc in Hkp. apply keys_ok_entry in Hkp. subst k.
      rewrite resume_next in Hk' |- * by assumption. cbn [jobs] in Hk'.
      destruct i as [|i].
      * cbn in Hjob, Hout. inversion Hjob; inversion Hout; subst.
        exact (drain_busy_done outcomes _ (with_status processing None p) pend
                 Hk' Hdone' eq_refl Hrest _ _ Hfirst).
      * cbn [nth_error map snd] in Hjob, Hout.
        destruct i as [|i].
        -- cbn in Hjob. inversion Hjob; subst.
           exact (IH _ (with_status processing None job) pend Hk' Hdone' eq_refl
                     Hrest 0 (with_status processing None job) o now eq_refl Hout).
        -- exact (IH _ (with_status processing None p) pend Hk' Hdone' eq_refl
                     Hrest (S i) job o now Hjob Hout).
Qed.

Lemma unfinished_busy (done : JobMap) (j : QueueJob.t) (pend : JobMap) (f : bool)
  (l : list QueueJob.t) :
  all_status terminal done -> QueueJob.status j = processing ->
  all_status (Status_eqb pending) pend ->
  unfinished (mkQueue (done ++ (QueueJob.id j, j) :: pend) f l) = j :: map snd pend.
Proof.
  intros Hdone Hj Hpend. unfold unfinished, map_values. cbn [jobs].
  rewrite map_app, filter_app. cbn [map snd filter]. rewrite Hj. cbn.
  replace (filter _ (map snd done)) with (@nil QueueJob.t).
  - cbn. f_equal. induction Hpend as [|[k p] pend Hp _ IH]; [reflexivity|].
    cbn in *. destruct (QueueJob.status p); try discriminate. cbn. now rewrite IH.
  - induction Hdone as [|[k v] done Hv _ IH]; [reflexivity|].
    cbn in *. rewrite Hv. cbn. exact IH.
Qed.

Lemma unfinished_idle (done : JobMap) (f : bool) (l : list QueueJob.t) :
  all_status terminal done -> unfinished (mkQueue done f l) = [].
Proof.
  intros Hdone. unfold unfinished, map_values. cbn [jobs].
  induction Hdone as [|[k v] done Hv _ IH]; [reflexivity|].
  cbn in *. rewrite Hv. cbn. exact IH.
Qed.

(** X16.  From a state the queue reaches, when the awaited job bodies
    settle one after the other: the i-th outcome goes to the i-th job not
    yet finished, in the order of submission, which ends with the status
    of that outcome and the time of its settling and is otherwise as
    submitted; a job already finished keeps its record.  This holds for
    any number of outcomes, fewer or more than there are jobs. *)
Theorem drain_outcomes_in_order (q : InMemoryQueue)
  (outcomes : list (Settled * N)) :
  reachable q ->
  (forall i job o now,
     nth_error (unfinished q) i = Some job ->
     nth_error outcomes i = Some (o, now) ->
     getJob (QueueJob.id job) (drain outcomes q)
       = Some (with_status (outcome_status o) (Some now) job)) /\
  (forall id job,
     getJob id q = Some job -> terminal (QueueJob.status job) = true ->
     getJob id (drain outcomes q) = Some job).
Proof.
  intros Hr. apply reachable_shape in Hr.
  destruct Hr as [done Hk Hdone | done j pend Hk Hdone Hj Hpend]; split.
  - intros i job o now Hjob. rewrite unfinished_idle in Hjob by assumption.
    destruct i; discriminate.
  - intros id job Hget _. now rewrite drain_idle.
  - intros i job o now Hjob Hout.
    rewrite unfinished_busy in Hjob by assumption.
    unfold getJob. now apply drain_busy_nth with (i := i).
  - intros id job Hget Ht. unfold getJob in *. cbn [jobs] in Hget.
    rewrite map_get_app in Hget.
    destruct (map_get id done) as [v|] eqn:E.
    + inversion Hget; subst. now apply drain_busy_done.
    + exfalso. apply map_get_In in Hget. destruct Hget as [Hin | Hin].
      * inversion Hin; subst. rewrite Hj in Ht. discriminate.
      * unfold all_status in Hpend. rewrite Forall_forall in Hpend.
        apply Hpend in Hin. cbn in Hin.
        destruct (QueueJob.status job); discriminate.
Qed.

Lemma drain_outcomes_in_order_witness :
  getJob "j1" (drain [(Rejected, 5%N); (Resolved "/api/zip/j2", 6%N)] two_jobs)
    = Some (QueueJob.mk "j1" zip (mkJobData ["a"; "b"] "u1") failed 1 (Some 5%N)) /\
  getJob "j2" (drain [(Rejected, 5%N); (Resolved "/api/zip/j2", 6%N)] two_jobs)
    = Some (QueueJob.mk "j2" zip (mkJobData ["c"] "u1") completed 2 (Some 6%N)).
Proof.
  assert (Hr : reachable two_jobs).
  { unfold two_jobs.
    apply reach_step with (q := addJob "j1" zip (mkJobData ["a"; "b"] "u1") 1 new_InMemoryQueue).
    - apply reach_step with (q := new_InMemoryQueue).
      + apply reach_new.
      + apply step_submit. reflexivity.
    - apply step_submit. reflexivity. }
  pose proof (proj1 (drain_outcomes_in_order two_jobs
                       [(Rejected, 5%N); (Resolved "/api/zip/j2", 6%N)] Hr)) as H.
  split.
  - exact (H 0 (QueueJob.mk "j1" zip (mkJobData ["a"; "b"] "u1") processing 1 None)
             Rejected 5%N eq_refl eq_refl).
  - exact (H 1 (QueueJob.mk "j2" zip (mkJobData ["c"] "u1") pending 2 None)
             (Resolved "/api/zip/j2") 6%N eq_refl eq_refl).
Defined.

(** * One run of an archive job, event by event *)

Lemma update_other_job (id other : string) (st : Status)
  (downloadUrl : option string) (now : N) (db : Database) :
  other <> id ->
  DatabaseOps.getZipJobById other
    (DatabaseOps.updateZipJobStatus id st downloadUrl now db)
    = DatabaseOps.getZipJobById other db.
Proof.
  intros Hne. rewrite getZipJobById_update.
  destruct (DatabaseOps.getZipJobById other db) as [j|] eqn:E; [|reflexivity].
  apply getZipJobById_id in E. cbn [option_map].
  destruct (String.eqb_spec (ZipJob.id j) id) as [E'|_]; [congruence | reflexivity].
Qed.

Lemma update_own_job (id : string) (st : Status) (downloadUrl : option string)
  (now : N) (db : Database) (j : ZipJob.t) :
  DatabaseOps.getZipJobById id db = Some j ->
  exists j',
    DatabaseOps.getZipJobById id
      (DatabaseOps.updateZipJobStatus id st downloadUrl now db) = Some j' /\
    ZipJob.status j' = st /\
    ZipJob.user_id j' = ZipJob.user_id j /\
    ZipJob.file_ids j' = ZipJob.file_ids j /\
    ZipJob.created_at j' = ZipJob.created_at j.
Proof.
  intros Hj. rewrite getZipJobById_update, Hj. cbn [option_map].
  apply getZipJobById_id in Hj. apply String.eqb_eq in Hj. rewrite Hj.
  destruct (truthy downloadUrl); eexists; repeat split.
Qed.

Lemma on_event_db (jobId : string) (r : ZipRun) (ev : ZipEvent * N) :
  exists url,
    run_db (on_event jobId r ev)
      = DatabaseOps.updateZipJobStatus jobId
          (match fst ev with OutputClose => completed | _ => failed end)
          url (snd ev) (run_db r).
Proof. unfold on_event. destruct (fst ev); eexists; reflexivity. Qed.

Lemma events_other_jobs (jobId other : string) (events : list (ZipEvent * N)) :
  other <> jobId ->
  forall r,
    DatabaseOps.getZipJobById other (run_db (fold_left (on_event jobId) events r))
      = DatabaseOps.getZipJobById other (run_db r).
Proof.
  intros Hne. induction events as [|ev events IH]; intros r; [reflexivity|].
  cbn [fold_left]. rewrite IH.
  destruct (on_event_db jobId r ev) as (url & ->). now apply update_other_job.
Qed.

Lemma events_own_job (jobId : string) (events : list (ZipEvent * N)) :
  forall r j,
    DatabaseOps.getZipJobById jobId (run_db r) = Some j ->
    exists j',
      DatabaseOps.getZipJobById jobId
        (run_db (fold_left (on_event jobId) events r)) = Some j' /\
      ZipJob.user_id j' = ZipJob.user_id j /\
      ZipJob.file_ids j' = ZipJob.file_ids j /\
      ZipJob.created_at j' = ZipJob.created_at j.
Proof.
  induction events as [|ev events IH]; intros r j Hj; cbn [fold_left].
  - exists j. auto.
  - destruct (on_event_db jobId r ev) as (url & E).
    destruct (update_own_job jobId
                (match fst ev with OutputClose => completed | _ => failed end)
                url (snd ev) _ _ Hj) as (j1 & H1 & _ & A & B & C).
    rewrite <- E in H1. destruct (IH _ _ H1) as (j' & H' & A' & B' & C').
    exists j'. repeat split; congruence.
Qed.

Lemma events_promise (jobId : string) (events : list (ZipEvent * N)) :
  forall r,
    run_promise (fold_left (on_event jobId) events r)
      = match run_promise r, events with
        | Some p, _ => Some p
        | None, [] => None
        | None, ev :: _ =>
            Some (match fst ev with
                  | OutputClose => Resolved ("/api/zip/" +++ jobId)
                  | _ => Rejected
                  end)
        end.
Proof.
  induction events as [|ev events IH]; intros r; cbn [fold_left].
  - now destruct (run_promise r).
  - rewrite IH. unfold on_event.
    destruct (fst ev); cbn [run_promise]; destruct (run_promise r); reflexivity.
Qed.

(** X17.  One run of [processZipFiles], whatever events it meets: the
    promise settles with the first event (resolved with the download url
    for the close of the output, rejected otherwise) and later events do
    not change it, while the status of the job's row is the one of the
    last event; the run leaves the table of files and the row of every
    other job as they are, and the job's own row keeps its user, its file
    ids and its creation time. *)
Theorem processZipFiles_first_and_last (fileIds : list string)
  (userId jobId : string) (existsSync : string -> bool)
  (events : list (ZipEvent * N)) (db : Database) :
  run_promise (processZipFiles fileIds userId jobId existsSync events db)
    = match events with
      | [] => None
      | ev :: _ =>
          Some (match fst ev with
                | OutputClose => Resolved ("/api/zip/" +++ jobId)
                | _ => Rejected
                end)
      end /\
  (forall j earlier ev,
     DatabaseOps.getZipJobById jobId db = Some j ->
     events = earlier ++ [ev] ->
     zip_status jobId
       (run_db (processZipFiles fileIds userId jobId existsSync events db))
       = Some (match fst ev with OutputClose => completed | _ => failed end)) /\
  files (run_db (processZipFiles fileIds userId jobId existsSync events db))
    = files db /\
  (forall other,
     other <> jobId ->
     DatabaseOps.getZipJobById other
       (run_db (processZipFiles fileIds userId jobId existsSync events db))
       = DatabaseOps.getZipJobById other db) /\
  (forall j,
     DatabaseOps.getZipJobById jobId db = Some j ->
     exists j',
       DatabaseOps.getZipJobById jobId
         (run_db (processZipFiles fileIds userId jobId existsSync events db))
         = Some j' /\
       ZipJob.user_id j' = ZipJob.user_id j /\
       ZipJob.file_ids j' = ZipJob.file_ids j /\
       ZipJob.created_at j' = ZipJob.created_at j).
Proof.
  unfold processZipFiles. repeat split.
  - now rewrite events_promise.
  - intros j earlier ev Hj ->. rewrite fold_left_app. cbn [fold_left].
    destruct (events_own_job jobId earlier
                (mkZipRun db None ("zips/" +++ jobId +++ ".zip")
                   (fold_left (add_file db existsSync userId) fileIds []))
                j Hj) as (j1 & H1 & _).
    set (r := fold_left _ earlier _) in *.
    destruct (on_event_db jobId r ev) as (url & ->).
    destruct (update_own_job jobId
                (match fst ev with OutputClose => completed | _ => failed end)
                url (snd ev) _ _ H1) as (j2 & H2 & S2 & _).
    unfold zip_status. rewrite H2. cbn [option_map]. now rewrite S2.
  - now destruct (on_event_fold jobId events
                    (mkZipRun db None ("zips/" +++ jobId +++ ".zip")
                       (fold_left (add_file db existsSync userId) fileIds [])))
      as (_ & _ & ->).
  - intros other Hne. now rewrite events_other_jobs.
  - intros j Hj.
    exact (events_own_job jobId events
             (mkZipRun db None ("zips/" +++ jobId +++ ".zip")
                (fold_left (add_file db existsSync userId) fileIds []))
             j Hj).
Qed.

(** * Uploads and downloads *)

Lemma find_object_new (path data : string) (objs : list (string * string)) :
  ~ In path (map fst objs) ->
  find (fun o => fst o =? path) (objs ++ [(path, data)]) = Some (path, data).
Proof.
  induction objs as [|[k v] objs IH]; simpl; intros H.
  - now rewrite String.eqb_refl.
  - destruct (String.eqb_spec k path) as [E|E]; [exfalso; auto|]. apply IH. tauto.
Qed.

Lemma find_object_In (path data : string) (objs : list (string * string)) :
  NoDup (map fst objs) ->
  (find (fun o => fst o =? path) objs = Some (path, data) <-> In (path, data) objs).
Proof.
  induction objs as [|[k v] objs IH]; simpl; intros Hd.
  - split; [discriminate | tauto].
  - inversion Hd as [|? ? Hk Hd']; subst.
    destruct (String.eqb_spec k path) as [E|E].
    + subst k. split.
      * intros H. inversion H. now left.
      * intros [H|H]; [now inversion H|].
        exfalso. apply Hk. apply in_map_iff. now exists (path, data).
    + rewrite (IH Hd'). split; [tauto|]. intros [H|H]; [|assumption].
      inversion H. congruence.
Qed.

Lemma find_object_key (path : string) (o : string * string)
  (objs : list (string * string)) :
  find (fun o => fst o =? path) objs = Some o -> fst o = path.
Proof. intros H. apply find_some in H. now apply String.eqb_eq. Qed.

Lemma uploadFile_Ok (file : Upload.t) (folderId fileId : string) (now : N)
  (s : Supabase) (row : File.t) (s' : Supabase) :
  uploadFile file folderId fileId now s = (Ok row, s') ->
  exists user,
    getUser s = Some user /\
    row = File.mk fileId (Upload.name file) (Upload.size file)
            (string_of_N (Upload.size file) +++ "_" +++ Upload.name file +++ "_"
               +++ string_of_N now)
            folderId user (user +++ "/" +++ fileId +++ "_" +++ Upload.name file)
            (Upload.type file) now now /\
    owns_object s (File.storage_path row) = true /\
    ~ In (File.storage_path row) (map fst (bucket s)) /\
    ~ In fileId (file_ids (fm_files s)) /\
    In folderId (folder_ids (fm_folders s)) /\
    s' = set_files (fm_files s ++ [row])
           (set_bucket (bucket s ++ [(File.storage_path row, Upload.bytes file)]) s).
Proof.
  unfold uploadFile. destruct (getUser s) as [user|] eqn:U; [|discriminate].
  destruct (negb (owns_object s _)) eqn:O; [discriminate|].
  destruct (mem _ (map fst (bucket s))) eqn:B; [discriminate|].
  unfold insert_file.
  destruct (negb (owns_file _ _)); [discriminate|].
  destruct (mem _ (file_ids _)) eqn:M; [discriminate|].
  destruct (negb (mem _ (folder_ids _))) eqn:F; [discriminate|].
  intros H. inversion H; subst; clear H. exists user.
  apply negb_false_iff in O, F. apply mem_false in B, M. apply mem_In in F.
  cbn in *. repeat split; auto.
Qed.

(** X18.  What [uploadFile] has stored comes back: right after a
    successful upload, [downloadFiles] of the new id hands the archive
    one entry, under the name of the uploaded file and with its bytes.
    The row lies in the folder asked for, which is a folder of the table,
    and belongs to the signed-in user; the upload adds this one row and
    this one object and changes nothing else. *)
Theorem uploadFile_then_downloadFiles (file : Upload.t) (folderId fileId : string)
  (now : N) (s : Supabase) (row : File.t) (s' : Supabase) :
  uploadFile file folderId fileId now s = (Ok row, s') ->
  downloadFiles [fileId] s' = [(Upload.name file, Upload.bytes file)] /\
  storage_download (File.storage_path row) s' = Some (Upload.bytes file) /\
  File.folder_id row = folderId /\
  In folderId (folder_ids (fm_folders s)) /\
  getUser s = Some (File.user_id row) /\
  fm_files s' = fm_files s ++ [row] /\
  bucket s' = bucket s ++ [(File.storage_path row, Upload.bytes file)] /\
  fm_folders s' = fm_folders s.
Proof.
  intros H. pose proof (uploadFile_roundtrip _ _ _ _ _ _ _ H) as (Hsel & Hname & _).
  destruct (uploadFile_Ok _ _ _ _ _ _ _ H) as (user & U & Hrow & O & B & M & F & ->).
  assert (D : storage_download (File.storage_path row)
                (set_files (fm_files s ++ [row])
                   (set_bucket (bucket s ++ [(File.storage_path row, Upload.bytes file)]) s))
              = Some (Upload.bytes file)).
  { unfold storage_download.
    change (owns_object (set_files _ _) (File.storage_path row))
      with (owns_object s (File.storage_path row)).
    rewrite O. cbn [bucket set_files set_bucket]. now rewrite find_object_new. }
  repeat split; auto.
  - unfold downloadFiles. cbn [fold_left]. unfold download_round.
    rewrite Hsel, D, Hname. reflexivity.
  - now rewrite Hrow.
  - now rewrite Hrow.
Qed.

Lemma uploadFile_then_downloadFiles_witness :
  downloadFiles ["f1"] upload_backend = [("a.pdf", "%PDF")].
Proof.
  exact (proj1 (uploadFile_then_downloadFiles a_pdf "reports" "f1" 1000
                  scenario_backend f1_row upload_backend eq_refl)).
Defined.

Lemma foldername1_of_user (user rest : string) :
  no_slash user = true ->
  storage_foldername1 (user +++ "/" +++ rest) = user.
Proof.
  intros H. unfold storage_foldername1.
  change ("/" +++ rest) with (String slash rest).
  rewrite split_at_sep, (split_no_slash _ H). reflexivity.
Qed.

(** X19.  No rollback of a failed upload.  In a backend reached by a run,
    when the signed-in user (whose id has no ["/"]) uploads, under an
    object name that is free, into a folder id that is not in the folder
    table: [uploadFile] fails, no file row is added, and the object it
    has stored stays in the bucket, named by no file row. *)
Theorem uploadFile_missing_folder (actions : list Action) (file : Upload.t)
  (folderId fileId : string) (now : N) (user : string) :
  session (run_actions actions empty_backend) = Some user ->
  no_slash user = true ->
  ~ In (user +++ "/" +++ fileId +++ "_" +++ Upload.name file)
       (map fst (bucket (run_actions actions empty_backend))) ->
  ~ In folderId (folder_ids (fm_folders (run_actions actions empty_backend))) ->
  (exists e,
     uploadFile file folderId fileId now (run_actions actions empty_backend)
       = (Err e,
          set_bucket
            (bucket (run_actions actions empty_backend)
               ++ [(user +++ "/" +++ fileId +++ "_" +++ Upload.name file,
                    Upload.bytes file)])
            (run_actions actions empty_backend))) /\
  (forall x, In x (fm_files (run_actions actions empty_backend)) ->
             File.storage_path x
               <> user +++ "/" +++ fileId +++ "_" +++ Upload.name file).
Proof.
  pose proof (backend_ok_run_actions actions _ backend_ok_empty) as Hok.
  set (s := run_actions actions empty_backend) in *.
  intros U Hu B F. split.
  - unfold uploadFile, getUser. rewrite U.
    assert (O : owns_object s (user +++ "/" +++ fileId +++ "_" +++ Upload.name file)
                = true).
    { unfold owns_object. rewrite U, foldername1_of_user by assumption.
      apply String.eqb_refl. }
    rewrite O. cbn [negb]. apply mem_false in B. rewrite B.
    unfold insert_file.
    match goal with
    | |- context [owns_file ?s1 ?row] =>
        assert (OF : owns_file s1 row = true)
          by (unfold owns_file; cbn; rewrite U; apply String.eqb_refl)
    end.
    rewrite OF. cbn [negb].
    destruct (mem _ (file_ids _)); [eauto|].
    apply mem_false in F. cbn [File.folder_id fm_folders set_bucket].
    rewrite F. cbn [negb]. eauto.
  - intros x Hx E. apply B. rewrite <- E. now apply (ok_objects s Hok).
Qed.

Lemma uploadFile_missing_folder_witness :
  exists e,
    uploadFile a_pdf "gone" "f1" 1000 (run_actions (map Basic scenario_ops) empty_backend)
      = (Err e,
         set_bucket [("u1/f1_a.pdf", "%PDF")]
           (run_actions (map Basic scenario_ops) empty_backend)).
Proof.
  refine (proj1 (uploadFile_missing_folder (map Basic scenario_ops) a_pdf
                   "gone" "f1" 1000 "u1" eq_refl eq_refl _ _)).
  - vm_compute. tauto.
  - vm_compute. intros [H|[H|[H|[]]]]; discriminate.
Defined.

(** * The entries of a download *)

Lemma download_rounds (s : Supabase) (fileIds : list string) :
  forall zip,
    fold_left (download_round s) fileIds zip
      = zip ++ fold_left (download_round s) fileIds [].
Proof.
  induction fileIds as [|fileId rest IH]; intros zip; cbn [fold_left].
  - now rewrite app_nil_r.
  - rewrite IH, (IH (download_round s [] fileId)). rewrite app_assoc. f_equal.
    unfold download_round. destruct (selectFileById fileId s) as [file|];
      [|now rewrite app_nil_r].
    destruct (storage_download _ s); [reflexivity | now rewrite app_nil_r].
Qed.

Lemma downloadFiles_cons (fileId : string) (rest : list string) (s : Supabase) :
  downloadFiles (fileId :: rest) s
    = download_round s [] fileId ++ downloadFiles rest s.
Proof. unfold downloadFiles. cbn [fold_left]. apply download_rounds. Qed.

(** In a backend kept by the runs, the object of a row that the lookup
    finds downloads. *)
Lemma download_found (s : Supabase) (fileId : string) (file : File.t) :
  backend_ok s -> selectFileById fileId s = Ok file ->
  exists data,
    storage_download (File.storage_path file) s = Some data /\
    In (File.storage_path file, data) (bucket s).
Proof.
  intros Hok Hsel. apply selectFileById_Ok in Hsel. destruct Hsel as (Hin & Ho & _).
  unfold storage_download.
  assert (O : owns_object s (File.storage_path file) = true).
  { unfold owns_object, owns_file in *. destruct (session s) as [u|]; [|discriminate].
    rewrite (ok_object_owner s Hok file Hin). apply String.eqb_eq in Ho.
    rewrite Ho. apply String.eqb_refl. }
  rewrite O. pose proof (ok_objects s Hok file Hin) as Hobj.
  apply in_map_iff in Hobj. destruct Hobj as ([k data] & Hk & Hobj). cbn in Hk. subst k.
  exists data. split; [|exact Hobj].
  apply (find_object_In _ _ _ (ok_bucket s Hok)) in Hobj. now rewrite Hobj.
Qed.

(** X20.  In a backend reached by a run, [downloadFiles] hands the archive
    one entry for each requested id that the lookup finds (a file of the
    signed-in user), in the order of the request, under the file's name
    and with the content of the file's object; an id that is not found
    adds nothing, and no entry comes from anything else.  A download in
    two parts gives the entries of the parts, one after the other. *)
Theorem downloadFiles_entries (actions : list Action) (fileIds : list string) :
  length (downloadFiles fileIds (run_actions actions empty_backend))
    = length (filter (found (run_actions actions empty_backend)) fileIds) /\
  (forall name data,
     In (name, data) (downloadFiles fileIds (run_actions actions empty_backend)) <->
     exists fileId file,
       In fileId fileIds /\
       selectFileById fileId (run_actions actions empty_backend) = Ok file /\
       File.name file = name /\
       In (File.storage_path file, data)
          (bucket (run_actions actions empty_backend))) /\
  (forall first second,
     fileIds = first ++ second ->
     downloadFiles fileIds (run_actions actions empty_backend)
       = downloadFiles first (run_actions actions empty_backend)
           ++ downloadFiles second (run_actions actions empty_backend)).
Proof.
  pose proof (backend_ok_run_actions actions _ backend_ok_empty) as Hok.
  set (s := run_actions actions empty_backend) in *.
  assert (Hround : forall fileId,
            match selectFileById fileId s with
            | Ok file =>
                exists data,
                  download_round s [] fileId = [(File.name file, data)] /\
                  In (File.storage_path file, data) (bucket s)
            | Err _ => download_round s [] fileId = []
            end).
  { intros fileId. unfold download_round.
    destruct (selectFileById fileId s) as [file|e] eqn:E; [|reflexivity].
    destruct (download_found s fileId file Hok E) as (data & -> & Hin).
    exists data. auto. }
  split; [|split].
  - induction fileIds as [|fileId rest IH]; [reflexivity|].
    rewrite downloadFiles_cons, length_app, IH. cbn [filter]. unfold found at 2.
    specialize (Hround fileId).
    destruct (selectFileById fileId s) as [file|e].
    + destruct Hround as (data & -> & _). reflexivity.
    + rewrite Hround. reflexivity.
  - intros name data. induction fileIds as [|fileId rest IH].
    + cbn. split; [tauto | intros (? & ? & [] & _)].
    + rewrite downloadFiles_cons, in_app_iff, IH. specialize (Hround fileId).
      split.
      * intros [H|(id & file & Hid & Hrest)].
        -- destruct (selectFileById fileId s) as [file|e] eqn:E.
           ++ destruct Hround as (data' & Hr & Hin). rewrite Hr in H.
              destruct H as [H|[]]. inversion H; subst.
              exists fileId, file. repeat split; auto. now left.
           ++ rewrite Hround in H. destruct H.
        -- exists id, file. split; [now right | exact Hrest].
      * intros (id & file & [->|Hid] & Hsel & Hname & Hin).
        -- left. rewrite Hsel in Hround. destruct Hround as (data' & -> & Hin').
           left. f_equal; [exact Hname|].
           apply (find_object_In _ _ _ (ok_bucket s Hok)) in Hin, Hin'.
           congruence.
        -- right. exists id, file. auto.
  - intros first second ->. unfold downloadFiles. rewrite fold_left_app.
    apply download_rounds.
Qed.

(** * The batch move of the file manager *)

Lemma moveFile_other_lookup (fileId newFolderId : string) (clientNow now : N)
  (s : Supabase) (row' : File.t) (s' : Supabase) (id : string) :
  moveFile fileId newFolderId clientNow now s = Ok (row', s') ->
  id <> fileId ->
  selectFileById id s' = selectFileById id s.
Proof.
  intros H Hne. apply moveFile_Ok in H.
  destruct H as (old & Hsel & Hrow & _ & -> & _).
  apply selectFileById_Ok in Hsel. destruct Hsel as (_ & _ & Hid).
  assert (Hid' : File.id row' = fileId) by (rewrite Hrow; exact Hid).
  unfold selectFileById. cbn [fm_files set_files].
  change (fun f => owns_file (set_files _ s) f && (File.id f =? id))
    with (fun f => owns_file s f && (File.id f =? id)).
  f_equal. induction (fm_files s) as [|f l IH]; [reflexivity|].
  cbn [map filter]. rewrite IH.
  destruct (String.eqb_spec (File.id f) fileId) as [E|E]; [|reflexivity].
  assert (E1 : (File.id row' =? id) = false) by (apply String.eqb_neq; congruence).
  assert (E2 : (File.id f =? id) = false) by (apply String.eqb_neq; congruence).
  now rewrite E1, E2, !andb_false_r.
Qed.

Lemma moveFiles_app (target : string) (pre post : list string) :
  forall clock results s,
    moveFiles (pre ++ post) target clock results s
      = match moveFiles pre target clock results s with
        | (Ok rows, s1) => moveFiles post target (skipn (length pre) clock) rows s1
        | (Err e, s1) => (Err e, s1)
        end.
Proof.
  induction pre as [|id pre IH]; intros clock results s; [reflexivity|].
  cbn [app moveFiles length].
  destruct (hd (0%N, 0%N) clock) as [clientNow now].
  destruct (moveFile id target clientNow now s) as [[row' s']|e]; [|reflexivity].
  rewrite IH. destruct clock; cbn [tl skipn]; [now rewrite skipn_nil | reflexivity].
Qed.

Lemma moveFiles_all (target : string) (fileIds : list string) :
  forall clock results s,
    backend_ok s ->
    (forall id, In id fileIds -> exists file, selectFileById id s = Ok file) ->
    In target (folder_ids (fm_folders s)) ->
    exists rows s',
      moveFiles fileIds target clock results s = (Ok (results ++ rows), s') /\
      map File.id rows = fileIds /\
      (forall id, In id fileIds ->
         exists row, selectFileById id s' = Ok row /\ File.folder_id row = target) /\
      (forall id, ~ In id fileIds -> selectFileById id s' = selectFileById id s) /\
      fm_folders s' = fm_folders s /\ bucket s' = bucket s.
Proof.
  induction fileIds as [|fileId rest IH]; intros clock results s Hok Hall Ht.
  - exists [], s. rewrite app_nil_r. repeat split; auto. intros id [].
  - cbn [moveFiles]. destruct (hd (0%N, 0%N) clock) as [clientNow now].
    destruct (Hall fileId (or_introl eq_refl)) as (old & Hsel).
    destruct (moveFile_succeeds fileId target clientNow now s old
                (ok_file_ids s Hok) Hsel Ht) as (row' & s1 & M).
    rewrite M.
    pose proof (backend_ok_moveFile _ _ _ _ _ _ _ Hok M) as Hok1.
    pose proof (moveFile_Ok _ _ _ _ _ _ _ M)
      as (old' & Hsel' & Hrow & _ & Es1 & _ & Hsel1).
    assert (Hfold : fm_folders s1 = fm_folders s) by (now rewrite Es1).
    assert (Hbucket : bucket s1 = bucket s) by (now rewrite Es1).
    assert (Hid : File.id row' = fileId).
    { rewrite Hrow. now apply selectFileById_Ok in Hsel'. }
    assert (Htarget : File.folder_id row' = target) by (now rewrite Hrow).
    destruct (IH (tl clock) (results ++ [row']) s1 Hok1)
      as (rows & s' & E & Hids & Hin & Hout & Hf & Hb).
    { intros id Hid'. destruct (string_dec id fileId) as [->|Hne]; [eauto|].
      rewrite (moveFile_other_lookup _ _ _ _ _ _ _ id M Hne).
      apply Hall. now right. }
    { now rewrite Hfold. }
    exists (row' :: rows), s'. rewrite E, <- app_assoc. repeat split.
    + cbn. now rewrite Hid, Hids.
    + intros id [<-|Hid'].
      * destruct (in_dec string_dec fileId rest) as [Hr|Hr]; [now apply Hin|].
        rewrite (Hout _ Hr). eauto.
      * now apply Hin.
    + intros id Hn. rewrite Hout by (intros H; apply Hn; now right).
      apply (moveFile_other_lookup _ _ _ _ _ _ _ id M).
      intros ->. apply Hn. now left.
    + congruence.
    + congruence.
Qed.

(** X21.  The batch move of the file manager, in a backend reached by a
    run.  When every selected id is found by the lookup and the target is
    the key of a folder row, the batch succeeds and returns one row for
    each selected id, in the order of the selection; afterwards every
    selected file lies in the target, the lookup of every other id gives
    what it gave before, and folders and bucket are unchanged.  When the
    batch has moved a first part of the selection and the next id is not
    found, it ends with that error and the first part stays moved. *)
Theorem moveFiles_effect (actions : list Action) (fileIds : list string)
  (target : string) (clock : list (N * N)) :
  ((forall id, In id fileIds ->
      exists file, selectFileById id (run_actions actions empty_backend) = Ok file) ->
   In target (folder_ids (fm_folders (run_actions actions empty_backend))) ->
   exists rows s',
     moveFiles fileIds target clock [] (run_actions actions empty_backend)
       = (Ok rows, s') /\
     map File.id rows = fileIds /\
     (forall id, In id fileIds ->
        exists row, selectFileById id s' = Ok row /\ File.folder_id row = target) /\
     (forall id, ~ In id fileIds ->
        selectFileById id s'
          = selectFileById id (run_actions actions empty_backend)) /\
     fm_folders s' = fm_folders (run_actions actions empty_backend) /\
     bucket s' = bucket (run_actions actions empty_backend)) /\
  (forall first id rest rows s1 e,
     fileIds = first ++ id :: rest ->
     moveFiles first target clock [] (run_actions actions empty_backend)
       = (Ok rows, s1) ->
     selectFileById id s1 = Err e ->
     moveFiles fileIds target clock [] (run_actions actions empty_backend)
       = (Err e, s1)).
Proof.
  pose proof (backend_ok_run_actions actions _ backend_ok_empty) as Hok.
  split.
  - intros Hall Ht.
    exact (moveFiles_all target fileIds clock [] _ Hok Hall Ht).
  - intros first id rest rows s1 e -> Hfirst Hsel.
    rewrite moveFiles_app, Hfirst. cbn [moveFiles].
    destruct (hd (0%N, 0%N) (skipn (length first) clock)) as [clientNow now].
    unfold moveFile. now rewrite Hsel.
Qed.

Lemma moveFiles_effect_witness :
  exists rows s',
    moveFiles ["f1"] "docs" [(1999%N, 2000%N)] []
              (run_actions (map Basic upload_ops) empty_backend) = (Ok rows, s') /\
    map File.id rows = ["f1"] /\
    (forall id, In id ["f1"] ->
       exists row, selectFileById id s' = Ok row /\ File.folder_id row = "docs").
Proof.
  destruct (proj1 (moveFiles_effect (map Basic upload_ops) ["f1"] "docs"
                     [(1999%N, 2000%N)]))
    as (rows & s' & H1 & H2 & H3 & _).
  - intros id [<-|[]]. eexists. reflexivity.
  - vm_compute. tauto.
  - exists rows, s'. repeat split; assumption.
Defined.

(** * The listing of files *)

Lemma in_folder_spec (folderId : option string) (f : File.t) :
  in_folder folderId f = true <->
  (forall q, or_null folderId = Some q -> File.folder_id f = q).
Proof.
  unfold in_folder, or_null. destruct (truthy folderId) eqn:T.
  - destruct folderId as [q|]; [|discriminate]. split.
    + intros E q' H. inversion H; subst. now apply String.eqb_eq.
    + intros H. apply String.eqb_eq. now apply H.
  - split; [discriminate | reflexivity].
Qed.

(** The rows of a page of [getFiles]. *)
Lemma getFiles_rows (folderId : option string) (limit offset : nat)
  (s : Supabase) :
  (forall f, In f (getFiles folderId limit offset s) ->
     In f (fm_files s) /\ owns_file s f = true /\ in_folder folderId f = true) /\
  (length (fm_files s) <= limit ->
   forall f, In f (fm_files s) -> owns_file s f = true ->
             in_folder folderId f = true ->
             In f (getFiles folderId limit 0 s)).
Proof.
  unfold getFiles. split.
  - intros f Hf. apply range_In, order_by_In, filter_In in Hf.
    destruct Hf as [Hin H]. apply andb_true_iff in H. tauto.
  - intros Hlen f Hin Ho Hp. rewrite range_all.
    + apply order_by_In, filter_In. split; [assumption|]. now rewrite Ho, Hp.
    + rewrite order_by_length.
      eapply Nat.le_trans; [|exact Hlen].
      generalize (filter_split (fun f => owns_file s f && in_folder folderId f)
                               (fm_files s)).
      generalize (length (filter (fun f => owns_file s f && in_folder folderId f)
                                 (fm_files s))).
      intros n Hn. rewrite <- Hn. apply Nat.le_add_r.
Qed.

(** X22.  [getFiles] returns at most [limit] files, each a file of the
    signed-in user that lies in the given folder when a folder id is given
    (a missing or empty id does not filter), in the order of their names;
    from offset 0 and with a limit that covers the table it returns every
    such file. *)
Theorem getFiles_page (folderId : option string) (limit offset : nat)
  (s : Supabase) :
  length (getFiles folderId limit offset s) <= limit /\
  (forall f, In f (getFiles folderId limit offset s) ->
     In f (fm_files s) /\ owns_file s f = true /\
     (forall q, or_null folderId = Some q -> File.folder_id f = q)) /\
  Sorted (fun a b => String.leb (File.name a) (File.name b) = true)
         (getFiles folderId limit offset s) /\
  (length (fm_files s) <= limit ->
   forall f, In f (fm_files s) -> owns_file s f = true ->
             (forall q, or_null folderId = Some q -> File.folder_id f = q) ->
             In f (getFiles folderId limit 0 s)).
Proof.
  destruct (getFiles_rows folderId limit offset s) as [Hsound Hcomplete].
  split; [apply range_length|]. split; [|split].
  - intros f Hf. destruct (Hsound f Hf) as (H1 & H2 & H3).
    repeat split; auto. now apply in_folder_spec.
  - unfold getFiles. apply range_Sorted.
    apply (order_by_Sorted file_name_le file_name_le_total).
  - intros Hlen f Hin Ho Hq. apply Hcomplete; auto. now apply in_folder_spec.
Qed.

Lemma getFiles_page_witness :
  In f1_row (getFiles (Some "reports") 50 0 upload_backend).
Proof.
  refine (proj2 (proj2 (proj2 (getFiles_page (Some "reports") 50 0 upload_backend)))
            _ f1_row _ _ _).
  - vm_compute. lia.
  - vm_compute. tauto.
  - reflexivity.
  - intros q H. now inversion H.
Defined.

(** X23.  After a successful [moveFile] into a folder with a non-empty
    id, [getFiles] lists the moved row in the new folder (from offset 0,
    with a limit that covers the table), and lists no row with the file's
    id in any other folder. *)
Theorem moveFile_then_getFiles (fileId newFolderId : string) (clientNow now : N)
  (s : Supabase) (row' : File.t) (s' : Supabase) (limit : nat) :
  moveFile fileId newFolderId clientNow now s = Ok (row', s') ->
  newFolderId <> EmptyString ->
  length (fm_files s) <= limit ->
  In row' (getFiles (Some newFolderId) limit 0 s') /\
  (forall other offset f,
     other <> EmptyString -> other <> newFolderId ->
     In f (getFiles (Some other) limit offset s') ->
     File.id f <> fileId).
Proof.
  intros M Hne Hlen.
  pose proof (moveFile_Ok _ _ _ _ _ _ _ M)
    as (old & Hsel & Hrow & _ & Es' & _ & Hsel').
  assert (Hfolder : File.folder_id row' = newFolderId) by (now rewrite Hrow).
  assert (Hlen' : length (fm_files s') <= limit).
  { rewrite Es'. cbn [fm_files set_files]. now rewrite length_map. }
  split.
  - apply selectFileById_Ok in Hsel'. destruct Hsel' as (Hin & Ho & _).
    apply (proj2 (getFiles_rows (Some newFolderId) limit 0 s') Hlen'); auto.
    apply in_folder_spec. unfold or_null. cbn [truthy].
    apply String.eqb_neq in Hne. rewrite Hne. cbn [negb].
    intros q H. inversion H. congruence.
  - intros other offset f Ho Hd Hf Hid.
    apply (proj1 (getFiles_rows (Some other) limit offset s')) in Hf.
    destruct Hf as (Hin & _ & Hq).
    rewrite in_folder_spec in Hq. unfold or_null in Hq. cbn [truthy] in Hq.
    apply String.eqb_neq in Ho. rewrite Ho in Hq. cbn [negb] in Hq.
    specialize (Hq other eq_refl).
    rewrite Es' in Hin. cbn [fm_files set_files] in Hin.
    apply in_map_iff in Hin. destruct Hin as (g & Hg & _).
    destruct (String.eqb_spec (File.id g) fileId) as [E|E].
    + subst f. congruence.
    + subst f. contradiction.
Qed.

Lemma moveFile_then_getFiles_witness :
  In (moved "docs" 2000 f1_row) (getFiles (Some "docs") 50 0 moved_backend).
Proof.
  refine (proj1 (moveFile_then_getFiles "f1" "docs" 1999 2000 upload_backend
                   (moved "docs" 2000 f1_row) moved_backend 50 eq_refl _ _)).
  - discriminate.
  - vm_compute. lia.
Defined.

(** * The selection of the file list *)

Lemma handleSelectFile_In (fileId x : string) (selectedFiles : list string) :
  In x (handleSelectFile fileId selectedFiles) <->
  (x = fileId /\ ~ In fileId selectedFiles) \/
  (x <> fileId /\ In x selectedFiles).
Proof.
  unfold handleSelectFile. destruct (mem fileId selectedFiles) eqn:M.
  - apply mem_In in M. rewrite filter_In. split.
    + intros [Hin Hx]. right. split; [|assumption].
      apply negb_true_iff, String.eqb_neq in Hx. exact Hx.
    + intros [[-> Hn]|[Hne Hin]]; [contradiction|]. split; [assumption|].
      now apply negb_true_iff, String.eqb_neq.
  - apply mem_false in M. rewrite in_app_iff. cbn [In]. split.
    + intros [Hin|[<-|[]]].
      * right. split; [|assumption]. intros ->. contradiction.
      * now left.
    + intros [[-> _]|[_ Hin]]; auto.
Qed.

Lemma on_click_selection (files : list File.t) (ev : SelectEvent)
  (selectedFiles : list string) :
  NoDup (file_ids files) ->
  (forall id, ev = ClickFile id -> In id (file_ids files)) ->
  NoDup selectedFiles -> incl selectedFiles (file_ids files) ->
  NoDup (on_click files selectedFiles ev) /\
  incl (on_click files selectedFiles ev) (file_ids files).
Proof.
  intros Hfiles Hev Hd Hincl. destruct ev as [fileId|]; cbn [on_click].
  - split.
    + unfold handleSelectFile. destruct (mem fileId selectedFiles) eqn:M.
      * now apply NoDup_filter.
      * apply mem_false in M. now apply NoDup_snoc.
    + intros x Hx. apply handleSelectFile_In in Hx.
      destruct Hx as [[-> _]|[_ Hx]]; [now apply Hev | now apply Hincl].
  - unfold handleSelectAll.
    destruct (Nat.eqb (length selectedFiles) (length files)).
    + split; [constructor | intros x []].
    + split; [exact Hfiles | apply incl_refl].
Qed.

(** X24.  The selection of the file list.  A click on the box of a file
    selects the file when it is not selected and takes it out when it is,
    and leaves every other file as it is.  While the list shows the same
    files (with distinct ids), after any clicks on files of the list and
    on the header box, starting with nothing selected: no id is selected
    twice, every selected id is a file of the list, and the next click on
    the header box clears the selection when every file is selected and
    selects every file otherwise. *)
Theorem selection_of_the_list (files : list File.t) (events : list SelectEvent) :
  NoDup (file_ids files) ->
  (forall id, In (ClickFile id) events -> In id (file_ids files)) ->
  (forall fileId x selectedFiles,
     In x (handleSelectFile fileId selectedFiles) <->
     (x = fileId /\ ~ In fileId selectedFiles) \/
     (x <> fileId /\ In x selectedFiles)) /\
  NoDup (fold_left (on_click files) events []) /\
  incl (fold_left (on_click files) events []) (file_ids files) /\
  ((forall id, In id (file_ids files) ->
               In id (fold_left (on_click files) events [])) ->
   handleSelectAll files (fold_left (on_click files) events []) = []) /\
  (forall id, In id (file_ids files) ->
              ~ In id (fold_left (on_click files) events []) ->
              handleSelectAll files (fold_left (on_click files) events [])
                = file_ids files).
Proof.
  intros Hfiles Hev. split; [intros; apply handleSelectFile_In|].
  assert (Hinv : forall selectedFiles,
            NoDup selectedFiles -> incl selectedFiles (file_ids files) ->
            NoDup (fold_left (on_click files) events selectedFiles) /\
            incl (fold_left (on_click files) events selectedFiles) (file_ids files)).
  { induction events as [|ev events IH]; intros sel Hd Hincl; [now split|].
    cbn [fold_left].
    destruct (on_click_selection files ev sel Hfiles) as [Hd' Hincl']; auto.
    - intros id ->. apply Hev. now left.
    - apply IH; auto. intros id Hid. apply Hev. now right. }
  destruct (Hinv [] (NoDup_nil _) (incl_nil_l _)) as [Hd Hincl].
  set (sel := fold_left (on_click files) events []) in *.
  assert (Hlen : length (file_ids files) = length files)
    by (unfold file_ids; apply length_map).
  repeat split; auto.
  - intros Hall. unfold handleSelectAll.
    assert (length sel = length files) as ->; [|now rewrite Nat.eqb_refl].
    rewrite <- Hlen. apply Nat.le_antisymm.
    + now apply NoDup_incl_length.
    + apply NoDup_incl_length; [exact Hfiles | exact Hall].
  - intros id Hid Hn. unfold handleSelectAll.
    destruct (Nat.eqb_spec (length sel) (length files)) as [E|E]; [|reflexivity].
    exfalso. apply Hn.
    refine (NoDup_length_incl Hd _ Hincl id Hid).
    rewrite Hlen, E. apply Nat.le_refl.
Qed.

Lemma selection_of_the_list_witness :
  fold_left (on_click [f1_row]) [ClickFile "f1"; ClickAll; ClickAll] [] = ["f1"] /\
  handleSelectAll [f1_row]
    (fold_left (on_click [f1_row]) [ClickFile "f1"; ClickAll; ClickAll] []) = [].
Proof.
  split; [reflexivity|].
  refine (proj1 (proj2 (proj2 (proj2 (selection_of_the_list [f1_row]
            [ClickFile "f1"; ClickAll; ClickAll] _ _)))) _).
  - vm_compute. repeat constructor. tauto.
  - intros id [H|[H|[H|[]]]]; try discriminate. inversion H. now left.
  - intros id [<-|[]]. now left.
Defined.

(** * Without a session *)




